(** * wavespectra: spectral partitioning (PTM1, PTM3, PTM5) and SpecArray statistics

    A shallow embedding of [wavespectra/partition/partition.py] and of the
    grid metrics and Hs of [wavespectra/specarray.py].

    Numbers are IEEE binary64 values (numpy's float64), taken from the
    Standard Library's executable specification [SpecFloat]: NaN, signed
    zeros and infinities are values of the model and every operation rounds
    to nearest even.  Arrays are row-major nested lists: a spectrum of shape
    (nf, nd) is a list of nf rows of nd bins.  Sums run from left to right
    (numpy adds long arrays pairwise, which changes the rounding only), and
    the sorts are stable insertion sorts, as numpy's and Python's are on
    the short lists of partitions. *)

From Stdlib Require Import ZArith Lia Bool Floats.SpecFloat.
From stdpp Require Import base list sorting.

Local Open Scope Z_scope.

(** ** binary64 *)

Module F64.

Definition t := spec_float.

Definition prec : Z := 53.
Definition emax : Z := 1024.

Definition add : t -> t -> t := SFadd prec emax.
Definition sub : t -> t -> t := SFsub prec emax.
Definition mul : t -> t -> t := SFmul prec emax.
Definition div : t -> t -> t := SFdiv prec emax.
Definition sqrt : t -> t := SFsqrt prec emax.
Definition opp : t -> t := SFopp.
Definition abs : t -> t := SFabs.

Definition eqb : t -> t -> bool := SFeqb.
Definition ltb : t -> t -> bool := SFltb.
Definition leb : t -> t -> bool := SFleb.
(** [x > y] and [x >= y] of Python and numpy. *)
Definition gtb (x y : t) : bool := SFltb y x.
Definition geb (x y : t) : bool := SFleb y x.

Definition zero : t := S754_zero false.
Definition nan : t := S754_nan.

Definition of_Z (z : Z) : t := binary_normalize prec emax z 0 false.
(** The decimal literal [n/d] of the source, rounded to nearest. *)
Definition dec (n d : Z) : t := div (of_Z n) (of_Z d).

Definition is_nan (x : t) : bool :=
  match x with S754_nan => true | _ => false end.
Definition is_zero (x : t) : bool :=
  match x with S754_zero _ => true | _ => false end.
Definition is_finite (x : t) : bool :=
  match x with S754_zero _ | S754_finite _ _ _ => true | _ => false end.

Definition one : t := Eval vm_compute in of_Z 1.
Definition four : t := Eval vm_compute in of_Z 4.
Definition half : t := Eval vm_compute in dec 1 2.
Definition quarter : t := Eval vm_compute in dec 25 100.
(** 0.333, the frequency above which [hs] fits a tail. *)
Definition c0_333 : t := Eval vm_compute in dec 333 1000.

End F64.

Abbreviation f64 := F64.t.

Arguments F64.add : simpl never.
Arguments F64.sub : simpl never.
Arguments F64.mul : simpl never.
Arguments F64.div : simpl never.
Arguments F64.sqrt : simpl never.
Arguments F64.gtb : simpl never.
Arguments F64.geb : simpl never.
Arguments F64.ltb : simpl never.
Arguments F64.leb : simpl never.
Arguments F64.eqb : simpl never.

(** ** Exceptions *)

Inductive exn := ValueError | IndexError | KeyError.

Inductive result (A : Type) :=
  | Ok (a : A)
  | Raise (e : exn).
Arguments Ok {A} a.
Arguments Raise {A} e.

#[export] Instance result_ret : MRet result := fun _ a => Ok a.
#[export] Instance result_bind : MBind result := fun _ _ f m =>
  match m with Ok a => f a | Raise e => Raise e end.

(** ** numpy arrays *)

(** A float array of shape (nf, nd) and an integer array of the same shape. *)
Abbreviation ndarray := (list (list f64)).
Abbreviation intarray := (list (list Z)).

Module np.

(** [a.sum()] of a one-dimensional float array: the empty sum is 0.0, a
    non-empty one accumulates from its first element, left to right. *)
Definition sum1 (l : list f64) : f64 :=
  match l with
  | [] => F64.zero
  | x :: l' => foldl F64.add x l'
  end.

(** [a.sum()] of a two-dimensional array, in row-major order. *)
Definition sum (a : ndarray) : f64 := sum1 (concat a).

(** [np.nansum]: NaN entries count as zero. *)
Definition nansum1 (l : list f64) : f64 :=
  sum1 (map (fun x => if F64.is_nan x then F64.zero else x) l).

Definition zeros_like (a : ndarray) : ndarray :=
  map (map (fun _ => F64.zero)) a.

(** [np.where(m == k, a, 0.0)]. *)
Definition where_eq (m : intarray) (k : Z) (a : ndarray) : ndarray :=
  zip_with (zip_with (fun w x => if w =? k then x else F64.zero)) m a.

(** [a + b], also the in-place [a += b]. *)
Definition add (a b : ndarray) : ndarray :=
  zip_with (zip_with F64.add) a b.

(** [a[mask]]: the bins selected by a boolean array of the same shape, in
    row-major order. *)
Definition bool_index (a : ndarray) (mask : list (list bool)) : list f64 :=
  map snd (List.filter fst (zip (concat mask) (concat a))).

(** [m.max()] of an integer array; numpy raises [ValueError] on an array
    without elements. *)
Definition max (m : intarray) : result Z :=
  match concat m with
  | [] => Raise ValueError
  | x :: l => Ok (foldl Z.max x l)
  end.

(** [np.diff]. *)
Definition diff (l : list f64) : list f64 :=
  zip_with (fun a b => F64.sub b a) l (tail l).

(** The order numpy sorts floats by: [<], with NaN after everything. *)
Definition lt (a b : f64) : bool :=
  F64.ltb a b || (F64.is_nan b && negb (F64.is_nan a)).

(** [np.argmax] of a one-dimensional float array: the first index of the
    maximum, or of the first NaN; numpy raises [ValueError] on an empty
    array. *)
Fixpoint argmax_loop (mp : f64) (idx i : nat) (l : list f64) : nat :=
  match l with
  | [] => idx
  | x :: l' =>
      if negb (F64.leb x mp) then
        if F64.is_nan x then i else argmax_loop x i (S i) l'
      else argmax_loop mp idx (S i) l'
  end.

Definition argmax (l : list f64) : result nat :=
  match l with
  | [] => Raise ValueError
  | x :: l' => Ok (if F64.is_nan x then 0%nat else argmax_loop x 0 1 l')
  end.

(** [np.nanargmax]: NaN counts as -inf, and an array of nothing but NaN is
    a [ValueError]. *)
Definition nanargmax (l : list f64) : result nat :=
  match l with
  | [] => Raise ValueError
  | _ =>
      if forallb F64.is_nan l then Raise ValueError
      else argmax (map (fun x => if F64.is_nan x then S754_infinity true else x) l)
  end.

End np.

(** ** Sorting *)

Section Sort.
Context {A : Type}.

(** Stable insertion sort: [x] goes before the first element that is not
    smaller than it. *)
Fixpoint insert_by (lt : A -> A -> bool) (x : A) (l : list A) : list A :=
  match l with
  | [] => [x]
  | y :: l' => if lt y x then y :: insert_by lt x l' else x :: l
  end.

Definition sort_by (lt : A -> A -> bool) (l : list A) : list A :=
  foldr (insert_by lt) [] l.

(** The same sort with a comparison that may raise. *)
Fixpoint insertM (lt : A -> A -> result bool) (x : A) (l : list A)
  : result (list A) :=
  match l with
  | [] => Ok [x]
  | y :: l' =>
        b ← lt y x;
        if b : bool then r ← insertM lt x l'; Ok (y :: r) else Ok (x :: l)
  end.

Fixpoint sortM (lt : A -> A -> result bool) (l : list A) : result (list A) :=
  match l with
  | [] => Ok []
  | x :: l' => s ← sortM lt l'; insertM lt x s
  end.

(** [sorted(l, reverse=True)]: Python reverses, sorts stably in ascending
    order and reverses again. *)
Definition sorted_reverse (lt : A -> A -> result bool) (l : list A)
  : result (list A) :=
  r ← sortM lt (rev l); Ok (rev r).
End Sort.

(** [np.argsort(keys)]: the indices that sort [keys] in ascending order,
    ties in their order of appearance. *)
Definition argsort (keys : list f64) : list nat :=
  map snd (sort_by (fun a b => np.lt a.1 b.1) (zip keys (seq 0 (length keys)))).

(** [sorted(zip(isort, parts))] followed by the projection on the arrays.
    Tuples compare on the index first; the indices of an [argsort] are
    pairwise distinct, so the arrays are never compared. *)
Definition sorted_zip (isort : list nat) (parts : list ndarray) : list ndarray :=
  map snd (sort_by (fun a b => Nat.ltb a.1 b.1) (zip isort parts)).

(** [bool(a)] of a boolean array: defined for one element, [False] for none
    (with a deprecation warning), [ValueError] otherwise. *)
Definition truth (a : list (list bool)) : result bool :=
  match concat a with
  | [] => Ok false
  | [b] => Ok b
  | _ => Raise ValueError
  end.

(** [t1 < t2] on the tuples [(hs, partition)] that [np_ptm3] sorts: equal
    first components send the comparison to the arrays. *)
Definition tuple_lt (a b : f64 * ndarray) : result bool :=
  if F64.eqb a.1 b.1 then
    e ← truth (zip_with (zip_with F64.eqb) a.2 b.2);
    if e : bool then Ok false
    else truth (zip_with (zip_with F64.ltb) a.2 b.2)
  else Ok (F64.ltb a.1 b.1).

(** [l[:k]] for a Python integer [k], negative ones counting from the end. *)
Definition slice_to {A} (k : Z) (l : list A) : list A :=
  if k <? 0 then take (Z.to_nat (Z.of_nat (length l) + k)) l
  else take (Z.to_nat k) l.

(** ** Collaborators of partition.py *)

(** [partition.py] imports the watershed engine and the helpers below from
    modules of the package whose sources are not among the embedded files;
    the partitioning functions take them as one record. *)
Record collaborators := {
(** [specpart.partition]: the watershed region map of a spectrum. *)
  partition : ndarray -> intarray;
(** [core.utils.celerity(freq, depth)], one value per frequency. *)
  celerity : list f64 -> f64 -> list f64;
(** [np.cos]. *)
  np_cos : f64 -> f64;
(** [core.utils.D2R], degrees to radians. *)
  D2R : f64;
(** [core.npstats.hs(spectrum, freq, dir)]. *)
  hs : ndarray -> list f64 -> list f64 -> f64;
(** [partition.utils.combine_partitions(partitions, freq, dir, swells)]. *)
  combine_partitions : list ndarray -> list f64 -> list f64 -> Z -> list ndarray
}.

(** ** partition.py *)

Section Partition.
Variable ext : collaborators.

(** [agefac * wspd * np.cos(D2R * (d - wdir))] for one direction [d]. *)
Definition wind_component (wspd wdir agefac d : f64) : f64 :=
  F64.mul (F64.mul agefac wspd)
    (np_cos ext (F64.mul (D2R ext) (F64.sub d wdir))).

(** The wind sea mask of [np_ptm1]:
    [up = np.tile(agefac * wspd * np.cos(D2R * (dir - wdir)), (freq.size, 1))]
    and [up > np.tile(celerity(freq, dpt)[:, np.newaxis], (1, dir.size))]. *)
Definition up_row (dir : list f64) (wspd wdir agefac : f64) : list f64 :=
  map (wind_component wspd wdir agefac) dir.

Definition windseamask (freq dir : list f64) (wspd wdir dpt agefac : f64)
  : list (list bool) :=
  zip_with (zip_with F64.gtb)
    (replicate (length freq) (up_row dir wspd wdir agefac))
    (map (fun c => replicate (length dir) c) (celerity ext freq dpt)).

(** [part = np.where(watershed_map == ipart + 1, spectrum, 0.0)]. *)
Definition region_part (watershed_map : intarray) (spectrum : ndarray)
  (ipart : nat) : ndarray :=
  np.where_eq watershed_map (Z.of_nat ipart + 1) spectrum.

(** [wsfrac = part[windseamask].sum() / part.sum()]. *)
Definition wsfrac (part : ndarray) (mask : list (list bool)) : f64 :=
  F64.div (np.sum1 (np.bool_index part mask)) (np.sum part).

(** One turn of the loop over [range(nparts)]; the state is
    [(wsea_partition, swell_partitions)]. *)
Definition assign_step (watershed_map : intarray) (spectrum : ndarray)
  (mask : list (list bool)) (wscut : f64)
  (st : ndarray * list ndarray) (ipart : nat) : ndarray * list ndarray :=
  let part := region_part watershed_map spectrum ipart in
  if F64.gtb (wsfrac part mask) wscut
  then (np.add st.1 part, st.2)
  else (st.1, alter (fun s => np.add s part) ipart st.2).

Definition assign_loop (watershed_map : intarray) (spectrum : ndarray)
  (mask : list (list bool)) (wscut : f64) (nparts : nat)
  : ndarray * list ndarray :=
  foldl (assign_step watershed_map spectrum mask wscut)
    (np.zeros_like spectrum, replicate nparts (np.zeros_like spectrum))
    (seq 0 nparts).

(** [Sort swells by Hs]. *)
Definition sort_swells (swell_partitions : list ndarray) (freq dir : list f64)
  : list ndarray :=
  let isort :=
    argsort (map (fun swell => F64.opp (hs ext swell freq dir)) swell_partitions) in
  sorted_zip isort swell_partitions.

(** [Dealing with the number of swells]. *)
Definition reconcile_swells (spectrum : ndarray)
  (swell_partitions : list ndarray) (freq dir : list f64)
  (nparts : Z) (swells : option Z) (combine : bool) : list ndarray :=
  match swells with
  | None => List.filter (fun swell => F64.gtb (np.sum swell) F64.zero) swell_partitions
  | Some swells =>
      if (swells <? nparts) && combine then
        combine_partitions ext swell_partitions freq dir swells
      else if (swells <? nparts) && negb combine then
        slice_to swells swell_partitions
      else if nparts <? swells then
        swell_partitions ++
        replicate (Z.to_nat (swells - Z.of_nat (length swell_partitions)))
          (np.zeros_like spectrum)
      else swell_partitions
  end.

Definition np_ptm1 (spectrum spectrum_smooth : ndarray) (freq dir : list f64)
  (wspd wdir dpt agefac wscut : f64) (swells : option Z) (combine : bool)
  : result (list ndarray) :=
  let watershed_map := partition ext spectrum_smooth in
  nparts ← np.max watershed_map;
  let mask := windseamask freq dir wspd wdir dpt agefac in
  let '(wsea_partition, swell_partitions) :=
    assign_loop watershed_map spectrum mask wscut (Z.to_nat nparts) in
  let swell_partitions := sort_swells swell_partitions freq dir in
  let swell_partitions :=
    reconcile_swells spectrum swell_partitions freq dir nparts swells combine in
  Ok (wsea_partition :: swell_partitions).

(** The reconciliation of [np_ptm3]; it differs from the one of [np_ptm1]
    in leaving the list alone when [parts] is [None]. *)
Definition reconcile_parts (spectrum : ndarray) (partitions : list ndarray)
  (freq dir : list f64) (nparts : Z) (parts : option Z) (combine : bool)
  : list ndarray :=
  match parts with
  | None => partitions
  | Some parts =>
      if (parts <? nparts) && combine then
        combine_partitions ext partitions freq dir parts
      else if (parts <? nparts) && negb combine then
        slice_to parts partitions
      else if nparts <? parts then
        partitions ++
        replicate (Z.to_nat (parts - Z.of_nat (length partitions)))
          (np.zeros_like spectrum)
      else partitions
  end.

Definition np_ptm3 (spectrum spectrum_smooth : ndarray) (freq dir : list f64)
  (parts : option Z) (combine : bool) : result (list ndarray) :=
  let watershed_map := partition ext spectrum_smooth in
  nparts ← np.max watershed_map;
  let partitions :=
    map (region_part watershed_map spectrum) (seq 0 (Z.to_nat nparts)) in
  let hs_partitions := map (fun p => hs ext p freq dir) partitions in
  sorted ← sorted_reverse tuple_lt (zip hs_partitions partitions);
  let partitions := map snd sorted in
  Ok (reconcile_parts spectrum partitions freq dir nparts parts combine).

End Partition.

(** ** specarray.py *)

(** A DataArray of spectra at one point: [Efth] has the dimensions
    (freq, dir), [Ef] is a frequency spectrum without a direction
    dimension. *)
Inductive DataArray :=
  | Efth (freq dir : list f64) (values : ndarray)
  | Ef (freq : list f64) (values : list f64).

Module SpecArray.

(** The accessor: the wrapped array and the two values that are [set when
    property is first called to avoid computing more than once]. *)
Record t := mk {
  _obj : DataArray;
  _df : option (list f64);
  _dd : option f64
}.

(** [__init__]. *)
Definition init (xarray_obj : DataArray) : t :=
  {| _obj := xarray_obj; _df := None; _dd := None |}.

Definition freq (self : t) : list f64 :=
  match _obj self with Efth f _ _ | Ef f _ => f end.

Definition dir (self : t) : option (list f64) :=
  match _obj self with Efth _ d _ => Some d | Ef _ _ => None end.

(** The data of [df] for a frequency coordinate with [len(freq) > 1]. *)
Definition df_trapezoid (freq : list f64) : list f64 :=
  let fact :=
    [F64.one] ++ replicate (length freq - 2)%nat F64.half ++ [F64.one] in
  let ldif := F64.zero :: np.diff freq in
  let rdif := np.diff freq ++ [F64.zero] in
  zip_with F64.mul fact (zip_with F64.add ldif rdif).

(** [df]: frequency resolution.  The DataArray is built on the coordinates
    of [freq], which xarray refuses when the one-element data of the [else]
    branch meets an empty coordinate. *)
Definition df (self : t) : result (list f64 * t) :=
  match _df self with
  | Some d => Ok (d, self)
  | None =>
      if (1 <? length (freq self))%nat then
        let d := df_trapezoid (freq self) in
        Ok (d, mk (_obj self) (Some d) (_dd self))
      else
        match freq self with
        | [] => Raise ValueError
        | _ => let d := [F64.one] in Ok (d, mk (_obj self) (Some d) (_dd self))
        end
  end.

(** [dd]: direction resolution. *)
Definition dd (self : t) : f64 * t :=
  match _dd self with
  | Some d => (d, self)
  | None =>
      let d :=
        match dir self with
        | Some (d0 :: d1 :: _) => F64.abs (F64.sub d1 d0)
        | _ => F64.one
        end in
      (d, mk (_obj self) (_df self) (Some d))
  end.

(** [oned]: the one-dimensional frequency spectrum. *)
Definition oned (self : t) (skipna : bool) : list f64 * t :=
  match _obj self with
  | Efth _ _ values =>
      let '(d, self') := dd self in
      (map (fun row => F64.mul d
              (if skipna then np.nansum1 row else np.sum1 row)) values,
       self')
  | Ef _ values => (values, self)
  end.

(** [_peak]: the index of the largest peak along [freq] of a spectrum
    integrated over the directions.  [fwd] holds the sign of the step from
    the frequency below and [bwd] that of the step to the frequency above,
    each array being lengthened by a copy of its end value; what is no peak
    is set to 0 before the [argmax], which skips NaN. *)
Definition _peak (arr : list f64) : result nat :=
  match arr, last arr with
  | first :: _, Some last_ =>
      let fwd :=
        map (fun d => F64.gtb d F64.zero) (np.diff (first :: arr)) in
      let bwd :=
        map (fun d => F64.ltb d F64.zero) (np.diff (arr ++ [last_])) in
      let ispeak := zip_with andb fwd bwd in
      np.nanargmax
        (zip_with (fun (p : bool) x => if p then x else F64.zero) ispeak arr)
  | _, _ => Raise IndexError
  end.

(** [hs]: spectral significant wave height.  [.sum(dim=...)] of xarray
    skips NaN unless told otherwise. *)
Definition hs (self : t) (tail : bool) : result (f64 * t) :=
  let '(Sf, self) := oned self false in
  '(d, self) ← df self;
  let E := np.nansum1 (zip_with F64.mul Sf d) in
  E ← (if tail then
         match last (freq self), last Sf with
         | Some flast, Some Slast =>
             if F64.gtb flast F64.c0_333
             then Ok (F64.add E (F64.mul (F64.mul F64.quarter Slast) flast))
             else Ok E
         | _, _ => Raise IndexError
         end
       else Ok E);
  Ok (F64.mul F64.four (F64.sqrt E), self).

(** The sum of a two-dimensional array over its frequency axis, one value
    per direction. *)
Definition sum_freq (rows : ndarray) (nd : nat) : list f64 :=
  match rows with
  | [] => replicate nd F64.zero
  | r :: rows' => foldl (zip_with F64.add) r rows'
  end.

Section Momf.
(** [freq ** mom], numpy's power. *)
Variable np_power : f64 -> Z -> f64.

(** [momf]: the frequency moment for each direction (one value for a
    spectrum without directions). *)
Definition momf (self : t) (mom : Z) : result (list f64 * t) :=
  let fp := map (fun f => np_power f mom) (freq self) in
  '(d, self) ← df self;
  let w := zip_with F64.mul d fp in
  match _obj self with
  | Efth _ dir values =>
      Ok (sum_freq (zip_with (fun wi row => map (F64.mul wi) row) w values)
            (length dir), self)
  | Ef _ values => Ok ([np.sum1 (zip_with F64.mul w values)], self)
  end.
End Momf.

End SpecArray.

(** The direction width and the frequency widths of a grid, as
    [SpecArray.dd] and [SpecArray.df] compute them. *)
Definition grid_dd (dir : list f64) : f64 :=
  match dir with
  | d0 :: d1 :: _ => F64.abs (F64.sub d1 d0)
  | _ => F64.one
  end.

Definition grid_df (freq : list f64) : list f64 :=
  if (1 <? length freq)%nat then SpecArray.df_trapezoid freq else [F64.one].

(** Modelled from the spec: [core.npstats.hs], whose source is not among
    the embedded files.  The spec has Hs as 4 times the square root of the zeroth
    spectral moment of a sub-spectrum, integrated with the frequency-bin
    widths (trapezoidal) and the direction-bin width (uniform) of the grid. *)
Definition hs_spec (spectrum : ndarray) (freq dir : list f64) : f64 :=
  let Sf := map (fun row => F64.mul (grid_dd dir) (np.sum1 row)) spectrum in
  F64.mul F64.four (F64.sqrt (np.sum1 (zip_with F64.mul Sf (grid_df freq)))).

(** ** Partition.ptm5 *)

(** The partitioned spectra: the coordinates and one array per value of the
    added [part] dimension. *)
Record PartArray := {
  part_freq : list f64;
  part_dir : list f64;
  part_values : list ndarray
}.

(** [take]: the entries of [l] at the indices [idx]. *)
Definition take_idx {A} (idx : list nat) (l : list A) : list A :=
  omap (fun i => l !! i) idx.

(** [dset.sortby("dir")]; a spectrum without directions has no such
    coordinate. *)
Definition sortby_dir (dset : DataArray) : result DataArray :=
  match dset with
  | Efth f d v =>
      let idx := argsort d in
      Ok (Efth f (take_idx idx d) (map (take_idx idx) v))
  | Ef _ _ => Raise KeyError
  end.

(** [dset.sortby("freq")]. *)
Definition sortby_freq (dset : DataArray) : DataArray :=
  match dset with
  | Efth f d v => let idx := argsort f in Efth (take_idx idx f) d (take_idx idx v)
  | Ef f v => let idx := argsort f in Ef (take_idx idx f) (take_idx idx v)
  end.

(** A Python set of floats, as the list of its members: members are told
    apart by [==], so that a NaN never meets its like. *)
Definition set_add (x : f64) (s : list f64) : list f64 :=
  if existsb (F64.eqb x) s then s else s ++ [x].

Definition py_set (l : list f64) : list f64 :=
  foldl (fun s x => set_add x s) [] l.

(** [a.where(cond)] and [a.fillna(0.)] on one bin. *)
Definition where_ (cond : bool) (x : f64) : f64 := if cond then x else F64.nan.
Definition fillna0 (x : f64) : f64 := if F64.is_nan x then F64.zero else x.

(** [dsout.where(cond(dsout.freq))]: the condition on the frequency
    coordinate is broadcast along the rows. *)
Definition where_freq (cond : f64 -> bool) (freq : list f64) (values : ndarray)
  : ndarray :=
  zip_with (fun f row => map (where_ (cond f)) row) freq values.

(** The frequency coordinate of a DataArray. *)
Definition dset_freq (dset : DataArray) : list f64 :=
  match dset with Efth f _ _ | Ef f _ => f end.

Section Ptm5.
(** [core.utils.regrid_spec(dset, freq=freqs)], another collaborator. *)
Variable regrid_spec : DataArray -> list f64 -> DataArray.

Definition ptm5 (dset : DataArray) (fcut : f64) (interpolate : bool)
  : result PartArray :=
  dsout ← sortby_dir dset;
  let dsout := sortby_freq dsout in
  let dsout :=
    if interpolate then
      let freqs := sort_by F64.ltb (set_add fcut (py_set (dset_freq dset))) in
      if (length (dset_freq dset) <? length freqs)%nat
      then regrid_spec dset freqs
      else dsout
    else dsout in
  match dsout with
  | Efth freq dir values =>
      let hf := where_freq (fun f => F64.geb f fcut) freq values in
      let lf := where_freq (fun f => F64.leb f fcut) freq values in
      Ok {| part_freq := freq; part_dir := dir;
            part_values := map (map (map fillna0)) [hf; lf] |}
  | Ef _ _ => Raise KeyError
  end.
End Ptm5.

(** ** Partition.ptm4 *)

(** [a.where(cond)] for a condition of the shape of [a]. *)
Definition where_mask (cond : list (list bool)) (values : ndarray) : ndarray :=
  zip_with (zip_with where_) cond values.

Section Ptm4.
Variable ext : collaborators.

(** [wave_celerity <= wind_speed_component]: xarray broadcasts the
    celerity along [freq] against the wind component along [dir]. *)
Definition wam_mask (wave_celerity wind_speed_component : list f64)
  : list (list bool) :=
  map (fun c => map (F64.leb c) wind_speed_component) wave_celerity.

(** [ptm4] for a wind speed, a wind direction and a depth without
    dimensions of their own. *)
Definition ptm4 (dset : DataArray) (wspd wdir dpt agefac : f64)
  : result PartArray :=
  dsout ← sortby_dir dset;
  match sortby_freq dsout with
  | Efth freq dir values =>
      let wind_speed_component :=
        map (wind_component ext wspd wdir agefac) dir in
      let wave_celerity := celerity ext freq dpt in
      let windseamask := wam_mask wave_celerity wind_speed_component in
      let sea := where_mask windseamask values in
      let swell := where_mask (map (map negb) windseamask) values in
      Ok {| part_freq := freq; part_dir := dir;
            part_values := map (map (map fillna0)) [sea; swell] |}
  | Ef _ _ => Raise KeyError
  end.
End Ptm4.

(** The zeroth spectral moment in the words of the glossary: the energy
    density integrated over direction (width [dd]) and over frequency
    (widths [df]). *)
Definition zeroth_moment (self : SpecArray.t) : result f64 :=
  '(d, _) ← SpecArray.df self;
  Ok (np.nansum1 (zip_with F64.mul (SpecArray.oned self false).1 d)).

(** * Vocabulary of the properties *)

(** The bin [(i, j)] of a two-dimensional array, if it has one. *)
Definition bin {A} (a : list (list A)) (i j : nat) : option A :=
  row ← a !! i; row !! j.

(** ** The outcome of the assignment loop, region by region *)

(** Whether the loop of [np_ptm1] sends region [ipart + 1] to the wind sea:
    the test [wsfrac > wscut]. *)
Definition is_windsea (watershed_map : intarray) (spectrum : ndarray)
  (mask : list (list bool)) (wscut : f64) (ipart : nat) : bool :=
  F64.gtb (wsfrac (region_part watershed_map spectrum ipart) mask) wscut.

(** The entry of [swell_partitions] for region [ipart + 1] once the loop
    has run: untouched zeros for a wind sea region, the zeros plus the
    region's part for a swell. *)
Definition swell_slot (watershed_map : intarray) (spectrum : ndarray)
  (mask : list (list bool)) (wscut : f64) (ipart : nat) : ndarray :=
  if is_windsea watershed_map spectrum mask wscut ipart
  then np.zeros_like spectrum
  else np.add (np.zeros_like spectrum) (region_part watershed_map spectrum ipart).

(** How many entries of a list pass a test. *)
Fixpoint count {A} (p : A -> bool) (l : list A) : nat :=
  match l with
  | [] => 0
  | x :: l' => (if p x then 1 else 0) + count p l'
  end.

(** A swell partition with positive total energy, [swell.sum() > 0]. *)
Definition positive_energy (swell : ndarray) : bool :=
  F64.gtb (np.sum swell) F64.zero.

(** The state of [np_ptm1] after its loop and its ranked swell list, for
    a region count [nparts]. *)
Definition ptm1_loop (ext : collaborators) (spectrum spectrum_smooth : ndarray)
  (freq dir : list f64) (wspd wdir dpt agefac wscut : f64) (nparts : Z)
  : ndarray * list ndarray :=
  assign_loop (partition ext spectrum_smooth) spectrum
    (windseamask ext freq dir wspd wdir dpt agefac) wscut (Z.to_nat nparts).

Definition ptm1_ranked (ext : collaborators) (spectrum spectrum_smooth : ndarray)
  (freq dir : list f64) (wspd wdir dpt agefac wscut : f64) (nparts : Z)
  : list ndarray :=
  sort_swells ext
    (ptm1_loop ext spectrum spectrum_smooth freq dir wspd wdir dpt agefac wscut
       nparts).2 freq dir.

(** ** Energy conservation, bin for bin *)

(** The value of a partition at a bin (0.0 where it has no such bin) and the
    sum of the partitions at a bin, along the partition axis. *)
Definition bin0 (a : ndarray) (i j : nat) : f64 :=
  default F64.zero (bin a i j).

Definition bin_sum (parts : list ndarray) (i j : nat) : f64 :=
  np.sum1 (map (fun p => bin0 p i j) parts).

(** The region map labels every bin of the spectrum, and the bins that it
    leaves outside every region (label below 1) hold no energy. *)
Definition covers (watershed_map : intarray) (spectrum : ndarray) : Prop :=
  forall i j x, bin spectrum i j = Some x ->
    exists label, bin watershed_map i j = Some label /\
      (label < 1 -> F64.is_zero x = true).

(** The partitions [out] have the bins of the spectrum and sum to it, in the
    equality [==] of floats, at every bin that is not NaN. *)
Definition conserves (spectrum : ndarray) (out : list ndarray) : Prop :=
  forall i j x, bin spectrum i j = Some x ->
    Forall (fun p => is_Some (bin p i j)) out /\
    (F64.is_nan x = false -> F64.eqb (bin_sum out i j) x = true).

(** What the values of the partitions at one bin look like when they
    conserve the value [x] of the spectrum there. *)
Definition one_share (x : f64) (vals : list f64) : Prop :=
  (Forall (fun v => v = F64.zero) vals /\ F64.is_zero x = true) \/
  (exists y zs, vals ≡ₚ y :: zs /\ Forall (fun v => v = F64.zero) zs /\
     (y = x \/ y = F64.add F64.zero x)).

(** Consecutive entries of a list are related by [R]. *)
Inductive chain {A} (R : A -> A -> Prop) : list A -> Prop :=
  | chain_nil : chain R []
  | chain_one x : chain R [x]
  | chain_cons x y l : R x y -> chain R (y :: l) -> chain R (x :: y :: l).

(** In the ascending order of the tuple sort, a later key is not below an
    earlier one. *)
Definition key_le (u v : f64 * ndarray) : Prop := F64.ltb v.1 u.1 = false.

(** ** The order of the floats *)

(** The place of a float on a line of integer triples, compared from the
    left: the class (-2 for -inf, -1 for negative, 0 for the zeros, 1 for
    positive, 2 for +inf), then exponent and mantissa, both negated for a
    negative float. *)
Definition order_key (x : f64) : Z * Z * Z :=
  match x with
  | S754_nan => (0, 0, 0)
  | S754_zero _ => (0, 0, 0)
  | S754_infinity true => (-2, 0, 0)
  | S754_infinity false => (2, 0, 0)
  | S754_finite true m e => (-1, - e, Z.neg m)
  | S754_finite false m e => (1, e, Z.pos m)
  end.

Definition key_lt (a b : Z * Z * Z) : Prop :=
  a.1.1 < b.1.1 \/
  (a.1.1 = b.1.1 /\ (a.1.2 < b.1.2 \/ (a.1.2 = b.1.2 /\ a.2 < b.2))).

(** Two entries of a list of keys are equal in the sense of [==]. *)
Fixpoint has_tie (keys : list f64) : Prop :=
  match keys with
  | [] => False
  | k :: keys' => (exists k', k' ∈ keys' /\ F64.eqb k k' = true) \/ has_tie keys'
  end.

(** The number of bins of an array, [a.size]. *)
Definition nbins {A} (a : list (list A)) : nat := length (concat a).

(** The shape of an array as the lengths of its rows, [a.shape] for a
    rectangular one. *)
Definition shape {A} (a : list (list A)) : list nat := map length a.

(** A coordinate in the order numpy sorts it to: no entry comes before its
    predecessor, NaN last. *)
Definition ascending (l : list f64) : Prop :=
  Sorted (fun a b => np.lt b a = false) l.

(** The cached widths of an accessor are those that a fresh accessor on
    the same array computes. *)
Definition cache_ok (self : SpecArray.t) : Prop :=
  (forall d, SpecArray._df self = Some d ->
     exists s, SpecArray.df (SpecArray.init (SpecArray._obj self)) = Ok (d, s)) /\
  (forall d, SpecArray._dd self = Some d ->
     (SpecArray.dd (SpecArray.init (SpecArray._obj self))).1 = d).

(** A spectrum that is masked: each of its frequencies has a NaN bin. *)
Definition masked (values : ndarray) : Prop :=
  Forall (fun row => exists x, x ∈ row /\ F64.is_nan x = true) values.

(** The criterion of [_peak] at index [k]: the step from the frequency
    below is positive and the step to the frequency above is negative. *)
Definition is_peak (arr : list f64) (k : nat) : bool :=
  match k with
  | O => false
  | S j =>
      match arr !! j, arr !! k, arr !! S k with
      | Some a, Some b, Some c =>
          F64.gtb (F64.sub b a) F64.zero && F64.ltb (F64.sub c b) F64.zero
      | _, _, _ => false
      end
  end.

(** * Worked examples *)

(** Three wave systems along nine frequencies and one direction, separated
    by empty bins: a sharp peak of 9, a broader system peaking at 6 and a
    third one peaking at 4.  Their energies are 9, 16 and 10, so that the
    regions numbered by decreasing peak have the Hs order low, high, mid. *)
Definition three_systems : ndarray :=
  map (fun z => [F64.of_Z z]) [9; 0; 5; 6; 5; 0; 3; 4; 3].

Definition three_regions : intarray :=
  map (fun z => [z]) [1; 0; 2; 2; 2; 0; 3; 3; 3].

(** 0.05 Hz to 0.45 Hz in steps of 0.05 Hz, and the single direction 0. *)
Definition example_freq : list f64 :=
  map (fun z => F64.dec z 100) [5; 10; 15; 20; 25; 30; 35; 40; 45].

Definition example_dir : list f64 := [F64.zero].

(** Stand-ins for the collaborators on the example: the region map above,
    the deep-water celerity of the design document ([g / (4 pi f)], with
    [g / (4 pi)] taken as 0.78), the cosine at 0 (the examples blow no wind
    and take the wind direction equal to the single wave direction),
    [pi / 180], the Hs modelled from the spec and a combination that folds
    the partitions beyond the first [swells] into the leading one. *)
Definition example_ext : collaborators := {|
  partition := fun _ => three_regions;
  celerity := fun freq _ => map (fun f => F64.div (F64.dec 78 100) f) freq;
  np_cos := fun x => if F64.is_zero x then F64.one else F64.nan;
  D2R := S754_finite false 5030569068109113 (-58);
  hs := hs_spec;
  combine_partitions := fun partitions _ _ swells =>
    match take (Z.to_nat swells) partitions with
    | [] => []
    | p :: keep => foldl np.add p (drop (Z.to_nat swells) partitions) :: keep
    end
|}.

(** [np_ptm1] and [np_ptm3] on the example, without wind. *)
Definition example_ptm1 (swells : option Z) (combine : bool)
  : result (list ndarray) :=
  np_ptm1 example_ext three_systems three_systems example_freq example_dir
    F64.zero F64.zero (F64.of_Z 100) (F64.dec 17 10) (F64.dec 3333 10000)
    swells combine.

Definition example_ptm3 (parts : option Z) (combine : bool)
  : result (list ndarray) :=
  np_ptm3 example_ext three_systems three_systems example_freq example_dir
    parts combine.

(** A region map with a second region where the spectrum holds no energy. *)
Definition null_region_map : intarray := [[1]; [2]].
Definition null_region_spectrum : ndarray := [[F64.of_Z 5]; [F64.zero]].

(** Two frequencies, 0.1 Hz and 0.2 Hz, one direction, densities 1 and 2;
    and a [regrid_spec] that is never reached when the cut-off is one of the
    frequencies. *)
Definition two_frequencies : DataArray :=
  Efth [F64.dec 1 10; F64.dec 2 10] [F64.zero] [[F64.of_Z 1]; [F64.of_Z 2]].

Definition no_regrid (dset : DataArray) (freqs : list f64) : DataArray := dset.

(** A spectrum without directions at the single frequency 0.5 Hz with unit
    energy density. *)
Definition half_hertz : DataArray := Ef [F64.half] [F64.one].

(** Two regions on a spectrum without energy: both have an Hs of 0. *)
Definition two_null_regions : collaborators := {|
  partition := fun _ => [[1; 2]];
  celerity := celerity example_ext;
  np_cos := np_cos example_ext;
  D2R := D2R example_ext;
  hs := hs_spec;
  combine_partitions := combine_partitions example_ext
|}.

Definition flat_calm : ndarray := [[F64.zero; F64.zero]].

(** The three systems with the frequencies in reverse: the sharp peak of 9
    is now at 0.45 Hz, where a wind of 1.2 m/s outruns the waves, and the
    watershed numbers it first. *)
Definition young_sea : ndarray :=
  map (fun z => [F64.of_Z z]) [3; 4; 3; 0; 5; 6; 5; 0; 9].

Definition young_sea_regions : intarray :=
  map (fun z => [z]) [3; 3; 3; 0; 2; 2; 2; 0; 1].

Definition young_sea_ext : collaborators := {|
  partition := fun _ => young_sea_regions;
  celerity := celerity example_ext;
  np_cos := np_cos example_ext;
  D2R := D2R example_ext;
  hs := hs_spec;
  combine_partitions := combine_partitions example_ext
|}.

(** [np_ptm1] on it, with a wind of 1.2 m/s from direction 0. *)
Definition young_sea_ptm1 (swells : option Z) : result (list ndarray) :=
  np_ptm1 young_sea_ext young_sea young_sea example_freq example_dir
    (F64.dec 12 10) F64.zero (F64.of_Z 100) (F64.dec 17 10)
    (F64.dec 3333 10000) swells false.

Arguments swell_slot : simpl never.
Arguments is_windsea : simpl never.
Arguments region_part : simpl never.
Arguments reconcile_swells : simpl never.
Arguments reconcile_parts : simpl never.

(** * Properties *)

(** ** SpecArray: grid metrics and Hs *)

Lemma dd_obj (self : SpecArray.t) :
  SpecArray._obj (SpecArray.dd self).2 = SpecArray._obj self.
Proof. unfold SpecArray.dd. destruct (SpecArray._dd self); reflexivity. Qed.

Lemma oned_obj (self : SpecArray.t) (skipna : bool) :
  SpecArray._obj (SpecArray.oned self skipna).2 = SpecArray._obj self.
Proof.
  unfold SpecArray.oned.
  destruct (SpecArray._obj self) eqn:E; [|exact E].
  pose proof (dd_obj self) as H. destruct (SpecArray.dd self); simpl in *.
  by rewrite H.
Qed.

Lemma oned_df (self : SpecArray.t) (skipna : bool) :
  SpecArray._df (SpecArray.oned self skipna).2 = SpecArray._df self.
Proof.
  unfold SpecArray.oned, SpecArray.dd.
  destruct (SpecArray._obj self); [|done].
  by destruct (SpecArray._dd self).
Qed.

(** [df] depends on the accessor through its frequencies and its cache
    only, and [oned] touches neither. *)
Lemma df_after_oned (self : SpecArray.t) (skipna : bool) :
  match SpecArray.df (SpecArray.oned self skipna).2, SpecArray.df self with
  | Ok (d, _), Ok (d', _) => d = d'
  | Raise e, Raise e' => e = e'
  | _, _ => False
  end.
Proof.
  unfold SpecArray.df, SpecArray.freq.
  rewrite oned_df, oned_obj.
  destruct (SpecArray._df self); [done|].
  destruct (_ <? _)%nat; [done|].
  by destruct (match SpecArray._obj self with Efth f _ _ | Ef f _ => f end).
Qed.

(** C8, as the code has it: [hs] is 4 times the square root of the zeroth
    moment when [tail] is off or the last frequency does not exceed 0.333;
    with [tail] on and a last frequency above 0.333 the term
    [0.25 * Sf[-1] * freq[-1]] of the high-frequency tail is added to the
    moment under the root. *)
Theorem hs_zeroth_moment_tail (obj : DataArray) (tail : bool) (v : f64)
  (self' : SpecArray.t) :
  SpecArray.hs (SpecArray.init obj) tail = Ok (v, self') ->
  exists m0, zeroth_moment (SpecArray.init obj) = Ok m0 /\
    let Sf := (SpecArray.oned (SpecArray.init obj) false).1 in
    match tail, last (SpecArray.freq (SpecArray.init obj)), last Sf with
    | false, _, _ => v = F64.mul F64.four (F64.sqrt m0)
    | true, Some flast, Some Slast =>
        v = F64.mul F64.four (F64.sqrt
              (if F64.gtb flast F64.c0_333
               then F64.add m0 (F64.mul (F64.mul F64.quarter Slast) flast)
               else m0))
    | true, _, _ => False
    end.
Proof.
  unfold SpecArray.hs, zeroth_moment.
  pose proof (df_after_oned (SpecArray.init obj) false) as Hdf.
  pose proof (oned_obj (SpecArray.init obj) false) as Hobj.
  destruct (SpecArray.oned (SpecArray.init obj) false) as [Sf s1]; simpl in *.
  destruct (SpecArray.df s1) as [[d s2]|e] eqn:E1;
    destruct (SpecArray.df (SpecArray.init obj)) as [[d' s3]|e'] eqn:E2;
    try done; simpl.
  subst d'. intros H. eexists; split; [reflexivity|].
  assert (SpecArray.freq s2 = SpecArray.freq (SpecArray.init obj)) as Hf.
  { unfold SpecArray.freq. rewrite <- Hobj. clear -E1.
    unfold SpecArray.df in E1. destruct (SpecArray._df s1); [by inversion E1|].
    destruct (_ <? _)%nat; [by inversion E1|].
    destruct (SpecArray.freq s1); [done|by inversion E1]. }
  rewrite Hf in H.
  destruct tail; simpl in H; [|by inversion H].
  destruct (last (SpecArray.freq (SpecArray.init obj))) as [fl|]; [|done].
  destruct (last Sf) as [sl|]; [|done].
  destruct (F64.gtb fl F64.c0_333); simpl in H; by inversion H.
Qed.

Lemma hs_zeroth_moment_tail_witness :
  exists v self', SpecArray.hs (SpecArray.init half_hertz) true = Ok (v, self') /\
    exists m0, zeroth_moment (SpecArray.init half_hertz) = Ok m0 /\
      v = F64.mul F64.four (F64.sqrt
            (F64.add m0 (F64.mul (F64.mul F64.quarter F64.one) F64.half))).
Proof.
  eexists _, _. split; [reflexivity|].
  destruct (hs_zeroth_moment_tail half_hertz true _ _ eq_refl) as [m0 [H1 H2]].
  exists m0. split; [exact H1|exact H2].
Defined.

(** C8, as stated, fails: with the default [tail=True] and a last frequency
    of 0.5 Hz, [hs] is [4 * sqrt(1.125)] while the zeroth moment is 1. *)
Lemma hs_not_plain_zeroth_moment :
  zeroth_moment (SpecArray.init half_hertz) = Ok F64.one /\
  exists v self', SpecArray.hs (SpecArray.init half_hertz) true = Ok (v, self') /\
    F64.eqb v (F64.mul F64.four (F64.sqrt F64.one)) = false /\
    v = F64.mul F64.four (F64.sqrt (F64.dec 9 8)).
Proof. split; [reflexivity|]. eexists _, _. repeat split. Qed.

(** C10: on a frequency coordinate of size 1, [df] is the one-element array
    [1.0], on the first call and from the cache afterwards, so the
    frequency integrations weigh the single bin by 1.0: the energy under
    the root of [hs] is [Sf[0] * 1.0], and [momf] gives
    [(1.0 * f ** mom) * S] in each direction. *)
Theorem df_single_frequency (obj : DataArray) (f : f64) :
  SpecArray.freq (SpecArray.init obj) = [f] ->
  let self' := SpecArray.mk obj (Some [F64.one]) None in
  SpecArray.df (SpecArray.init obj) = Ok ([F64.one], self') /\
  SpecArray.df self' = Ok ([F64.one], self') /\
  (forall dir row,
     obj = Efth [f] dir [row] ->
     let Sf0 := F64.mul (SpecArray.dd (SpecArray.init obj)).1 (np.sum1 row) in
     (exists s, SpecArray.hs (SpecArray.init obj) false =
        Ok (F64.mul F64.four (F64.sqrt (np.nansum1 [F64.mul Sf0 F64.one])), s)) /\
     (forall np_power mom, exists s,
        SpecArray.momf np_power (SpecArray.init obj) mom =
        Ok (map (F64.mul (F64.mul F64.one (np_power f mom))) row, s))) /\
  (forall S0,
     obj = Ef [f] [S0] ->
     exists s, SpecArray.hs (SpecArray.init obj) false =
       Ok (F64.mul F64.four (F64.sqrt (np.nansum1 [F64.mul S0 F64.one])), s)).
Proof.
  intros Hf self'. split; [|split; [|split]].
  - unfold SpecArray.df. simpl. rewrite Hf. reflexivity.
  - reflexivity.
  - intros dir row ->. split; [|intros np_power mom]; eexists; reflexivity.
  - intros S0 ->. eexists; reflexivity.
Qed.

Lemma df_single_frequency_witness :
  SpecArray.df (SpecArray.init half_hertz) =
  Ok ([F64.one], SpecArray.mk half_hertz (Some [F64.one]) None).
Proof. exact (proj1 (df_single_frequency half_hertz F64.half eq_refl)). Defined.

(** ** The sorts rearrange, they neither drop nor duplicate *)

Section SortPerm.
Context {A : Type}.

Lemma insert_by_perm (lt : A -> A -> bool) (x : A) (l : list A) :
  insert_by lt x l ≡ₚ x :: l.
Proof.
  induction l as [|y l IH]; simpl; [done|].
  destruct (lt y x); [|done].
  rewrite IH. apply Permutation_swap.
Qed.

Lemma sort_by_perm (lt : A -> A -> bool) (l : list A) : sort_by lt l ≡ₚ l.
Proof.
  induction l as [|x l IH]; simpl; [done|].
  unfold sort_by in IH. by rewrite insert_by_perm, IH.
Qed.

Lemma insertM_perm (lt : A -> A -> result bool) (x : A) (l r : list A) :
  insertM lt x l = Ok r -> r ≡ₚ x :: l.
Proof.
  revert r. induction l as [|y l IH]; simpl; intros r H.
  - by inversion H.
  - destruct (lt y x) as [[]|]; simpl in H; try discriminate.
    + destruct (insertM lt x l) as [r'|]; simpl in H; [|discriminate].
      inversion H; subst. rewrite (IH r' eq_refl). apply Permutation_swap.
    + by inversion H.
Qed.

Lemma sortM_perm (lt : A -> A -> result bool) (l r : list A) :
  sortM lt l = Ok r -> r ≡ₚ l.
Proof.
  revert r. induction l as [|x l IH]; simpl; intros r H.
  - by inversion H.
  - destruct (sortM lt l) as [s|]; simpl in H; [|discriminate].
    rewrite (insertM_perm _ _ _ _ H). by rewrite (IH s eq_refl).
Qed.

Lemma sorted_reverse_perm (lt : A -> A -> result bool) (l r : list A) :
  sorted_reverse lt l = Ok r -> r ≡ₚ l.
Proof.
  unfold sorted_reverse. intros H.
  destruct (sortM lt (rev l)) as [s|] eqn:E; simpl in H; [|discriminate].
  inversion H; subst. apply sortM_perm in E.
  rewrite <- (Permutation_rev s), E. symmetry. apply Permutation_rev.
Qed.
End SortPerm.

Lemma argsort_length (keys : list f64) : length (argsort keys) = length keys.
Proof.
  unfold argsort. rewrite length_map.
  rewrite (Permutation_length (sort_by_perm _ _)).
  rewrite length_zip, length_seq. lia.
Qed.

(** The indices of an [argsort] are those of the keys, each once: the tuples
    of [sorted_zip] never tie on their first component. *)
Lemma argsort_perm (keys : list f64) : argsort keys ≡ₚ seq 0 (length keys).
Proof.
  unfold argsort. rewrite (sort_by_perm _ (zip keys (seq 0 (length keys)))).
  rewrite snd_zip; [done|]. rewrite length_seq. lia.
Qed.

Lemma sorted_zip_perm (isort : list nat) (parts : list ndarray) :
  length isort = length parts -> sorted_zip isort parts ≡ₚ parts.
Proof.
  intros Hlen. unfold sorted_zip.
  rewrite (sort_by_perm _ (zip isort parts)).
  rewrite snd_zip; [done|lia].
Qed.

Lemma sort_swells_perm (ext : collaborators) (swell_partitions : list ndarray)
  (freq dir : list f64) :
  sort_swells ext swell_partitions freq dir ≡ₚ swell_partitions.
Proof.
  unfold sort_swells. apply sorted_zip_perm.
  by rewrite argsort_length, length_map.
Qed.

(** ** The assignment loop of np_ptm1 *)

Section Loop.
Variables (wm : intarray) (spectrum : ndarray) (mask : list (list bool)).
Variable wscut : f64.

Let zeros := np.zeros_like spectrum.
Let part := region_part wm spectrum.
Let windsea := is_windsea wm spectrum mask wscut.
Let slot := swell_slot wm spectrum mask wscut.

Lemma assign_prefix (n k : nat) :
  (k <= n)%nat ->
  foldl (assign_step wm spectrum mask wscut) (zeros, replicate n zeros) (seq 0 k) =
  (foldl np.add zeros (map part (List.filter windsea (seq 0 k))),
   map slot (seq 0 k) ++ replicate (n - k) zeros).
Proof.
  induction k as [|k IH]; intros Hk.
  - simpl. by rewrite Nat.sub_0_r.
  - rewrite seq_S, foldl_app, IH by lia. simpl.
    rewrite List.filter_app, !map_app. simpl.
    unfold assign_step at 1. simpl.
    fold (is_windsea wm spectrum mask wscut k). fold windsea.
    replace (n - k)%nat with (S (n - S k)) by lia. simpl.
    destruct (windsea k) eqn:E; simpl.
    + rewrite foldl_app. simpl. f_equal.
      rewrite <- app_assoc. simpl. do 2 f_equal.
      unfold slot, swell_slot. fold windsea. by rewrite E.
    + rewrite app_nil_r. f_equal.
      rewrite <- app_assoc. simpl.
      replace k with (length (map slot (seq 0 k)) + 0)%nat at 1
        by (rewrite length_map, length_seq; lia).
      rewrite alter_app_r. simpl. do 2 f_equal.
      unfold slot, swell_slot. fold windsea. by rewrite E.
Qed.

Lemma assign_loop_closed (n : nat) :
  assign_loop wm spectrum mask wscut n =
  (foldl np.add zeros (map part (List.filter windsea (seq 0 n))),
   map slot (seq 0 n)).
Proof.
  unfold assign_loop. fold zeros. rewrite assign_prefix by lia.
  by rewrite Nat.sub_diag, app_nil_r.
Qed.

Lemma assign_loop_length (n : nat) :
  length (assign_loop wm spectrum mask wscut n).2 = n.
Proof. rewrite assign_loop_closed. simpl. by rewrite length_map, length_seq. Qed.
End Loop.

(** ** np_ptm1 and np_ptm3 as a whole *)

Lemma np_ptm1_unfold (ext : collaborators) (spectrum spectrum_smooth : ndarray)
  (freq dir : list f64) (wspd wdir dpt agefac wscut : f64)
  (swells : option Z) (combine : bool) :
  np_ptm1 ext spectrum spectrum_smooth freq dir wspd wdir dpt agefac wscut
    swells combine =
  nparts ← np.max (partition ext spectrum_smooth);
  Ok ((ptm1_loop ext spectrum spectrum_smooth freq dir wspd wdir dpt agefac
         wscut nparts).1 ::
      reconcile_swells ext spectrum
        (ptm1_ranked ext spectrum spectrum_smooth freq dir wspd wdir dpt agefac
           wscut nparts) freq dir nparts swells combine).
Proof.
  unfold np_ptm1, ptm1_ranked, ptm1_loop.
  destruct (np.max (partition ext spectrum_smooth)) as [nparts|]; simpl; [|done].
  by destruct (assign_loop _ _ _ _ _).
Qed.

Lemma ptm1_ranked_length (ext : collaborators) (spectrum spectrum_smooth : ndarray)
  (freq dir : list f64) (wspd wdir dpt agefac wscut : f64) (nparts : Z) :
  length (ptm1_ranked ext spectrum spectrum_smooth freq dir wspd wdir dpt agefac
            wscut nparts) = Z.to_nat nparts.
Proof.
  unfold ptm1_ranked, ptm1_loop.
  rewrite (Permutation_length (sort_swells_perm _ _ _ _)).
  apply assign_loop_length.
Qed.

Lemma zip_with_replicate_same {A B C} (f : A -> B -> C) (l : list A) (c : B) :
  zip_with f l (replicate (length l) c) = map (fun u => f u c) l.
Proof. induction l as [|x l IH]; simpl; [done|by rewrite IH]. Qed.

Lemma windseamask_bins (ext : collaborators) (freq dir : list f64)
  (wspd wdir dpt agefac : f64) :
  windseamask ext freq dir wspd wdir dpt agefac =
  zip_with (fun _ c =>
              map (fun d => F64.gtb (wind_component ext wspd wdir agefac d) c) dir)
    freq (celerity ext freq dpt).
Proof.
  unfold windseamask.
  generalize (celerity ext freq dpt) as cel.
  induction freq as [|f freq IH]; intros [|c cel]; simpl; try done.
  rewrite IH. f_equal.
  replace (length dir) with (length (up_row ext dir wspd wdir agefac))
    by apply length_map.
  rewrite zip_with_replicate_same. unfold up_row. by rewrite map_map.
Qed.


Lemma filter_length_count {A} (p : A -> bool) (l : list A) :
  length (List.filter p l) = count p l.
Proof.
  induction l as [|x l IH]; simpl; [done|].
  destruct (p x); simpl; by rewrite IH.
Qed.

Lemma filter_all_pass {A} (p : A -> bool) (l : list A) :
  Forall (fun x => p x = true) (List.filter p l).
Proof.
  induction l as [|x l IH]; simpl; [constructor|].
  destruct (p x) eqn:E; [by constructor|done].
Qed.

(** C9: with [swells=None] the swell partitions whose total energy is not
    positive are removed, and what [np_ptm1] returns is the wind sea
    partition followed by the others in their ranked order: 1 + (number of
    ranked swell partitions with positive total energy) arrays. *)
Theorem ptm1_default_drops_null_swells (ext : collaborators)
  (spectrum spectrum_smooth : ndarray) (freq dir : list f64)
  (wspd wdir dpt agefac wscut : f64) (combine : bool) (out : list ndarray) :
  np_ptm1 ext spectrum spectrum_smooth freq dir wspd wdir dpt agefac wscut
    None combine = Ok out ->
  exists nparts, np.max (partition ext spectrum_smooth) = Ok nparts /\
    let wsea := (ptm1_loop ext spectrum spectrum_smooth freq dir wspd wdir dpt
                   agefac wscut nparts).1 in
    let ranked := ptm1_ranked ext spectrum spectrum_smooth freq dir wspd wdir
                    dpt agefac wscut nparts in
    out = wsea :: List.filter positive_energy ranked /\
    length out = (1 + count positive_energy ranked)%nat /\
    Forall (fun swell => positive_energy swell = true) (tail out).
Proof.
  rewrite np_ptm1_unfold. intros H.
  destruct (np.max (partition ext spectrum_smooth)) as [nparts|]; [|done].
  exists nparts. split; [done|]. simpl in H. injection H as <-.
  split; [done|]. simpl. split.
  - f_equal. apply filter_length_count.
  - apply filter_all_pass.
Qed.

Lemma ptm1_default_drops_null_swells_witness :
  exists out, example_ptm1 None false = Ok out /\ length out = 4%nat.
Proof.
  destruct (example_ptm1 None false) as [out|] eqn:E; [|by vm_compute in E].
  exists out. split; [done|].
  destruct (ptm1_default_drops_null_swells _ _ _ _ _ _ _ _ _ _ _ _ E)
    as (nparts & Hmax & _ & Hlen & _).
  rewrite Hlen. vm_compute in Hmax. inversion Hmax. by vm_compute.
Defined.

(** The reconciliation with a count that is not negative leaves exactly
    that many partitions, provided the combination does. *)
Lemma reconcile_swells_length (ext : collaborators) (spectrum : ndarray)
  (ranked : list ndarray) (freq dir : list f64) (nparts swells : Z)
  (combine : bool) :
  0 <= swells ->
  length ranked = Z.to_nat nparts ->
  (combine = true -> forall partitions f d n,
     0 <= n < Z.of_nat (length partitions) ->
     length (combine_partitions ext partitions f d n) = Z.to_nat n) ->
  length (reconcile_swells ext spectrum ranked freq dir nparts (Some swells)
            combine) = Z.to_nat swells.
Proof.
  intros Hs Hlen Hcomb. unfold reconcile_swells.
  destruct (swells <? nparts) eqn:E1; simpl.
  - apply Z.ltb_lt in E1. destruct combine; simpl.
    + apply Hcomb; [done|]. lia.
    + unfold slice_to. destruct (swells <? 0) eqn:E2; [lia|].
      rewrite length_take. lia.
  - apply Z.ltb_ge in E1.
    destruct (nparts <? swells) eqn:E2.
    + rewrite length_app, length_replicate. lia.
    + apply Z.ltb_ge in E2. lia.
Qed.

(** X21: for [swells >= 0], [np_ptm1] returns [swells + 1] partitions; the
    first is the wind sea partition of the loop, and when the watershed has
    fewer regions than [swells] (the swell list has one entry per region,
    wind sea regions included) the slots after them are zero arrays of the
    shape of the spectrum.  The length after a combination is that of
    [combine_partitions], which the design document has stop at exactly
    [swells] partitions. *)
Theorem ptm1_fixed_length (ext : collaborators)
  (spectrum spectrum_smooth : ndarray) (freq dir : list f64)
  (wspd wdir dpt agefac wscut : f64) (swells : Z) (combine : bool)
  (out : list ndarray) :
  0 <= swells ->
  (combine = true -> forall partitions f d n,
     0 <= n < Z.of_nat (length partitions) ->
     length (combine_partitions ext partitions f d n) = Z.to_nat n) ->
  np_ptm1 ext spectrum spectrum_smooth freq dir wspd wdir dpt agefac wscut
    (Some swells) combine = Ok out ->
  exists nparts, np.max (partition ext spectrum_smooth) = Ok nparts /\
    length out = Z.to_nat (swells + 1) /\
    head out = Some (ptm1_loop ext spectrum spectrum_smooth freq dir wspd wdir
                       dpt agefac wscut nparts).1 /\
    (nparts < swells ->
     drop (1 + Z.to_nat nparts) out =
     replicate (Z.to_nat swells - Z.to_nat nparts) (np.zeros_like spectrum)).
Proof.
  intros Hs Hcomb. rewrite np_ptm1_unfold. intros H.
  destruct (np.max (partition ext spectrum_smooth)) as [nparts|]; [|done].
  exists nparts. split; [done|]. simpl in H. injection H as <-.
  pose proof (ptm1_ranked_length ext spectrum spectrum_smooth freq dir wspd
                wdir dpt agefac wscut nparts) as Hlen.
  split; [|split; [done|]].
  - rewrite length_cons, reconcile_swells_length by done. lia.
  - intros Hlt. simpl. unfold reconcile_swells.
    replace (swells <? nparts) with false by (symmetry; apply Z.ltb_ge; lia).
    simpl. replace (nparts <? swells) with true by (symmetry; by apply Z.ltb_lt).
    rewrite drop_app_length'; [|done].
    f_equal. rewrite Hlen. lia.
Qed.

Lemma example_combine_length (partitions : list ndarray) (f d : list f64) (n : Z) :
  0 <= n < Z.of_nat (length partitions) ->
  length (combine_partitions example_ext partitions f d n) = Z.to_nat n.
Proof.
  intros Hn. simpl.
  pose proof (length_take partitions (Z.to_nat n)) as Hlen.
  destruct (take (Z.to_nat n) partitions); simpl in *; lia.
Qed.

Lemma ptm1_fixed_length_witness :
  exists out, example_ptm1 (Some 5) false = Ok out /\ length out = 6%nat.
Proof.
  destruct (example_ptm1 (Some 5) false) as [out|] eqn:E; [|by vm_compute in E].
  exists out. split; [done|].
  destruct (ptm1_fixed_length example_ext _ _ _ _ _ _ _ _ _ 5 false out
              ltac:(lia) (fun _ => example_combine_length) E)
    as (nparts & _ & Hlen & _).
  exact Hlen.
Defined.

(** C3 on the code: the length is [swells + 1] and slot 0 is the wind sea,
    but the zero slots need not trail.  On the young sea the first region
    goes to the wind sea, which leaves two swell candidates for
    [swells = 3]; the region's entry of the swell list is a zero array with
    the ranking key -0.0, and the sort by [zip(isort, swell_partitions)]
    puts it in slot 2, between the swells of energy 10 and 16. *)
Theorem ptm1_zero_slot_not_trailing :
  let mask :=
    windseamask young_sea_ext example_freq example_dir (F64.dec 12 10)
      F64.zero (F64.of_Z 100) (F64.dec 17 10) in
  map (is_windsea young_sea_regions young_sea mask (F64.dec 3333 10000))
    (seq 0 3) = [true; false; false] /\
  exists wsea s1 s2 s3,
    young_sea_ptm1 (Some 3) = Ok [wsea; s1; s2; s3] /\
    np.sum wsea = F64.of_Z 9 /\
    np.sum s1 = F64.of_Z 10 /\
    s2 = np.zeros_like young_sea /\
    np.sum s3 = F64.of_Z 16 /\
    s3 <> np.zeros_like young_sea.
Proof.
  split; [vm_compute; reflexivity|].
  eexists _, _, _, _. split; [vm_compute; reflexivity|].
  repeat split; try (vm_compute; reflexivity).
  vm_compute. discriminate.
Qed.

(** Negative counts in the reconciliation: Python's [l[:n]] for [n < 0]
    keeps all but the last [-n] entries. *)
Lemma reconcile_swells_negative (ext : collaborators) (spectrum : ndarray)
  (ranked : list ndarray) (freq dir : list f64) (nparts n : Z) :
  n < 0 ->
  length ranked = Z.to_nat nparts ->
  reconcile_swells ext spectrum ranked freq dir nparts (Some n) false =
  take (Z.to_nat (Z.of_nat (length ranked) + n)) ranked.
Proof.
  intros Hn Hlen. unfold reconcile_swells, slice_to.
  rewrite andb_false_r. simpl. rewrite andb_true_r.
  replace (n <? 0) with true by (symmetry; by apply Z.ltb_lt).
  destruct (n <? nparts) eqn:E1; [done|].
  apply Z.ltb_ge in E1.
  assert (ranked = []) as -> by (apply length_zero_iff_nil; lia).
  simpl. rewrite take_nil.
  replace (Z.to_nat (n - Z.of_nat 0)) with 0%nat by lia.
  by destruct (nparts <? n).
Qed.

Lemma reconcile_parts_negative (ext : collaborators) (spectrum : ndarray)
  (ranked : list ndarray) (freq dir : list f64) (nparts n : Z) :
  n < 0 ->
  length ranked = Z.to_nat nparts ->
  reconcile_parts ext spectrum ranked freq dir nparts (Some n) false =
  take (Z.to_nat (Z.of_nat (length ranked) + n)) ranked.
Proof.
  intros Hn Hlen. unfold reconcile_parts, slice_to.
  rewrite andb_false_r. simpl. rewrite andb_true_r.
  replace (n <? 0) with true by (symmetry; by apply Z.ltb_lt).
  destruct (n <? nparts) eqn:E1; [done|].
  apply Z.ltb_ge in E1.
  assert (ranked = []) as -> by (apply length_zero_iff_nil; lia).
  simpl. rewrite take_nil.
  replace (Z.to_nat (n - Z.of_nat 0)) with 0%nat by lia.
  by destruct (nparts <? n).
Qed.

(** C6, as the code has it: a negative count is not rejected.  With
    [combine=False], [np_ptm1] returns the wind sea partition followed by the
    ranked swells without their last [-swells] entries, and [np_ptm3]
    returns what it returns for [parts=None] without its last [-parts]
    entries. *)
Theorem negative_count_truncates (ext : collaborators)
  (spectrum spectrum_smooth : ndarray) (freq dir : list f64)
  (wspd wdir dpt agefac wscut : f64) (n : Z) :
  n < 0 ->
  (forall nparts, np.max (partition ext spectrum_smooth) = Ok nparts ->
     let ranked := ptm1_ranked ext spectrum spectrum_smooth freq dir wspd wdir
                     dpt agefac wscut nparts in
     np_ptm1 ext spectrum spectrum_smooth freq dir wspd wdir dpt agefac wscut
       (Some n) false =
     Ok ((ptm1_loop ext spectrum spectrum_smooth freq dir wspd wdir dpt agefac
            wscut nparts).1 ::
         take (Z.to_nat (Z.of_nat (length ranked) + n)) ranked)) /\
  (forall full, np_ptm3 ext spectrum spectrum_smooth freq dir None false = Ok full ->
     np_ptm3 ext spectrum spectrum_smooth freq dir (Some n) false =
     Ok (take (Z.to_nat (Z.of_nat (length full) + n)) full)).
Proof.
  intros Hn. split.
  - intros nparts Hmax ranked. rewrite np_ptm1_unfold, Hmax. simpl.
    rewrite reconcile_swells_negative; [done..|].
    apply ptm1_ranked_length.
  - intros full. unfold np_ptm3.
    destruct (np.max (partition ext spectrum_smooth)) as [nparts|]; [|done].
    simpl.
    destruct (sorted_reverse _ _) as [sorted|] eqn:E; [|done]. simpl.
    intros H. injection H as <-. f_equal.
    change (reconcile_parts ext spectrum (map snd sorted) freq dir nparts None
              false) with (map snd sorted).
    apply reconcile_parts_negative; [done|].
    rewrite length_map, (Permutation_length (sorted_reverse_perm _ _ _ E)).
    rewrite length_zip, !length_map, length_seq. lia.
Qed.

Lemma negative_count_truncates_witness :
  (exists out, example_ptm1 (Some (-1)) false = Ok out /\ length out = 3%nat) /\
  (exists out, example_ptm3 (Some (-1)) false = Ok out /\ length out = 2%nat).
Proof.
  destruct (negative_count_truncates example_ext three_systems three_systems
              example_freq example_dir F64.zero F64.zero (F64.of_Z 100)
              (F64.dec 17 10) (F64.dec 3333 10000) (-1) ltac:(lia)) as [H1 H3].
  split.
  - eexists. split; [exact (H1 3 eq_refl)|].
    rewrite length_cons, length_take, ptm1_ranked_length. reflexivity.
  - destruct (example_ptm3 None false) as [full|] eqn:E; [|by vm_compute in E].
    eexists. split; [exact (H3 full E)|].
    vm_compute in E. injection E as <-. reflexivity.
Defined.

(** C6, as stated, fails: [swells=-1] and [parts=-1] are answered with a
    partition array of 3 and of 2 entries on the example. *)
Lemma negative_count_not_rejected :
  (exists out, example_ptm1 (Some (-1)) false = Ok out /\ length out = 3%nat) /\
  (exists out, example_ptm3 (Some (-1)) false = Ok out /\ length out = 2%nat).
Proof. split; eexists; split; vm_compute; reflexivity. Qed.

(** C1 on the example: the three swell partitions that [np_ptm1] returns
    have the energies 10, 9 and 16 in this order, so that the Hs of slot 2
    is below the Hs of slot 3; [np_ptm3] returns the same three regions in
    the order 16, 10, 9. *)
Theorem ptm1_ranking_out_of_order :
  (exists wsea s1 s2 s3,
     example_ptm1 (Some 3) false = Ok [wsea; s1; s2; s3] /\
     np.sum s1 = F64.of_Z 10 /\ np.sum s2 = F64.of_Z 9 /\
     np.sum s3 = F64.of_Z 16 /\
     F64.ltb (hs_spec s2 example_freq example_dir)
       (hs_spec s3 example_freq example_dir) = true) /\
  (exists p1 p2 p3,
     example_ptm3 (Some 3) false = Ok [p1; p2; p3] /\
     np.sum p1 = F64.of_Z 16 /\ np.sum p2 = F64.of_Z 10 /\
     np.sum p3 = F64.of_Z 9).
Proof.
  split.
  - eexists _, _, _, _. split; [vm_compute; reflexivity|].
    repeat split; vm_compute; reflexivity.
  - eexists _, _, _. split; [vm_compute; reflexivity|].
    repeat split; vm_compute; reflexivity.
Qed.

(** ** binary64 facts *)

Lemma compare_antisym (x y : f64) :
  SFcompare y x = option_map CompOpp (SFcompare x y).
Proof.
  destruct x as [[]|[]| |[] m1 e1], y as [[]|[]| |[] m2 e2]; simpl; try done.
  - rewrite (Z.compare_antisym e1 e2).
    destruct (e1 ?= e2); simpl; try done.
    rewrite (Pos.compare_cont_antisym m1 m2 Eq). simpl.
    by destruct (Pos.compare_cont Eq m1 m2).
  - rewrite (Z.compare_antisym e1 e2).
    destruct (e1 ?= e2); simpl; try done.
    by rewrite (Pos.compare_cont_antisym m1 m2 Eq).
Qed.

Lemma eqb_true (x y : f64) :
  F64.eqb x y = true ->
  (F64.is_zero x = true /\ F64.is_zero y = true) \/
  (x = y /\ F64.is_nan x = false).
Proof.
  unfold F64.eqb, SFeqb.
  destruct x as [[]|[]| |[] m1 e1], y as [[]|[]| |[] m2 e2]; simpl;
    try done; try (by left); try (by right).
  - destruct (e1 ?= e2) eqn:E; try done.
    destruct (Pos.compare_cont Eq m1 m2) eqn:E'; try done.
    apply Z.compare_eq in E. apply Pos.compare_eq in E'. subst. by right.
  - destruct (e1 ?= e2) eqn:E; try done.
    destruct (Pos.compare_cont Eq m1 m2) eqn:E'; try done.
    apply Z.compare_eq in E. apply Pos.compare_eq in E'. subst. by right.
Qed.

Lemma eqb_zeros (x y : f64) :
  F64.is_zero x = true -> F64.is_zero y = true -> F64.eqb x y = true.
Proof. by destruct x, y. Qed.

Lemma eqb_refl (x : f64) : F64.is_nan x = false -> F64.eqb x x = true.
Proof.
  unfold F64.eqb, SFeqb.
  destruct x as [[]|[]| |[] m e]; simpl; try done; intros _;
    by rewrite Z.compare_refl, Pos.compare_cont_refl.
Qed.

Lemma eqb_sym (x y : f64) : F64.eqb x y = true -> F64.eqb y x = true.
Proof.
  intros H. destruct (eqb_true _ _ H) as [[Hx Hy]|[-> _]]; [|done].
  by apply eqb_zeros.
Qed.

Lemma eqb_trans (x y z : f64) :
  F64.eqb x y = true -> F64.eqb y z = true -> F64.eqb x z = true.
Proof.
  intros H1 H2.
  destruct (eqb_true _ _ H1) as [[Hx Hy]|[-> _]]; [|done].
  destruct (eqb_true _ _ H2) as [[_ Hz]|[<- _]]; by apply eqb_zeros.
Qed.

(** The three ways a comparison with a cut-off comes out. *)
Lemma eqb_leb_geb (f c : f64) :
  F64.eqb f c = true -> F64.geb f c = true /\ F64.leb f c = true.
Proof.
  unfold F64.eqb, F64.geb, F64.leb, SFeqb, SFleb.
  rewrite (compare_antisym f c).
  by destruct (SFcompare f c) as [[]|].
Qed.

Lemma ltb_leb_geb (f c : f64) :
  F64.ltb f c = true -> F64.geb f c = false /\ F64.leb f c = true.
Proof.
  unfold F64.ltb, F64.geb, F64.leb, SFltb, SFleb.
  rewrite (compare_antisym f c).
  by destruct (SFcompare f c) as [[]|].
Qed.

Lemma gtb_leb_geb (f c : f64) :
  F64.gtb f c = true -> F64.geb f c = true /\ F64.leb f c = false.
Proof.
  unfold F64.gtb, F64.geb, F64.leb, SFltb, SFleb.
  rewrite (compare_antisym f c).
  by destruct (SFcompare f c) as [[]|].
Qed.

Lemma leb_not_gtb (x y : f64) : F64.leb x y = true -> F64.gtb x y = false.
Proof.
  unfold F64.gtb, F64.leb, SFltb, SFleb.
  rewrite (compare_antisym x y).
  by destruct (SFcompare x y) as [[]|].
Qed.

Lemma gtb_nan_l (y : f64) : F64.gtb F64.nan y = false.
Proof. by destruct y. Qed.

(** Sums of zeros. *)
Lemma add_zeros (x y : f64) :
  F64.is_zero x = true -> F64.is_zero y = true -> F64.is_zero (F64.add x y) = true.
Proof. by destruct x as [[]| | |], y as [[]| | |]. Qed.

Lemma mul_zero_finite (x y : f64) :
  F64.is_zero x = true -> F64.is_finite y = true ->
  F64.is_zero (F64.mul x y) = true.
Proof. by destruct x, y. Qed.

Lemma mul_finite_zero (x y : f64) :
  F64.is_finite x = true -> F64.is_zero y = true ->
  F64.is_zero (F64.mul x y) = true.
Proof. by destruct x, y. Qed.

Lemma sqrt_zero (x : f64) : F64.is_zero x = true -> F64.is_zero (F64.sqrt x) = true.
Proof. by destruct x. Qed.

Lemma div_zeros (x y : f64) :
  F64.is_zero x = true -> F64.is_zero y = true -> F64.div x y = F64.nan.
Proof. by destruct x, y. Qed.

Lemma foldl_add_zeros (a : f64) (l : list f64) :
  F64.is_zero a = true -> Forall (fun x => F64.is_zero x = true) l ->
  F64.is_zero (foldl F64.add a l) = true.
Proof.
  revert a. induction l as [|x l IH]; intros a Ha Hl; simpl; [done|].
  inversion Hl; subst. apply IH; [|done]. by apply add_zeros.
Qed.

Lemma sum1_zeros (l : list f64) :
  Forall (fun x => F64.is_zero x = true) l -> F64.is_zero (np.sum1 l) = true.
Proof.
  destruct l as [|x l]; [done|]. intros Hl. inversion Hl; subst.
  by apply foldl_add_zeros.
Qed.

(** Adding to +0.0: the value itself, -0.0 apart, which becomes +0.0. *)
Lemma add_zero_zero : F64.add F64.zero F64.zero = F64.zero.
Proof. reflexivity. Qed.

Lemma add_zero_l_idem (x : f64) :
  F64.add F64.zero (F64.add F64.zero x) = F64.add F64.zero x.
Proof. by destruct x as [[]|[]| |]. Qed.

Lemma add_zero_r_stable (x : f64) :
  F64.add (F64.add F64.zero x) F64.zero = F64.add F64.zero x.
Proof. by destruct x as [[]|[]| |]. Qed.

Lemma add_zero_l_eqb (x : f64) :
  F64.is_nan x = false -> F64.eqb (F64.add F64.zero x) x = true.
Proof.
  intros Hx. destruct x as [[]|[]| |s m e]; try done.
  apply eqb_refl. done.
Qed.

(** ** A region without energy *)

Lemma Forall_zip_with_both {A B C} (P : A -> Prop) (Q : B -> Prop) (R : C -> Prop)
  (f : A -> B -> C) (l : list A) (k : list B) :
  (forall x y, P x -> Q y -> R (f x y)) ->
  Forall P l -> Forall Q k -> Forall R (zip_with f l k).
Proof.
  intros Hf Hl. revert k. induction Hl as [|x l Hx Hl IH]; intros k Hk; [constructor|].
  destruct Hk as [|y k Hy Hk]; simpl; constructor; auto.
Qed.

Lemma bool_index_Forall (P : f64 -> Prop) (a : ndarray) (mask : list (list bool)) :
  Forall (Forall P) a -> Forall P (np.bool_index a mask).
Proof.
  intros Ha. unfold np.bool_index.
  assert (Forall P (concat a)) as Hc by (by apply Forall_concat).
  revert Hc. generalize (concat a) as l. generalize (concat mask) as m.
  induction m as [|b m IH]; intros l Hl; [constructor|].
  destruct Hl as [|x l Hx Hl]; [constructor|]. simpl.
  destruct b; simpl; [constructor; [done|]|]; by apply IH.
Qed.

Lemma wsfrac_null (part : ndarray) (mask : list (list bool)) :
  Forall (Forall (fun x => F64.is_zero x = true)) part ->
  wsfrac part mask = F64.nan.
Proof.
  intros Hz. unfold wsfrac. apply div_zeros.
  - apply sum1_zeros. by apply bool_index_Forall.
  - apply sum1_zeros. by apply Forall_concat.
Qed.

Lemma zeros_like_Forall (a : ndarray) :
  Forall (Forall (fun x => x = F64.zero)) (np.zeros_like a).
Proof.
  unfold np.zeros_like. apply Forall_forall. intros row Hrow.
  apply list_elem_of_fmap in Hrow as (r & -> & _).
  apply Forall_forall. intros x Hx.
  by apply list_elem_of_fmap in Hx as (? & -> & _).
Qed.

Lemma hs_spec_null (slot : ndarray) (freq dir : list f64) :
  Forall (Forall (fun x => F64.is_zero x = true)) slot ->
  F64.is_finite (grid_dd dir) = true ->
  Forall (fun w => F64.is_finite w = true) (grid_df freq) ->
  F64.is_zero (hs_spec slot freq dir) = true.
Proof.
  intros Hz Hdd Hdf. unfold hs_spec.
  apply mul_finite_zero; [done|]. apply sqrt_zero, sum1_zeros.
  apply (Forall_zip_with_both (fun x => F64.is_zero x = true)
           (fun w => F64.is_finite w = true)); [apply mul_zero_finite| |done].
  apply Forall_forall. intros s Hs.
  apply list_elem_of_fmap in Hs as (row & -> & Hrow).
  apply mul_finite_zero; [done|]. apply sum1_zeros.
  by apply (proj1 (Forall_forall _ _) Hz).
Qed.

(** C7: for a region whose part holds no energy (every bin of it is a
    zero), the quotient [wsfrac] is 0/0, and the test [wsfrac > wscut] on it
    is false: the region is not assigned to the wind sea, which is what a
    fraction of 0 gives for any cut-off that is not negative.  Its entry of
    the swell list is an array of +0.0, whose ranking key [-hs] is not NaN
    on a grid with finite widths. *)
Theorem ptm1_null_region (wm : intarray) (spectrum : ndarray)
  (mask : list (list bool)) (wscut : f64) (freq dir : list f64)
  (nparts ipart : nat) :
  (ipart < nparts)%nat ->
  Forall (Forall (fun x => F64.is_zero x = true)) (region_part wm spectrum ipart) ->
  F64.is_finite (grid_dd dir) = true ->
  Forall (fun w => F64.is_finite w = true) (grid_df freq) ->
  let part := region_part wm spectrum ipart in
  F64.gtb (wsfrac part mask) wscut = false /\
  (F64.leb F64.zero wscut = true ->
   F64.gtb (wsfrac part mask) wscut = F64.gtb F64.zero wscut) /\
  exists slot,
    (assign_loop wm spectrum mask wscut nparts).2 !! ipart = Some slot /\
    Forall (Forall (fun x => x = F64.zero)) slot /\
    F64.is_nan (F64.opp (hs_spec slot freq dir)) = false.
Proof.
  intros Hi Hz Hdd Hdf part.
  assert (F64.gtb (wsfrac part mask) wscut = false) as Hws.
  { unfold part. rewrite wsfrac_null by done. apply gtb_nan_l. }
  split; [done|]. split.
  { intros Hcut. rewrite Hws. symmetry. by apply leb_not_gtb. }
  exists (np.add (np.zeros_like spectrum) part).
  assert (Forall (Forall (fun x => x = F64.zero))
            (np.add (np.zeros_like spectrum) part)) as Hslot.
  { apply (Forall_zip_with_both (Forall (fun x => x = F64.zero))
             (Forall (fun x => F64.is_zero x = true)));
      [|apply zeros_like_Forall|done].
    intros r1 r2 H1 H2.
    apply (Forall_zip_with_both (fun x => x = F64.zero)
             (fun x => F64.is_zero x = true)); [|done..].
    intros x y -> Hy. by destruct y as [[]| | |]. }
  split; [|split; [done|]].
  - rewrite assign_loop_closed. simpl.
    rewrite list_lookup_fmap, lookup_seq_lt by done. simpl.
    unfold swell_slot, is_windsea. fold part. by rewrite Hws.
  - assert (F64.is_zero (hs_spec (np.add (np.zeros_like spectrum) part) freq dir)
            = true) as H0.
    { apply hs_spec_null; [|done..].
      eapply Forall_impl; [exact Hslot|]. intros row Hrow.
      eapply Forall_impl; [exact Hrow|]. by intros x ->. }
    by destruct (hs_spec _ freq dir).
Qed.

Lemma ptm1_null_region_witness :
  F64.gtb (wsfrac (region_part null_region_map null_region_spectrum 1)
             [[false]; [false]]) (F64.dec 3333 10000) = false.
Proof.
  refine (proj1 (ptm1_null_region null_region_map null_region_spectrum
                   [[false]; [false]] (F64.dec 3333 10000)
                   [F64.dec 1 10; F64.dec 2 10] [F64.zero] 2 1 _ _ _ _)).
  - lia.
  - repeat constructor.
  - reflexivity.
  - repeat constructor.
Defined.

(** ** ptm5 *)

Lemma set_add_length (x : f64) (s : list f64) :
  (length (set_add x s) <= S (length s))%nat.
Proof.
  unfold set_add. destruct (existsb _ s); [lia|].
  rewrite length_app. simpl. lia.
Qed.

Lemma py_set_length (l : list f64) : (length (py_set l) <= length l)%nat.
Proof.
  unfold py_set.
  assert (forall s, length (foldl (fun s x => set_add x s) s l)
                    <= length s + length l)%nat as H.
  { induction l as [|x l IH]; intros s; simpl; [lia|].
    specialize (IH (set_add x s)). pose proof (set_add_length x s). lia. }
  apply (H []).
Qed.

Lemma existsb_set_add (c x : f64) (s : list f64) :
  existsb (F64.eqb c) s = true -> existsb (F64.eqb c) (set_add x s) = true.
Proof.
  intros H. unfold set_add. destruct (existsb (F64.eqb x) s); [done|].
  rewrite existsb_app, H. done.
Qed.

Lemma existsb_set_add_eq (c x : f64) (s : list f64) :
  F64.eqb x c = true -> existsb (F64.eqb c) (set_add x s) = true.
Proof.
  intros Hx. unfold set_add. destruct (existsb (F64.eqb x) s) eqn:E.
  - apply existsb_exists in E as (y & Hy & Hxy).
    apply existsb_exists. exists y. split; [done|].
    eapply eqb_trans; [apply eqb_sym, Hx|done].
  - rewrite existsb_app. simpl. rewrite (eqb_sym _ _ Hx). by rewrite orb_true_r.
Qed.

(** A cut-off that is one of the frequencies is already in their set. *)
Lemma py_set_member (l : list f64) (c : f64) :
  (exists f, f ∈ l /\ F64.eqb f c = true) ->
  existsb (F64.eqb c) (py_set l) = true.
Proof.
  unfold py_set. generalize (@nil f64) as s.
  induction l as [|x l IH]; intros s (f & Hf & Hfc); [by apply elem_of_nil in Hf|].
  simpl. apply elem_of_cons in Hf as [->|Hf].
  - clear IH. generalize (existsb_set_add_eq c x s Hfc).
    generalize (set_add x s) as s'. induction l as [|y l IH]; intros s' H; [done|].
    simpl. by apply IH, existsb_set_add.
  - apply IH. by exists f.
Qed.

Lemma no_interpolation (l : list f64) (c : f64) :
  (exists f, f ∈ l /\ F64.eqb f c = true) ->
  (length l <? length (sort_by F64.ltb (set_add c (py_set l))))%nat = false.
Proof.
  intros H. apply Nat.ltb_ge.
  rewrite (Permutation_length (sort_by_perm _ _)).
  unfold set_add. rewrite (py_set_member l c H). apply py_set_length.
Qed.

Lemma where_freq_bin (cond : f64 -> bool) (freq : list f64) (values : ndarray)
  (i j : nat) (f x : f64) :
  freq !! i = Some f -> bin values i j = Some x ->
  bin (map (map fillna0) (where_freq cond freq values)) i j =
  Some (if cond f then fillna0 x else F64.zero).
Proof.
  unfold bin, where_freq. intros Hf Hx.
  destruct (values !! i) as [row|] eqn:Hrow; [|done]. simpl in Hx.
  rewrite list_lookup_fmap, lookup_zip_with, Hf, Hrow. simpl.
  rewrite !list_lookup_fmap, Hx. simpl. by destruct (cond f).
Qed.

Lemma add_bin (a b : ndarray) (i j : nat) (u v : f64) :
  bin a i j = Some u -> bin b i j = Some v ->
  bin (np.add a b) i j = Some (F64.add u v).
Proof.
  unfold bin, np.add. intros Ha Hb.
  destruct (a !! i) as [ra|] eqn:Hra; [|done].
  destruct (b !! i) as [rb|] eqn:Hrb; [|done]. simpl in *.
  rewrite lookup_zip_with, Hra, Hrb. simpl.
  by rewrite lookup_zip_with, Ha, Hb.
Qed.

(** C4, as the code has it: for a cut-off among the frequencies, [ptm5]
    returns two partitions of the spectrum sorted along its coordinates,
    without regridding.  The high-frequency one keeps the bins with
    [freq >= fcut] and is zero below, the low-frequency one keeps those with
    [freq <= fcut] and is zero above (a NaN density counts as zero).  Both
    keep the bins of the cut-off frequency itself, so their sum is the
    spectrum away from the cut-off and twice the spectrum on it. *)
Theorem ptm5_split (regrid_spec : DataArray -> list f64 -> DataArray)
  (dset : DataArray) (fcut : f64) (interpolate : bool) (out : PartArray) :
  (exists f, f ∈ dset_freq dset /\ F64.eqb f fcut = true) ->
  ptm5 regrid_spec dset fcut interpolate = Ok out ->
  exists sorted freq dir values hf lf,
    sortby_dir dset = Ok sorted /\
    sortby_freq sorted = Efth freq dir values /\
    out = {| part_freq := freq; part_dir := dir; part_values := [hf; lf] |} /\
    forall i j f x,
      freq !! i = Some f -> bin values i j = Some x ->
      exists h l,
        bin hf i j = Some h /\ bin lf i j = Some l /\
        bin (np.add hf lf) i j = Some (F64.add h l) /\
        (F64.ltb f fcut = true -> h = F64.zero /\ l = fillna0 x) /\
        (F64.gtb f fcut = true -> h = fillna0 x /\ l = F64.zero) /\
        (F64.eqb f fcut = true -> h = fillna0 x /\ l = fillna0 x).
Proof.
  intros Hcut. unfold ptm5.
  destruct (sortby_dir dset) as [sorted|] eqn:Es; [|done]. simpl.
  rewrite (no_interpolation _ _ Hcut).
  replace (if interpolate then sortby_freq sorted else sortby_freq sorted)
    with (sortby_freq sorted) by (by destruct interpolate).
  destruct (sortby_freq sorted) as [freq dir values|] eqn:Ef; [|done].
  intros H. injection H as <-.
  eexists sorted, freq, dir, values, _, _.
  split; [reflexivity|]. split; [exact Ef|]. split; [reflexivity|].
  intros i j f x Hf Hx.
  pose proof (where_freq_bin (fun f => F64.geb f fcut) _ _ _ _ _ _ Hf Hx) as Hh.
  pose proof (where_freq_bin (fun f => F64.leb f fcut) _ _ _ _ _ _ Hf Hx) as Hl.
  eexists _, _. split; [exact Hh|]. split; [exact Hl|].
  split; [by apply add_bin|]. simpl. split; [|split]; intros Hc.
  - apply ltb_leb_geb in Hc as [-> ->]. done.
  - apply gtb_leb_geb in Hc as [-> ->]. done.
  - apply eqb_leb_geb in Hc as [-> ->]. done.
Qed.

Lemma ptm5_split_witness :
  exists out, ptm5 no_regrid two_frequencies (F64.dec 2 10) true = Ok out /\
    length (part_values out) = 2%nat.
Proof.
  destruct (ptm5 no_regrid two_frequencies (F64.dec 2 10) true) as [out|] eqn:E;
    [|by vm_compute in E].
  exists out. split; [done|].
  destruct (ptm5_split no_regrid two_frequencies (F64.dec 2 10) true out)
    as (sorted & freq & dir & values & hf & lf & _ & _ & -> & _);
    [|exact E|reflexivity].
  exists (F64.dec 2 10). split; [|reflexivity].
  simpl. apply elem_of_cons. right. apply elem_of_cons. by left.
Defined.

(** C4, as stated, fails: cutting the two-frequency spectrum at 0.2 Hz
    leaves the densities 1 and 2 in the low-frequency partition and 0 and 2
    in the high-frequency one, which sum to 1 and 4. *)
Lemma ptm5_sum_counts_cutoff_twice :
  exists hf lf,
    ptm5 no_regrid two_frequencies (F64.dec 2 10) true =
    Ok {| part_freq := [F64.dec 1 10; F64.dec 2 10]; part_dir := [F64.zero];
          part_values := [hf; lf] |} /\
    hf = [[F64.zero]; [F64.of_Z 2]] /\
    lf = [[F64.of_Z 1]; [F64.of_Z 2]] /\
    np.add hf lf = [[F64.of_Z 1]; [F64.of_Z 4]] /\
    F64.eqb (F64.of_Z 4) (F64.of_Z 2) = false.
Proof. eexists _, _. repeat split; vm_compute; reflexivity. Qed.

(** ** Sums in which one term at most is not +0.0 *)

Lemma add_zero_comm (x : f64) : F64.add x F64.zero = F64.add F64.zero x.
Proof. by destruct x as [[]|[]| |]. Qed.

Lemma foldl_add_pzeros (l : list f64) :
  Forall (fun v => v = F64.zero) l -> foldl F64.add F64.zero l = F64.zero.
Proof.
  induction 1 as [|v l -> _ IH]; simpl; [done|]. by rewrite add_zero_zero.
Qed.

Lemma foldl_add_norm_pzeros (x : f64) (l : list f64) :
  Forall (fun v => v = F64.zero) l ->
  foldl F64.add (F64.add F64.zero x) l = F64.add F64.zero x.
Proof.
  induction 1 as [|v l -> _ IH]; simpl; [done|]. by rewrite add_zero_r_stable.
Qed.

Lemma sum1_pzeros (l : list f64) :
  Forall (fun v => v = F64.zero) l -> np.sum1 l = F64.zero.
Proof.
  destruct 1 as [|v l -> Hl]; simpl; [done|]. by apply foldl_add_pzeros.
Qed.

(** The sum of [l1 ++ y :: l2] with +0.0 everywhere around [y] is [y]
    itself or [0.0 + y]. *)
Lemma sum1_onehot (l1 l2 : list f64) (y : f64) :
  Forall (fun v => v = F64.zero) l1 -> Forall (fun v => v = F64.zero) l2 ->
  np.sum1 (l1 ++ y :: l2) = y \/ np.sum1 (l1 ++ y :: l2) = F64.add F64.zero y.
Proof.
  intros H1 H2. destruct H1 as [|v l1 -> H1]; simpl.
  - destruct H2 as [|v l2 -> H2]; simpl; [by left|right].
    rewrite add_zero_comm. by apply foldl_add_norm_pzeros.
  - right. rewrite foldl_app, foldl_add_pzeros by done. simpl.
    by apply foldl_add_norm_pzeros.
Qed.

Lemma sum1_onehot_perm (l zs : list f64) (y : f64) :
  l ≡ₚ y :: zs -> Forall (fun v => v = F64.zero) zs ->
  np.sum1 l = y \/ np.sum1 l = F64.add F64.zero y.
Proof.
  intros Hp Hz.
  assert (y ∈ l) as Hy by (rewrite Hp; apply elem_of_cons; by left).
  apply list_elem_of_split in Hy as (l1 & l2 & ->).
  symmetry in Hp. apply Permutation_cons_app_inv in Hp.
  rewrite Hp in Hz. apply Forall_app in Hz as [H1 H2].
  by apply sum1_onehot.
Qed.

Lemma one_share_sum (x : f64) (vals : list f64) :
  one_share x vals -> F64.is_nan x = false -> F64.eqb (np.sum1 vals) x = true.
Proof.
  intros [[Hz Hx]|(y & zs & Hp & Hz & Hy)] Hnan.
  - rewrite sum1_pzeros by done. by apply eqb_zeros.
  - destruct (sum1_onehot_perm _ _ _ Hp Hz) as [->| ->], Hy as [->| ->];
      rewrite ?add_zero_l_idem; try (by apply add_zero_l_eqb); by apply eqb_refl.
Qed.

Lemma one_share_perm (x : f64) (vals vals' : list f64) :
  vals ≡ₚ vals' -> one_share x vals -> one_share x vals'.
Proof.
  intros Hp [[Hz Hx]|(y & zs & Hp' & Hz & Hy)].
  - left. split; [|done]. by rewrite <- Hp.
  - right. exists y, zs. split; [|done]. by rewrite <- Hp.
Qed.

Lemma one_share_pad (x : f64) (vals : list f64) (n : nat) :
  one_share x vals -> one_share x (vals ++ replicate n F64.zero).
Proof.
  assert (Forall (fun v => v = F64.zero) (replicate n F64.zero)) as Hr
    by (apply Forall_forall; intros v Hv; by apply elem_of_replicate in Hv as [-> _]).
  intros [[Hz Hx]|(y & zs & Hp & Hz & Hy)].
  - left. split; [|done]. by apply Forall_app.
  - right. exists y, (zs ++ replicate n F64.zero).
    split; [by rewrite Hp|]. split; [|done]. by apply Forall_app.
Qed.

Lemma map_pzeros {K} (g : K -> f64) (ks : list K) :
  (forall k, k ∈ ks -> g k = F64.zero) ->
  Forall (fun v => v = F64.zero) (map g ks).
Proof.
  intros Hg. apply Forall_forall. intros v Hv.
  apply list_elem_of_fmap in Hv as (k & -> & Hk). by apply Hg.
Qed.

Lemma map_onehot (g : nat -> f64) (ks : list nat) (k0 : nat) :
  NoDup ks -> k0 ∈ ks ->
  (forall k, k ∈ ks -> k <> k0 -> g k = F64.zero) ->
  exists l1 l2, map g ks = l1 ++ g k0 :: l2 /\
    Forall (fun v => v = F64.zero) l1 /\ Forall (fun v => v = F64.zero) l2.
Proof.
  intros Hnd Hk0 Hg.
  apply list_elem_of_split in Hk0 as (ks1 & ks2 & ->).
  apply NoDup_app in Hnd as (_ & Hdis & Hnd2).
  apply NoDup_cons in Hnd2 as [Hnot2 _].
  exists (map g ks1), (map g ks2). split; [by rewrite map_app|].
  split; apply map_pzeros; intros k Hk; apply Hg.
  - apply elem_of_app. by left.
  - intros ->. apply (Hdis k0 Hk). apply elem_of_cons. by left.
  - apply elem_of_app. right. apply elem_of_cons. by right.
  - by intros ->.
Qed.

Lemma NoDup_filter_seq (p : nat -> bool) (n : nat) :
  NoDup (List.filter p (seq 0 n)).
Proof. apply NoDup_ListNoDup, List.NoDup_filter, NoDup_ListNoDup, NoDup_seq. Qed.

Lemma elem_of_filter_seq (p : nat -> bool) (n k : nat) :
  k ∈ List.filter p (seq 0 n) <-> p k = true /\ (k < n)%nat.
Proof.
  split.
  - intros H. apply list_elem_of_In, List.filter_In in H as [H1 H2].
    apply list_elem_of_In, elem_of_seq in H1. split; [done|lia].
  - intros [H1 H2]. apply list_elem_of_In, List.filter_In. split; [|done].
    apply list_elem_of_In, elem_of_seq. lia.
Qed.

(** The maximum of the region map bounds its labels. *)
Lemma foldl_max_le (l : list Z) (a : Z) : a <= foldl Z.max a l.
Proof.
  revert a. induction l as [|y l IH]; intros a; simpl; [lia|].
  specialize (IH (Z.max a y)). lia.
Qed.

Lemma foldl_max_bound (l : list Z) (a y : Z) : y ∈ l -> y <= foldl Z.max a l.
Proof.
  revert a. induction l as [|z l IH]; intros a Hy; [by apply elem_of_nil in Hy|].
  simpl. apply elem_of_cons in Hy as [->|Hy]; [|by apply IH].
  pose proof (foldl_max_le l (Z.max a z)). lia.
Qed.

Lemma max_bound (wm : intarray) (nparts label : Z) (i j : nat) :
  np.max wm = Ok nparts -> bin wm i j = Some label -> label <= nparts.
Proof.
  unfold np.max, bin. intros Hmax Hl.
  destruct (wm !! i) as [row|] eqn:Hrow; [|done]. simpl in Hl.
  assert (label ∈ concat wm) as Hin.
  { apply list_elem_of_In, in_concat. exists row.
    split; apply list_elem_of_In; by eapply list_elem_of_lookup_2. }
  destruct (concat wm) as [|z l]; [done|]. injection Hmax as <-.
  apply elem_of_cons in Hin as [->|Hin]; [apply foldl_max_le|].
  by apply foldl_max_bound.
Qed.

(** ** The partitions at one bin *)

Section Bin.
Variables (wm : intarray) (spectrum : ndarray) (i j : nat) (label : Z) (x : f64).
Hypothesis Hlabel : bin wm i j = Some label.
Hypothesis Hx : bin spectrum i j = Some x.

(** What region [k + 1] holds of the bin. *)
Let share (k : nat) : f64 := if label =? Z.of_nat k + 1 then x else F64.zero.

Lemma region_part_bin (k : nat) :
  bin (region_part wm spectrum k) i j = Some (share k).
Proof.
  unfold bin, region_part, np.where_eq in *.
  destruct (wm !! i) as [lrow|] eqn:E1; [|done].
  destruct (spectrum !! i) as [row|] eqn:E2; [|done]. simpl in *.
  rewrite lookup_zip_with, E1, E2. simpl.
  by rewrite lookup_zip_with, Hlabel, Hx.
Qed.

Lemma zeros_like_bin : bin (np.zeros_like spectrum) i j = Some F64.zero.
Proof.
  unfold bin, np.zeros_like in *.
  destruct (spectrum !! i) as [row|] eqn:E2; [|done]. simpl in *.
  rewrite list_lookup_fmap, E2. simpl. by rewrite list_lookup_fmap, Hx.
Qed.

Lemma foldl_add_bin (acc : ndarray) (a : f64) (ks : list nat) :
  bin acc i j = Some a ->
  bin (foldl np.add acc (map (region_part wm spectrum) ks)) i j =
  Some (foldl F64.add a (map share ks)).
Proof.
  revert acc a. induction ks as [|k ks IH]; intros acc a Ha; simpl; [done|].
  apply IH. apply add_bin; [done|apply region_part_bin].
Qed.

Lemma share_elsewhere (k k0 : nat) :
  label = Z.of_nat k0 + 1 -> k <> k0 -> share k = F64.zero.
Proof.
  intros -> Hk. unfold share.
  replace (_ =? _) with false; [done|]. symmetry. apply Z.eqb_neq. lia.
Qed.

Lemma share_outside (k : nat) : label < 1 -> share k = F64.zero.
Proof.
  intros Hl. unfold share.
  replace (_ =? _) with false; [done|]. symmetry. apply Z.eqb_neq. lia.
Qed.

Lemma share_own (k0 : nat) : label = Z.of_nat k0 + 1 -> share k0 = x.
Proof. intros ->. unfold share. by rewrite Z.eqb_refl. Qed.

(** [np_ptm3]: the parts of the regions at the bin. *)
Lemma parts_one_share (n : nat) :
  label <= Z.of_nat n -> (label < 1 -> F64.is_zero x = true) ->
  let parts := map (region_part wm spectrum) (seq 0 n) in
  Forall (fun p => is_Some (bin p i j)) parts /\
  one_share x (map (fun p => bin0 p i j) parts).
Proof.
  intros Hn Hbg parts. split.
  { apply Forall_forall. intros p Hp.
    apply list_elem_of_fmap in Hp as (k & -> & _).
    exists (share k). apply region_part_bin. }
  unfold parts. rewrite map_map.
  rewrite (map_ext _ share)
    by (intros k; unfold bin0; by rewrite region_part_bin).
  destruct (Z.lt_ge_cases label 1) as [Hlt|Hge].
  - left. split; [|by apply Hbg].
    apply map_pzeros. intros k _. by apply share_outside.
  - right. set (k0 := Z.to_nat (label - 1)).
    assert (label = Z.of_nat k0 + 1) as Hk0 by lia.
    destruct (map_onehot share (seq 0 n) k0) as (l1 & l2 & Heq & H1 & H2).
    + apply NoDup_seq.
    + apply elem_of_seq. lia.
    + intros k _ Hk. by apply share_elsewhere with k0.
    + exists x, (l1 ++ l2). rewrite Heq, (share_own k0 Hk0).
      split; [by rewrite Permutation_middle|].
      split; [by apply Forall_app|by left].
Qed.

(** [np_ptm1]: the wind sea partition and the swell list at the bin. *)
Lemma loop_one_share (mask : list (list bool)) (wscut : f64) (n : nat) :
  label <= Z.of_nat n -> (label < 1 -> F64.is_zero x = true) ->
  let st := assign_loop wm spectrum mask wscut n in
  is_Some (bin st.1 i j) /\
  Forall (fun p => is_Some (bin p i j)) st.2 /\
  one_share x (bin0 st.1 i j :: map (fun p => bin0 p i j) st.2).
Proof.
  intros Hn Hbg st. unfold st. rewrite assign_loop_closed. simpl.
  set (ws := is_windsea wm spectrum mask wscut).
  set (sv := fun k => if ws k then F64.zero else F64.add F64.zero (share k)).
  assert (forall k, bin (swell_slot wm spectrum mask wscut k) i j = Some (sv k))
    as Hslot.
  { intros k. unfold swell_slot, sv. fold ws. destruct (ws k).
    - apply zeros_like_bin.
    - apply add_bin; [apply zeros_like_bin|apply region_part_bin]. }
  pose proof (foldl_add_bin (np.zeros_like spectrum) F64.zero
                (List.filter ws (seq 0 n)) zeros_like_bin) as Hwsea.
  split; [by eexists|]. split.
  { apply Forall_forall. intros p Hp.
    apply list_elem_of_fmap in Hp as (k & -> & _). exists (sv k). apply Hslot. }
  unfold bin0 at 1. rewrite Hwsea. simpl. rewrite map_map.
  rewrite (map_ext (fun k => bin0 (swell_slot wm spectrum mask wscut k) i j) sv)
    by (intros k; unfold bin0; by rewrite Hslot).
  assert (forall k, share k = F64.zero -> sv k = F64.zero) as Hsv0.
  { intros k Hk. unfold sv. rewrite Hk. by destruct (ws k). }
  destruct (Z.lt_ge_cases label 1) as [Hlt|Hge].
  - left. split; [|by apply Hbg]. constructor.
    + apply foldl_add_pzeros, map_pzeros. intros k _. by apply share_outside.
    + apply map_pzeros. intros k _. by apply Hsv0, share_outside.
  - right. set (k0 := Z.to_nat (label - 1)).
    assert (label = Z.of_nat k0 + 1) as Hk0 by lia.
    assert (k0 < n)%nat as Hlt by lia.
    exists (F64.add F64.zero x). destruct (ws k0) eqn:Ews.
    + destruct (map_onehot share (List.filter ws (seq 0 n)) k0)
        as (l1 & l2 & Heq & H1 & H2).
      * apply NoDup_filter_seq.
      * by apply elem_of_filter_seq.
      * intros k _ Hk. by apply share_elsewhere with k0.
      * rewrite Heq, (share_own k0 Hk0), foldl_app, foldl_add_pzeros by done.
        simpl. rewrite foldl_add_norm_pzeros by done.
        eexists. split; [reflexivity|]. split; [|by right].
        apply map_pzeros. intros k _.
        destruct (decide (k = k0)) as [->|Hk]; [unfold sv; by rewrite Ews|].
        by apply Hsv0, share_elsewhere with k0.
    + rewrite foldl_add_pzeros.
      2:{ apply map_pzeros. intros k Hk. apply share_elsewhere with k0; [done|].
          intros ->. apply elem_of_filter_seq in Hk as [Hk _]. congruence. }
      destruct (map_onehot sv (seq 0 n) k0) as (l1 & l2 & Heq & H1 & H2).
      * apply NoDup_seq.
      * apply elem_of_seq. lia.
      * intros k _ Hk. by apply Hsv0, share_elsewhere with k0.
      * exists (F64.zero :: l1 ++ l2). rewrite Heq.
        assert (sv k0 = F64.add F64.zero x) as ->
          by (unfold sv; by rewrite Ews, (share_own k0 Hk0)).
        split; [|split; [|by right]].
        -- rewrite <- Permutation_middle. apply Permutation_swap.
        -- constructor; [done|]. by apply Forall_app.
Qed.
End Bin.

(** ** Energy conservation *)

Lemma reconcile_swells_pads (ext : collaborators) (spectrum : ndarray)
  (ranked : list ndarray) (freq dir : list f64) (nparts n : Z) :
  nparts <= n ->
  exists m, reconcile_swells ext spectrum ranked freq dir nparts (Some n) false =
            ranked ++ replicate m (np.zeros_like spectrum).
Proof.
  intros Hn. unfold reconcile_swells.
  replace (n <? nparts) with false by (symmetry; apply Z.ltb_ge; lia). simpl.
  destruct (nparts <? n); [by eexists|]. exists 0%nat. by rewrite app_nil_r.
Qed.

Lemma reconcile_parts_pads (ext : collaborators) (spectrum : ndarray)
  (ranked : list ndarray) (freq dir : list f64) (nparts n : Z) :
  nparts <= n ->
  exists m, reconcile_parts ext spectrum ranked freq dir nparts (Some n) false =
            ranked ++ replicate m (np.zeros_like spectrum).
Proof.
  intros Hn. unfold reconcile_parts.
  replace (n <? nparts) with false by (symmetry; apply Z.ltb_ge; lia). simpl.
  destruct (nparts <? n); [by eexists|]. exists 0%nat. by rewrite app_nil_r.
Qed.

(** Ranking and padding keep what the partitions hold of a bin. *)
Lemma ranked_padded_share (spectrum : ndarray) (i j : nat) (x : f64)
  (parts ranked : list ndarray) (m : nat) :
  bin spectrum i j = Some x ->
  ranked ≡ₚ parts ->
  Forall (fun p => is_Some (bin p i j)) parts ->
  one_share x (map (fun p => bin0 p i j) parts) ->
  let out := ranked ++ replicate m (np.zeros_like spectrum) in
  Forall (fun p => is_Some (bin p i j)) out /\
  one_share x (map (fun p => bin0 p i j) out).
Proof.
  intros Hx Hp Hsome Hshare out. unfold out. split.
  - apply Forall_app. split; [by rewrite Hp|].
    apply Forall_forall. intros p Hin. apply elem_of_replicate in Hin as [-> _].
    rewrite (zeros_like_bin spectrum i j x Hx). by eexists.
  - rewrite map_app.
    replace (map (fun p => bin0 p i j) (replicate m (np.zeros_like spectrum)))
      with (replicate m F64.zero).
    + apply one_share_pad. eapply one_share_perm; [|exact Hshare].
      symmetry. by apply Permutation_map.
    + clear -Hx. induction m as [|m IH]; simpl; [done|]. f_equal; [|done].
      unfold bin0. by rewrite (zeros_like_bin spectrum i j x Hx).
Qed.

(** C2: with [combine=False] and a count that is not below the number of
    regions, the partitions of [np_ptm1] (wind sea slot included) and those
    of [np_ptm3] have the bins of the spectrum and add up to it bin for
    bin, for a region map that labels every bin and leaves no energy outside
    its regions.  [np_ptm1] always returns here; [np_ptm3] does unless its
    sort raises. *)
Theorem energy_conservation (ext : collaborators)
  (spectrum spectrum_smooth : ndarray) (freq dir : list f64)
  (wspd wdir dpt agefac wscut : f64) (n nparts : Z) :
  covers (partition ext spectrum_smooth) spectrum ->
  np.max (partition ext spectrum_smooth) = Ok nparts ->
  nparts <= n ->
  (exists out,
     np_ptm1 ext spectrum spectrum_smooth freq dir wspd wdir dpt agefac wscut
       (Some n) false = Ok out /\
     conserves spectrum out) /\
  (forall out,
     np_ptm3 ext spectrum spectrum_smooth freq dir (Some n) false = Ok out ->
     conserves spectrum out).
Proof.
  intros Hcov Hmax Hn.
  assert (forall i j x, bin spectrum i j = Some x ->
            exists label, bin (partition ext spectrum_smooth) i j = Some label /\
              label <= Z.of_nat (Z.to_nat nparts) /\
              (label < 1 -> F64.is_zero x = true)) as Hbin.
  { intros i j x Hx. destruct (Hcov i j x Hx) as (label & Hl & Hbg).
    exists label. split; [done|]. split; [|done].
    pose proof (max_bound _ _ _ _ _ Hmax Hl). lia. }
  split.
  - rewrite np_ptm1_unfold, Hmax. simpl. eexists. split; [reflexivity|].
    intros i j x Hx. destruct (Hbin i j x Hx) as (label & Hl & Hle & Hbg).
    destruct (reconcile_swells_pads ext spectrum
                (ptm1_ranked ext spectrum spectrum_smooth freq dir wspd wdir dpt
                   agefac wscut nparts) freq dir nparts n Hn) as [m ->].
    unfold ptm1_ranked, ptm1_loop.
    destruct (loop_one_share _ _ i j label x Hl Hx
                (windseamask ext freq dir wspd wdir dpt agefac) wscut
                (Z.to_nat nparts) Hle Hbg) as (Hw & Hs & Hshare).
    set (st := assign_loop _ _ _ _ _) in *.
    destruct (ranked_padded_share spectrum i j x (st.1 :: st.2)
                (st.1 :: sort_swells ext st.2 freq dir) m Hx)
      as [Hsome Hone].
    + constructor. apply sort_swells_perm.
    + by constructor.
    + exact Hshare.
    + split; [exact Hsome|]. intros Hnan. unfold bin_sum.
      apply one_share_sum; [exact Hone|exact Hnan].
  - intros out. unfold np_ptm3. rewrite Hmax. simpl.
    destruct (sorted_reverse _ _) as [sorted|] eqn:E; [|done]. simpl.
    intros H. injection H as <-.
    intros i j x Hx. destruct (Hbin i j x Hx) as (label & Hl & Hle & Hbg).
    destruct (reconcile_parts_pads ext spectrum (map snd sorted) freq dir
                nparts n Hn) as [m ->].
    destruct (parts_one_share _ _ i j label x Hl Hx (Z.to_nat nparts) Hle Hbg)
      as (Hs & Hshare).
    destruct (ranked_padded_share spectrum i j x
                (map (region_part (partition ext spectrum_smooth) spectrum)
                   (seq 0 (Z.to_nat nparts)))
                (map snd sorted) m Hx) as [Hsome Hone].
    + rewrite (sorted_reverse_perm _ _ _ E).
      rewrite snd_zip; [done|]. rewrite !length_map. lia.
    + exact Hs.
    + exact Hshare.
    + split; [exact Hsome|]. intros Hnan. unfold bin_sum.
      apply one_share_sum; [exact Hone|exact Hnan].
Qed.

Lemma example_covers : covers three_regions three_systems.
Proof.
  intros i j x H.
  do 9 (destruct i as [|i];
        [destruct j; [|by destruct j]; injection H as <-;
         eexists; split; [reflexivity|]; simpl; intros; (reflexivity || lia)|]).
  by destruct i.
Qed.

Lemma energy_conservation_witness :
  (exists out, example_ptm1 (Some 3) false = Ok out /\
     conserves three_systems out) /\
  (exists out, example_ptm3 (Some 3) false = Ok out /\
     conserves three_systems out).
Proof.
  destruct (energy_conservation example_ext three_systems three_systems
              example_freq example_dir F64.zero F64.zero (F64.of_Z 100)
              (F64.dec 17 10) (F64.dec 3333 10000) 3 3) as [H1 H3].
  - exact example_covers.
  - reflexivity.
  - lia.
  - split; [exact H1|].
    destruct (example_ptm3 (Some 3) false) as [out|] eqn:E; [|by vm_compute in E].
    exists out. split; [reflexivity|]. by apply H3.
Defined.

(** ** The ranking of np_ptm3 *)

Section Chain.
Context {A : Type}.

Lemma chain_snoc (R : A -> A -> Prop) (l : list A) (x : A) :
  chain R l -> (forall z, last l = Some z -> R z x) -> chain R (l ++ [x]).
Proof.
  induction 1 as [|y|y z l Hyz Hc IH]; intros Hlast; simpl.
  - constructor.
  - constructor; [by apply Hlast|constructor].
  - constructor; [done|]. apply IH. intros w Hw. by apply Hlast.
Qed.

Lemma chain_rev (R : A -> A -> Prop) (l : list A) : chain R l -> chain (flip R) (rev l).
Proof.
  induction 1 as [|y|y z l Hyz Hc IH]; simpl in *; try constructor.
  apply chain_snoc; [done|]. intros w Hw.
  rewrite last_snoc in Hw. by injection Hw as <-.
Qed.

Lemma chain_take (R : A -> A -> Prop) (l : list A) (n : nat) : chain R l -> chain R (take n l).
Proof.
  intros Hc. revert n. induction Hc as [|y|y z l Hyz Hc IH]; intros [|n]; simpl;
    try constructor.
  - destruct n; constructor.
  - specialize (IH n). destruct n; simpl in *; by constructor.
Qed.

Lemma chain_map {B} (R : A -> A -> Prop) (S : B -> B -> Prop) (f : A -> B)
  (l : list A) :
  (forall x y, R x y -> S (f x) (f y)) -> chain R l -> chain S (map f l).
Proof. intros Hf. induction 1; simpl; constructor; auto. Qed.

Lemma chain_impl_Forall (R S : A -> A -> Prop) (P : A -> Prop) (l : list A) :
  (forall x y, P x -> P y -> R x y -> S x y) ->
  Forall P l -> chain R l -> chain S l.
Proof.
  intros HS Hl Hc. induction Hc as [|y|y z l Hyz Hc IH]; try constructor.
  - inversion Hl as [|? ? Hy Hl']; subst. inversion Hl'; subst. by apply HS.
  - inversion Hl; subst. by apply IH.
Qed.
End Chain.

Lemma ltb_asym (x y : f64) : F64.ltb x y = true -> F64.ltb y x = false.
Proof.
  unfold F64.ltb, SFltb. rewrite (compare_antisym x y).
  by destruct (SFcompare x y) as [[]|].
Qed.

Lemma eqb_not_ltb (x y : f64) : F64.eqb x y = true -> F64.ltb y x = false.
Proof.
  unfold F64.eqb, F64.ltb, SFeqb, SFltb. rewrite (compare_antisym x y).
  by destruct (SFcompare x y) as [[]|].
Qed.

Lemma tuple_lt_true (u v : f64 * ndarray) : tuple_lt u v = Ok true -> key_le u v.
Proof.
  unfold tuple_lt, key_le. destruct (F64.eqb u.1 v.1) eqn:E.
  - intros _. by apply eqb_not_ltb.
  - intros H. injection H as H. by apply ltb_asym.
Qed.

Lemma tuple_lt_false (u v : f64 * ndarray) : tuple_lt u v = Ok false -> key_le v u.
Proof.
  unfold tuple_lt, key_le. destruct (F64.eqb u.1 v.1) eqn:E.
  - intros _. apply eqb_not_ltb. by apply eqb_sym.
  - intros H. by injection H as H.
Qed.

Lemma insertM_head (x : f64 * ndarray) (l r : list (f64 * ndarray)) :
  insertM tuple_lt x l = Ok r -> head r = Some x \/ head r = head l.
Proof.
  destruct l as [|y l]; simpl; intros H; [injection H as <-; by left|].
  destruct (tuple_lt y x) as [[]|]; simpl in H; try done.
  - destruct (insertM tuple_lt x l); simpl in H; [|done].
    injection H as <-. by right.
  - injection H as <-. by left.
Qed.

Lemma insertM_chain (x : f64 * ndarray) (l r : list (f64 * ndarray)) :
  chain key_le l -> insertM tuple_lt x l = Ok r -> chain key_le r.
Proof.
  intros Hc. revert r. induction Hc as [|y|y z l Hyz Hc IH]; intros r H.
  - injection H as <-. constructor.
  - simpl in H. destruct (tuple_lt y x) as [[]|] eqn:E; simpl in H; try done;
      injection H as <-; (constructor; [|constructor]).
    + by apply tuple_lt_true.
    + by apply tuple_lt_false.
  - remember (z :: l) as zl eqn:Hzl. simpl in H.
    destruct (tuple_lt y x) as [[]|] eqn:E; simpl in H; try done.
    + destruct (insertM tuple_lt x zl) as [r'|] eqn:E'; simpl in H; [|done].
      injection H as <-.
      pose proof (IH r' eq_refl) as Hr'.
      destruct (insertM_head _ _ _ E') as [Hh|Hh]; subst zl;
        destruct r' as [|h r']; try done; simpl in Hh; injection Hh as ->;
        (constructor; [|done]); [by apply tuple_lt_true|done].
    + injection H as <-. subst zl.
      constructor; [by apply tuple_lt_false|by constructor].
Qed.

Lemma sortM_chain (l r : list (f64 * ndarray)) :
  sortM tuple_lt l = Ok r -> chain key_le r.
Proof.
  revert r. induction l as [|x l IH]; simpl; intros r H.
  - injection H as <-. constructor.
  - destruct (sortM tuple_lt l) as [s|]; simpl in H; [|done].
    eapply insertM_chain; [by apply IH|done].
Qed.

Lemma zip_map_keys {K V} (f : V -> K) (l : list V) :
  Forall (fun u => u.1 = f u.2) (zip (map f l) l).
Proof. induction l; simpl; by constructor. Qed.

(** Whenever [np_ptm3] returns without combining or padding, no partition
    has an Hs below that of the next one. *)
Lemma ptm3_ranked (ext : collaborators) (spectrum spectrum_smooth : ndarray)
  (freq dir : list f64) (parts : option Z) (out : list ndarray) :
  match parts with
  | Some n => forall nparts,
      np.max (partition ext spectrum_smooth) = Ok nparts -> 0 <= n <= nparts
  | None => True
  end ->
  np_ptm3 ext spectrum spectrum_smooth freq dir parts false = Ok out ->
  chain (fun p q => F64.ltb (hs ext p freq dir) (hs ext q freq dir) = false) out.
Proof.
  intros Hparts. unfold np_ptm3.
  destruct (np.max (partition ext spectrum_smooth)) as [nparts|]; [|done]. simpl.
  destruct (sorted_reverse _ _) as [sorted|] eqn:E; [|done]. simpl.
  intros H. injection H as <-.
  assert (chain (fun p q => F64.ltb (hs ext p freq dir) (hs ext q freq dir) = false)
            (map snd sorted)) as Hc.
  { pose proof (sorted_reverse_perm _ _ _ E) as Hp.
    unfold sorted_reverse in E.
    destruct (sortM tuple_lt _) as [s|] eqn:Es; simpl in E; [|done].
    injection E as <-. apply sortM_chain, chain_rev in Es.
    apply (chain_map (fun u v => u.1 = hs ext u.2 freq dir /\
                                 v.1 = hs ext v.2 freq dir /\ flip key_le u v)).
    { intros u v (Hu & Hv & Huv). unfold flip, key_le in Huv.
      by rewrite <- Hu, <- Hv. }
    apply (chain_impl_Forall (flip key_le) _
             (fun u => u.1 = hs ext u.2 freq dir)); [done| |done].
    rewrite Hp. apply (zip_map_keys (fun p => hs ext p freq dir)). }
  destruct parts as [n|]; [|done].
  specialize (Hparts nparts eq_refl). unfold reconcile_parts.
  destruct (n <? nparts) eqn:En; simpl.
  - unfold slice_to. replace (n <? 0) with false by (symmetry; apply Z.ltb_ge; lia).
    by apply chain_take.
  - apply Z.ltb_ge in En.
    by replace (nparts <? n) with false by (symmetry; apply Z.ltb_ge; lia).
Qed.

(** * Further properties *)

(** ** The comparisons of floats are those of a linear order *)

Lemma ltb_key (x y : f64) :
  F64.ltb x y = true <->
  F64.is_nan x = false /\ F64.is_nan y = false /\
  key_lt (order_key x) (order_key y).
Proof.
  unfold F64.ltb, SFltb, key_lt.
  destruct x as [[]|[]| |[] m1 e1], y as [[]|[]| |[] m2 e2]; simpl;
    try (split; [try done; intros _; repeat split; lia
                |try done; intros (? & ? & ?); try done; lia]).
  - change (Pos.compare_cont Eq m1 m2) with (m1 ?= m2)%positive.
    destruct (Z.compare_spec e1 e2), (Pos.compare_spec m1 m2); simpl;
      (split; [try done; intros _; repeat split; lia
              |try done; intros (? & ? & ?); try done; lia]).
  - change (Pos.compare_cont Eq m1 m2) with (m1 ?= m2)%positive.
    destruct (Z.compare_spec e1 e2), (Pos.compare_spec m1 m2); simpl;
      (split; [try done; intros _; repeat split; lia
              |try done; intros (? & ? & ?); try done; lia]).
Qed.

Lemma leb_key (x y : f64) :
  F64.leb x y = true <->
  F64.is_nan x = false /\ F64.is_nan y = false /\
  ~ key_lt (order_key y) (order_key x).
Proof.
  unfold F64.leb, SFleb, key_lt.
  destruct x as [[]|[]| |[] m1 e1], y as [[]|[]| |[] m2 e2]; simpl;
    try (split; [try done; intros _; repeat split; lia
                |try done; intros (? & ? & ?); try done; lia]).
  - change (Pos.compare_cont Eq m1 m2) with (m1 ?= m2)%positive.
    destruct (Z.compare_spec e1 e2), (Pos.compare_spec m1 m2); simpl;
      (split; [try done; intros _; repeat split; lia
              |try done; intros (? & ? & ?); try done; lia]).
  - change (Pos.compare_cont Eq m1 m2) with (m1 ?= m2)%positive.
    destruct (Z.compare_spec e1 e2), (Pos.compare_spec m1 m2); simpl;
      (split; [try done; intros _; repeat split; lia
              |try done; intros (? & ? & ?); try done; lia]).
Qed.

Lemma ltb_trans (x y z : f64) :
  F64.ltb x y = true -> F64.ltb y z = true -> F64.ltb x z = true.
Proof.
  rewrite !ltb_key. unfold key_lt.
  destruct (order_key x) as [[? ?] ?], (order_key y) as [[? ?] ?],
    (order_key z) as [[? ?] ?]. simpl.
  intros (? & ? & ?) (? & ? & ?). repeat split; try done. lia.
Qed.

Lemma leb_ltb_trans (x y z : f64) :
  F64.leb x y = true -> F64.ltb y z = true -> F64.ltb x z = true.
Proof.
  rewrite !ltb_key, leb_key. unfold key_lt.
  destruct (order_key x) as [[? ?] ?], (order_key y) as [[? ?] ?],
    (order_key z) as [[? ?] ?]. simpl.
  intros (? & ? & ?) (? & ? & ?). repeat split; try done. lia.
Qed.

Lemma ltb_leb_trans (x y z : f64) :
  F64.ltb x y = true -> F64.leb y z = true -> F64.ltb x z = true.
Proof.
  rewrite !ltb_key, leb_key. unfold key_lt.
  destruct (order_key x) as [[? ?] ?], (order_key y) as [[? ?] ?],
    (order_key z) as [[? ?] ?]. simpl.
  intros (? & ? & ?) (? & ? & ?). repeat split; try done. lia.
Qed.

(** Two floats that are not NaN compare one way or the other. *)
Lemma ltb_false_leb (x y : f64) :
  F64.is_nan x = false -> F64.is_nan y = false ->
  F64.ltb x y = false -> F64.leb y x = true.
Proof.
  intros Hx Hy Hlt. apply leb_key. repeat split; try done.
  intros Hk. assert (F64.ltb x y = true) by (by apply ltb_key). congruence.
Qed.

(** ** The wind sea cut-off *)




(** ** Where np_ptm1 puts each region *)

Section InsertSorted.
Context {A : Type} (lt : A -> A -> bool).
Hypothesis lt_asym : forall x y, lt x y = true -> lt y x = false.

Let R (x y : A) : Prop := lt y x = false.

Lemma insert_by_HdRel (x y : A) (l : list A) :
  R y x -> HdRel R y l -> HdRel R y (insert_by lt x l).
Proof.
  intros Hyx Hl. destruct l as [|z l]; simpl; [by constructor|].
  destruct (lt z x); constructor; [|done]. by inversion Hl.
Qed.

Lemma insert_by_Sorted (x : A) (l : list A) :
  Sorted R l -> Sorted R (insert_by lt x l).
Proof.
  induction 1 as [|y l Hl IH Hhd]; simpl; [by repeat constructor|].
  destruct (lt y x) eqn:E.
  - constructor; [done|]. apply insert_by_HdRel; [|done]. by apply lt_asym.
  - repeat constructor; done.
Qed.

Lemma sort_by_Sorted (l : list A) : Sorted R (sort_by lt l).
Proof.
  induction l as [|x l IH]; simpl; [constructor|]. by apply insert_by_Sorted.
Qed.
End InsertSorted.

Lemma Sorted_map {A B} (R : A -> A -> Prop) (S : B -> B -> Prop) (f : A -> B)
  (l : list A) :
  (forall x y, R x y -> S (f x) (f y)) -> Sorted R l -> Sorted S (map f l).
Proof.
  intros Hf. induction 1 as [|x l Hl IH Hhd]; simpl; constructor; [done|].
  destruct Hhd; simpl; constructor. by apply Hf.
Qed.

Lemma Sorted_seq (start n : nat) : Sorted le (seq start n).
Proof.
  revert start. induction n as [|n IH]; intros start; simpl; constructor;
    [apply IH|].
  destruct n; simpl; constructor. lia.
Qed.

(** [sorted(zip(isort, parts))] for the indices of an [argsort]: the entry
    paired with index [k] comes out at position [k]. *)
Lemma sorted_zip_position (isort : list nat) (parts : list ndarray)
  (i k : nat) (p : ndarray) :
  isort ≡ₚ seq 0 (length parts) ->
  isort !! i = Some k -> parts !! i = Some p ->
  sorted_zip isort parts !! k = Some p.
Proof.
  intros Hperm Hk Hp. unfold sorted_zip.
  set (ltk := fun a b : nat * ndarray => Nat.ltb a.1 b.1).
  set (S := sort_by ltk (zip isort parts)).
  assert (length isort = length parts) as Hlen
    by (by rewrite (Permutation_length Hperm), length_seq).
  assert (map fst S = seq 0 (length parts)) as Hfst.
  { apply (Sorted_unique le).
    - apply (Sorted_map (fun a b : nat * ndarray => ltk b a = false)).
      + intros a b Hab. unfold ltk in Hab. apply Nat.ltb_ge in Hab. exact Hab.
      + apply sort_by_Sorted. intros a b. unfold ltk.
        rewrite Nat.ltb_lt, Nat.ltb_ge. lia.
    - apply Sorted_seq.
    - unfold S. rewrite (sort_by_perm ltk (zip isort parts)).
      rewrite fst_zip by lia. exact Hperm. }
  assert ((k, p) ∈ S) as Hin.
  { unfold S. rewrite (sort_by_perm ltk (zip isort parts)).
    apply list_elem_of_lookup. exists i.
    rewrite lookup_zip_with, Hk. simpl. by rewrite Hp. }
  apply list_elem_of_lookup in Hin as [j Hj].
  assert (map fst S !! j = Some k) as Hjk
    by (by rewrite list_lookup_fmap, Hj).
  rewrite Hfst in Hjk. apply lookup_seq in Hjk as [Hkj _]. simpl in Hkj.
  subst k. fold S. by rewrite list_lookup_fmap, Hj.
Qed.

(** X2: the ranking of [np_ptm1] puts the swell entry of region [i + 1] at
    the position that is the [i]-th value of [argsort(-hs)], for every
    spectrum: it applies the sorting permutation backwards. *)
Theorem ptm1_region_position (ext : collaborators)
  (swell_partitions : list ndarray) (freq dir : list f64)
  (i k : nat) (p : ndarray) :
  argsort (map (fun swell => F64.opp (hs ext swell freq dir)) swell_partitions)
    !! i = Some k ->
  swell_partitions !! i = Some p ->
  sort_swells ext swell_partitions freq dir !! k = Some p.
Proof.
  intros Hk Hp. unfold sort_swells. eapply sorted_zip_position; [|done..].
  rewrite argsort_perm. by rewrite length_map.
Qed.

Lemma ptm1_region_position_witness :
  sort_swells example_ext
    (ptm1_loop example_ext three_systems three_systems example_freq example_dir
       F64.zero F64.zero (F64.of_Z 100) (F64.dec 17 10) (F64.dec 3333 10000)
       3).2 example_freq example_dir !! 1%nat =
  Some (np.add (np.zeros_like three_systems)
          (region_part three_regions three_systems 0)).
Proof.
  apply (ptm1_region_position example_ext _ example_freq example_dir 0 1);
    by vm_compute.
Defined.

(** ** np_ptm3: what comes back, and when nothing does *)

Lemma np_ptm3_unfold (ext : collaborators) (spectrum spectrum_smooth : ndarray)
  (freq dir : list f64) (parts : option Z) (combine : bool) (out : list ndarray) :
  np_ptm3 ext spectrum spectrum_smooth freq dir parts combine = Ok out ->
  exists nparts ranked,
    np.max (partition ext spectrum_smooth) = Ok nparts /\
    ranked ≡ₚ map (region_part (partition ext spectrum_smooth) spectrum)
                (seq 0 (Z.to_nat nparts)) /\
    out = reconcile_parts ext spectrum ranked freq dir nparts parts combine.
Proof.
  unfold np_ptm3.
  destruct (np.max (partition ext spectrum_smooth)) as [nparts|]; [|done]. simpl.
  destruct (sorted_reverse _ _) as [sorted|] eqn:E; [|done]. simpl.
  intros H. injection H as <-. exists nparts, (map snd sorted).
  split; [done|]. split; [|done].
  rewrite (sorted_reverse_perm _ _ _ E).
  rewrite snd_zip; [done|]. rewrite !length_map. lia.
Qed.

(** X3: with [parts=None], [np_ptm3] returns the part of every watershed
    region exactly once (in some order), one array per region. *)
Theorem ptm3_all_regions (ext : collaborators)
  (spectrum spectrum_smooth : ndarray) (freq dir : list f64) (combine : bool)
  (out : list ndarray) :
  np_ptm3 ext spectrum spectrum_smooth freq dir None combine = Ok out ->
  exists nparts, np.max (partition ext spectrum_smooth) = Ok nparts /\
    out ≡ₚ map (region_part (partition ext spectrum_smooth) spectrum)
             (seq 0 (Z.to_nat nparts)) /\
    length out = Z.to_nat nparts.
Proof.
  intros H. apply np_ptm3_unfold in H as (nparts & ranked & Hmax & Hp & ->).
  exists nparts. split; [done|].
  change (reconcile_parts ext spectrum ranked freq dir nparts None combine)
    with ranked.
  split; [done|]. by rewrite (Permutation_length Hp), length_map, length_seq.
Qed.

Lemma ptm3_all_regions_witness :
  exists out, example_ptm3 None false = Ok out /\ length out = 3%nat.
Proof.
  destruct (example_ptm3 None false) as [out|] eqn:E; [|by vm_compute in E].
  exists out. split; [done|].
  destruct (ptm3_all_regions _ _ _ _ _ _ _ E) as (nparts & Hmax & _ & ->).
  vm_compute in Hmax. by injection Hmax as <-.
Defined.

(** X4: for [parts >= 0], [np_ptm3] returns exactly [parts] partitions
    whenever it returns, and the slots beyond the number of regions are zero
    arrays; there is no slot for a wind sea.  After a combination the
    length is that of [combine_partitions]. *)
Theorem ptm3_fixed_length (ext : collaborators)
  (spectrum spectrum_smooth : ndarray) (freq dir : list f64)
  (parts : Z) (combine : bool) (out : list ndarray) :
  0 <= parts ->
  (combine = true -> forall partitions f d n,
     0 <= n < Z.of_nat (length partitions) ->
     length (combine_partitions ext partitions f d n) = Z.to_nat n) ->
  np_ptm3 ext spectrum spectrum_smooth freq dir (Some parts) combine = Ok out ->
  exists nparts, np.max (partition ext spectrum_smooth) = Ok nparts /\
    length out = Z.to_nat parts /\
    (nparts < parts ->
     drop (Z.to_nat nparts) out =
     replicate (Z.to_nat parts - Z.to_nat nparts) (np.zeros_like spectrum)).
Proof.
  intros Hparts Hcomb H.
  apply np_ptm3_unfold in H as (nparts & ranked & Hmax & Hp & ->).
  exists nparts. split; [done|].
  assert (length ranked = Z.to_nat nparts) as Hlen
    by (by rewrite (Permutation_length Hp), length_map, length_seq).
  unfold reconcile_parts. split.
  - destruct (parts <? nparts) eqn:E1; simpl.
    + apply Z.ltb_lt in E1. destruct combine; simpl.
      * apply Hcomb; [done|lia].
      * unfold slice_to. destruct (parts <? 0) eqn:E2; [lia|].
        rewrite length_take. lia.
    + apply Z.ltb_ge in E1. destruct (nparts <? parts) eqn:E2.
      * rewrite length_app, length_replicate. lia.
      * apply Z.ltb_ge in E2. lia.
  - intros Hlt.
    replace (parts <? nparts) with false by (symmetry; apply Z.ltb_ge; lia).
    simpl. replace (nparts <? parts) with true by (symmetry; by apply Z.ltb_lt).
    rewrite <- Hlen, drop_app_length. f_equal. lia.
Qed.

Lemma ptm3_fixed_length_witness :
  exists out, example_ptm3 (Some 5) false = Ok out /\ length out = 5%nat.
Proof.
  destruct (example_ptm3 (Some 5) false) as [out|] eqn:E; [|by vm_compute in E].
  exists out. split; [done|].
  destruct (ptm3_fixed_length example_ext _ _ _ _ 5 false out ltac:(lia)
              (fun _ => example_combine_length) E) as (nparts & _ & Hlen & _).
  exact Hlen.
Defined.

Lemma compare_defined (x y : f64) :
  F64.is_nan x = false -> F64.is_nan y = false ->
  exists c, SFcompare x y = Some c.
Proof.
  destruct x as [[]|[]| |[] m1 e1], y as [[]|[]| |[] m2 e2]; simpl; try done;
    intros _ _; by eexists.
Qed.

Lemma trichotomy (x y : f64) :
  F64.is_nan x = false -> F64.is_nan y = false ->
  F64.ltb x y = true \/ F64.eqb x y = true \/ F64.ltb y x = true.
Proof.
  intros Hx Hy. destruct (compare_defined x y Hx Hy) as [c Hc].
  unfold F64.ltb, F64.eqb, SFltb, SFeqb. rewrite (compare_antisym x y), Hc.
  destruct c; simpl; auto.
Qed.

Lemma ltb_not_eqb (x y : f64) : F64.ltb x y = true -> F64.eqb x y = false.
Proof.
  unfold F64.ltb, F64.eqb, SFltb, SFeqb. by destruct (SFcompare x y) as [[]|].
Qed.

Lemma has_tie_perm (l l' : list f64) : l ≡ₚ l' -> has_tie l -> has_tie l'.
Proof.
  induction 1 as [|x l l' Hp IH|x y l|l l' l'' _ IH1 _ IH2]; simpl; [done| | |auto].
  - intros [(k' & Hin & Hk)|H]; [left|right; auto].
    exists k'. split; [by rewrite <- Hp|done].
  - intros [(k' & Hin & Hk)|[(k' & Hin & Hk)|H]].
    + apply elem_of_cons in Hin as [->|Hin].
      * left. exists y. split; [apply elem_of_cons; by left|by apply eqb_sym].
      * right. left. by exists k'.
    + left. exists k'. split; [apply elem_of_cons; by right|done].
    + right. by right.
Qed.

Lemma truth_many (a : list (list bool)) :
  (2 <= nbins a)%nat -> truth a = Raise ValueError.
Proof.
  unfold truth, nbins. destruct (concat a) as [|b [|b' l]]; simpl; [lia..|done].
Qed.

Lemma nbins_compare {A B C D} (f : C -> C -> D) (g1 g2 g : A -> B -> C)
  (m : list (list A)) (a : list (list B)) :
  nbins (zip_with (zip_with f) (zip_with (zip_with g1) m a)
           (zip_with (zip_with g2) m a)) =
  nbins (zip_with (zip_with g) m a).
Proof.
  unfold nbins. revert a. induction m as [|r m IH]; intros [|s a]; simpl; [done..|].
  rewrite !length_app, IH. f_equal. rewrite !length_zip_with. lia.
Qed.

(** Comparing the tuples of two regions that tie on Hs compares their
    arrays, and the truth value of an array of several bins is an error. *)
Lemma tuple_lt_tie (wm : intarray) (spectrum : ndarray) (h1 h2 : f64)
  (k1 k2 : nat) :
  (2 <= nbins (region_part wm spectrum 0))%nat ->
  F64.eqb h1 h2 = true ->
  tuple_lt (h1, region_part wm spectrum k1) (h2, region_part wm spectrum k2) =
  Raise ValueError.
Proof.
  intros Hn He. unfold tuple_lt. simpl. rewrite He.
  assert (Hsize : forall f : f64 -> f64 -> bool,
    (2 <= nbins (zip_with (zip_with f) (region_part wm spectrum k1)
                   (region_part wm spectrum k2)))%nat).
  { intros f. unfold region_part, np.where_eq in *.
    by rewrite (nbins_compare _ _ _
                  (fun w x => if w =? Z.of_nat 0 + 1 then x else F64.zero)). }
  by rewrite (truth_many _ (Hsize F64.eqb)).
Qed.

Lemma truth_raise (a : list (list bool)) (e : exn) :
  truth a = Raise e -> e = ValueError.
Proof.
  unfold truth. destruct (concat a) as [|b [|b' l]]; try done.
  by intros H; injection H as <-.
Qed.

Lemma tuple_lt_raise (u v : f64 * ndarray) (e : exn) :
  tuple_lt u v = Raise e -> e = ValueError.
Proof.
  unfold tuple_lt. destruct (F64.eqb u.1 v.1); [|done].
  destruct (truth (zip_with (zip_with F64.eqb) u.2 v.2)) as [[]|e'] eqn:E;
    simpl; try done.
  - apply truth_raise.
  - intros H; injection H as <-. by apply truth_raise in E.
Qed.

Lemma insertM_raise (x : f64 * ndarray) (l : list (f64 * ndarray)) (e : exn) :
  insertM tuple_lt x l = Raise e -> e = ValueError.
Proof.
  induction l as [|y l IH]; simpl; [done|].
  destruct (tuple_lt y x) as [[]|e'] eqn:E; simpl.
  - destruct (insertM tuple_lt x l); simpl; [done|].
    intros H; injection H as <-. by apply IH.
  - done.
  - intros H; injection H as <-. by apply tuple_lt_raise in E.
Qed.

Lemma sortM_raise (l : list (f64 * ndarray)) (e : exn) :
  sortM tuple_lt l = Raise e -> e = ValueError.
Proof.
  induction l as [|x l IH]; simpl; [done|].
  destruct (sortM tuple_lt l) as [s|e']; simpl.
  - apply insertM_raise.
  - intros H; injection H as <-. by apply IH.
Qed.

Section TieSort.
Variable Q : f64 * ndarray -> Prop.
Hypothesis Q_tie : forall u v,
  Q u -> Q v -> F64.eqb u.1 v.1 = true -> tuple_lt u v = Raise ValueError.
Hypothesis Q_nan : forall u, Q u -> F64.is_nan u.1 = false.

Let R (u v : f64 * ndarray) : Prop := F64.ltb u.1 v.1 = true.

Lemma tuple_key_trans : Transitive R.
Proof. intros u v w. apply ltb_trans. Qed.

Lemma tuple_lt_Ok (u v : f64 * ndarray) (b : bool) :
  Q u -> Q v -> tuple_lt u v = Ok b -> if b then R u v else R v u.
Proof.
  intros Hu Hv H. destruct (F64.eqb u.1 v.1) eqn:E.
  { rewrite (Q_tie u v Hu Hv E) in H. done. }
  unfold tuple_lt in H. rewrite E in H. injection H as <-.
  destruct (F64.ltb u.1 v.1) eqn:El; [done|].
  destruct (trichotomy u.1 v.1) as [?|[?|?]]; auto; congruence.
Qed.

Lemma insertM_Sorted (x : f64 * ndarray) (l r : list (f64 * ndarray)) :
  Q x -> Forall Q l -> Sorted R l -> insertM tuple_lt x l = Ok r -> Sorted R r.
Proof.
  intros Hx Hl Hs. revert r.
  induction Hs as [|y l Hs IH Hhd]; intros r H.
  - injection H as <-. by repeat constructor.
  - inversion Hl as [|? ? Hy Hl']; subst.
    remember l as l0 eqn:Hl0 in H. simpl in H.
    destruct (tuple_lt y x) as [[]|] eqn:E; simpl in H; try done.
    + destruct (insertM tuple_lt x l0) as [r'|] eqn:E'; simpl in H; [|done].
      injection H as <-. subst l0. constructor; [by apply IH|].
      apply (tuple_lt_Ok y x true Hy Hx) in E.
      destruct (insertM_head _ _ _ E') as [Hh|Hh];
        destruct r' as [|h r']; simpl in Hh; try done.
      * injection Hh as ->. by constructor.
      * destruct Hhd as [|z l Hyz]; [done|]. injection Hh as ->. by constructor.
    + injection H as <-. subst l0.
      apply (tuple_lt_Ok y x false Hy Hx) in E.
      repeat constructor; done.
Qed.

Lemma sortM_Sorted (l r : list (f64 * ndarray)) :
  Forall Q l -> sortM tuple_lt l = Ok r -> Sorted R r.
Proof.
  revert r. induction l as [|x l IH]; simpl; intros r Hl H.
  - injection H as <-. constructor.
  - inversion Hl; subst.
    destruct (sortM tuple_lt l) as [s|] eqn:E; simpl in H; [|done].
    eapply insertM_Sorted; [done| |by apply IH|done].
    by rewrite (sortM_perm _ _ _ E).
Qed.

Lemma Sorted_no_tie (r : list (f64 * ndarray)) :
  Sorted R r -> ~ has_tie (map fst r).
Proof.
  intros Hs. apply Sorted_StronglySorted in Hs; [|apply tuple_key_trans].
  induction Hs as [|u r Hs IH Hall]; simpl; [tauto|].
  intros [(k' & Hin & Hk)|H]; [|tauto].
  apply list_elem_of_fmap in Hin as (v & -> & Hv).
  apply (proj1 (Forall_forall _ _) Hall) in Hv.
  apply ltb_not_eqb in Hv. congruence.
Qed.

(** The tuple sort cannot return on keys with a tie. *)
Lemma sortM_tie (l : list (f64 * ndarray)) :
  Forall Q l -> has_tie (map fst l) -> sortM tuple_lt l = Raise ValueError.
Proof.
  intros Hl Htie. destruct (sortM tuple_lt l) as [r|e] eqn:E.
  - exfalso. apply (Sorted_no_tie r); [by eapply sortM_Sorted|].
    eapply has_tie_perm; [|exact Htie].
    apply Permutation_map. symmetry. by eapply sortM_perm.
  - f_equal. by eapply sortM_raise.
Qed.
End TieSort.

Lemma region_part_shape (wm : intarray) (spectrum : ndarray) (ipart : nat) :
  shape wm = shape spectrum ->
  shape (region_part wm spectrum ipart) = shape spectrum.
Proof.
  unfold region_part, np.where_eq, shape. revert spectrum.
  induction wm as [|r wm IH]; intros [|s spectrum]; simpl; try done.
  intros H. injection H as Hr Hwm. rewrite IH; [|done].
  f_equal. rewrite length_zip_with. lia.
Qed.

Lemma nbins_shape {A B} (a : list (list A)) (b : list (list B)) :
  shape a = shape b -> nbins a = nbins b.
Proof.
  unfold nbins, shape. revert b.
  induction a as [|r a IH]; intros [|s b]; simpl; try done.
  intros H. injection H as Hr Ha. rewrite !length_app, Hr. f_equal. by apply IH.
Qed.

(** ** np_ptm3: ties and strict ranking *)

Section Ptm3Ties.
Variable ext : collaborators.
Variables spectrum spectrum_smooth : ndarray.
Variables freq dir : list f64.

Let wm := partition ext spectrum_smooth.
Let Q (u : f64 * ndarray) : Prop :=
  F64.is_nan u.1 = false /\ exists k, u.2 = region_part wm spectrum k.

Lemma ptm3_keys (nparts : Z) :
  (forall k, (k < Z.to_nat nparts)%nat ->
     F64.is_nan (hs ext (region_part wm spectrum k) freq dir) = false) ->
  Forall Q
    (zip (map (fun p => hs ext p freq dir)
            (map (region_part wm spectrum) (seq 0 (Z.to_nat nparts))))
         (map (region_part wm spectrum) (seq 0 (Z.to_nat nparts)))).
Proof.
  intros Hnan. apply Forall_forall. intros [h p] Hin.
  apply list_elem_of_lookup in Hin as (i & Hi).
  rewrite lookup_zip_with in Hi.
  rewrite !list_lookup_fmap in Hi.
  destruct (seq 0 (Z.to_nat nparts) !! i) as [k|] eqn:Ek; simpl in Hi; [|done].
  injection Hi as <- <-. apply lookup_seq in Ek as [-> Hlt]. simpl.
  split; [by apply Hnan|by exists i].
Qed.

Lemma ptm3_keys_tie (u v : f64 * ndarray) :
  shape wm = shape spectrum -> (2 <= nbins spectrum)%nat ->
  Q u -> Q v -> F64.eqb u.1 v.1 = true -> tuple_lt u v = Raise ValueError.
Proof.
  intros Hshape Hn [_ [k1 H1]] [_ [k2 H2]] He.
  destruct u as [h1 p1], v as [h2 p2]. simpl in *. subst p1 p2.
  apply tuple_lt_tie; [|done].
  by rewrite (nbins_shape _ spectrum) by by apply region_part_shape.
Qed.
End Ptm3Ties.

(** X5: on a spectrum of at least two bins, [np_ptm3] raises ValueError
    when two watershed regions have equal Hs and no region's Hs is NaN:
    the sort of the tuples (hs, partition) falls through to comparing the
    arrays, whose truth value is ambiguous. *)
Theorem ptm3_tie_raises (ext : collaborators)
  (spectrum spectrum_smooth : ndarray) (freq dir : list f64)
  (parts : option Z) (combine : bool) (nparts : Z) :
  let wm := partition ext spectrum_smooth in
  np.max wm = Ok nparts ->
  shape wm = shape spectrum -> (2 <= nbins spectrum)%nat ->
  (forall k, (k < Z.to_nat nparts)%nat ->
     F64.is_nan (hs ext (region_part wm spectrum k) freq dir) = false) ->
  has_tie (map (fun k => hs ext (region_part wm spectrum k) freq dir)
             (seq 0 (Z.to_nat nparts))) ->
  np_ptm3 ext spectrum spectrum_smooth freq dir parts combine = Raise ValueError.
Proof.
  intros wm Hmax Hshape Hn Hnan Htie. unfold np_ptm3. fold wm. rewrite Hmax. simpl.
  unfold sorted_reverse.
  rewrite (sortM_tie
             (fun u => F64.is_nan u.1 = false /\
                       exists k, u.2 = region_part wm spectrum k)); [done| | | |].
  - intros u v. by apply ptm3_keys_tie.
  - by intros u [H _].
  - apply Forall_rev. by apply ptm3_keys.
  - rewrite map_rev. apply (has_tie_perm _ _ (Permutation_rev _)).
    rewrite fst_zip by (rewrite !length_map; lia).
    by rewrite map_map.
Qed.

Lemma ptm3_tie_raises_witness :
  np_ptm3 two_null_regions flat_calm flat_calm example_freq example_dir
    None false = Raise ValueError.
Proof.
  apply (ptm3_tie_raises two_null_regions flat_calm flat_calm example_freq
           example_dir None false 2).
  - reflexivity.
  - reflexivity.
  - vm_compute. lia.
  - intros [|[|k]] Hk; [by vm_compute..|vm_compute in Hk; lia].
  - left. eexists. split; [apply list_elem_of_here|by vm_compute].
Defined.

Lemma Sorted_chain {A} (R : A -> A -> Prop) (l : list A) : Sorted R l -> chain R l.
Proof.
  induction 1 as [|x l Hs IH Hhd]; [constructor|].
  destruct Hhd as [|y l Hxy]; by constructor.
Qed.

(** X6: on a spectrum of at least two bins whose regions all have an Hs
    that is not NaN, the partitions that [np_ptm3] returns without combining
    or padding are in strictly decreasing order of Hs. *)
Theorem ptm3_strictly_ranked (ext : collaborators)
  (spectrum spectrum_smooth : ndarray) (freq dir : list f64)
  (parts : option Z) (nparts : Z) (out : list ndarray) :
  let wm := partition ext spectrum_smooth in
  np.max wm = Ok nparts ->
  shape wm = shape spectrum -> (2 <= nbins spectrum)%nat ->
  (forall k, (k < Z.to_nat nparts)%nat ->
     F64.is_nan (hs ext (region_part wm spectrum k) freq dir) = false) ->
  match parts with Some n => 0 <= n <= nparts | None => True end ->
  np_ptm3 ext spectrum spectrum_smooth freq dir parts false = Ok out ->
  chain (fun p q => F64.ltb (hs ext q freq dir) (hs ext p freq dir) = true) out.
Proof.
  intros wm Hmax Hshape Hn Hnan Hparts. unfold np_ptm3. fold wm. rewrite Hmax. simpl.
  destruct (sorted_reverse _ _) as [sorted|] eqn:E; [|done]. simpl.
  intros H. injection H as <-.
  assert (chain (fun p q => F64.ltb (hs ext q freq dir) (hs ext p freq dir) = true)
            (map snd sorted)) as Hc.
  { pose proof (sorted_reverse_perm _ _ _ E) as Hp.
    unfold sorted_reverse in E.
    destruct (sortM tuple_lt _) as [s|] eqn:Es; simpl in E; [|done].
    injection E as <-.
    apply (sortM_Sorted
             (fun u => F64.is_nan u.1 = false /\
                       exists k, u.2 = region_part wm spectrum k)) in Es.
    - apply Sorted_chain, chain_rev in Es.
      apply (chain_map (fun u v => u.1 = hs ext u.2 freq dir /\
                                   v.1 = hs ext v.2 freq dir /\
                                   F64.ltb v.1 u.1 = true)).
      { intros u v (Hu & Hv & Huv). by rewrite <- Hu, <- Hv. }
      eapply (chain_impl_Forall _ _ (fun u => u.1 = hs ext u.2 freq dir));
        [| |exact Es].
      + intros u v Hu Hv Huv. done.
      + rewrite Hp. apply (zip_map_keys (fun p => hs ext p freq dir)).
    - intros u v. by apply ptm3_keys_tie.
    - by intros u [H _].
    - apply Forall_rev. by apply ptm3_keys. }
  destruct parts as [n|]; [|done].
  unfold reconcile_parts.
  destruct (n <? nparts) eqn:En; simpl.
  - unfold slice_to. replace (n <? 0) with false by (symmetry; apply Z.ltb_ge; lia).
    by apply chain_take.
  - apply Z.ltb_ge in En.
    by replace (nparts <? n) with false by (symmetry; apply Z.ltb_ge; lia).
Qed.

Lemma ptm3_strictly_ranked_witness :
  exists out, example_ptm3 (Some 2) false = Ok out /\
    chain (fun p q => F64.ltb (hs_spec q example_freq example_dir)
                        (hs_spec p example_freq example_dir) = true) out.
Proof.
  destruct (example_ptm3 (Some 2) false) as [out|] eqn:E; [|by vm_compute in E].
  exists out. split; [done|].
  apply (ptm3_strictly_ranked example_ext three_systems three_systems
           example_freq example_dir (Some 2) 3 out).
  - reflexivity.
  - reflexivity.
  - vm_compute. lia.
  - intros [|[|[|k]]] Hk; [by vm_compute..|vm_compute in Hk; lia].
  - lia.
  - exact E.
Defined.

(** ** Partition.ptm4: sea and swell share the bins out *)

Lemma fillna0_not_nan (x : f64) : F64.is_nan (fillna0 x) = false.
Proof. unfold fillna0. by destruct (F64.is_nan x) eqn:E. Qed.

Lemma add_zero_r_eqb (x : f64) :
  F64.is_nan x = false -> F64.eqb (F64.add x F64.zero) x = true.
Proof. intros Hx. rewrite add_zero_comm. by apply add_zero_l_eqb. Qed.

Lemma where_mask_bin (mask : list (list bool)) (values : ndarray)
  (i j : nat) (b : bool) (x : f64) :
  bin mask i j = Some b -> bin values i j = Some x ->
  bin (map (map fillna0) (where_mask mask values)) i j =
  Some (if b then fillna0 x else F64.zero).
Proof.
  unfold bin, where_mask. intros Hb Hx.
  destruct (mask !! i) as [mrow|] eqn:Hmrow; [|done].
  destruct (values !! i) as [row|] eqn:Hrow; [|done]. simpl in *.
  rewrite list_lookup_fmap, lookup_zip_with, Hmrow, Hrow. simpl.
  rewrite list_lookup_fmap, lookup_zip_with, Hb, Hx. simpl.
  by destruct b.
Qed.

Lemma wam_mask_bin (wave_celerity wsc : list f64) (i j : nat) (c w : f64) :
  wave_celerity !! i = Some c -> wsc !! j = Some w ->
  bin (wam_mask wave_celerity wsc) i j = Some (F64.leb c w).
Proof.
  unfold bin, wam_mask. intros Hc Hw.
  rewrite list_lookup_fmap, Hc. simpl. by rewrite list_lookup_fmap, Hw.
Qed.

Lemma negb_bin (mask : list (list bool)) (i j : nat) (b : bool) :
  bin mask i j = Some b -> bin (map (map negb) mask) i j = Some (negb b).
Proof.
  unfold bin. intros Hb. rewrite list_lookup_fmap.
  destruct (mask !! i) as [mrow|]; [|done]. simpl in *.
  by rewrite list_lookup_fmap, Hb.
Qed.

Lemma ptm4_bins (ext : collaborators) (dset : DataArray)
  (wspd wdir dpt agefac : f64) (out : PartArray) :
  ptm4 ext dset wspd wdir dpt agefac = Ok out ->
  exists sorted freq dir values sea swell,
    sortby_dir dset = Ok sorted /\
    sortby_freq sorted = Efth freq dir values /\
    out = {| part_freq := freq; part_dir := dir; part_values := [sea; swell] |} /\
    forall i j c d x,
      celerity ext freq dpt !! i = Some c -> dir !! j = Some d ->
      bin values i j = Some x ->
      let windsea := F64.leb c (wind_component ext wspd wdir agefac d) in
      bin sea i j = Some (if windsea then fillna0 x else F64.zero) /\
      bin swell i j = Some (if negb windsea then fillna0 x else F64.zero).
Proof.
  unfold ptm4.
  destruct (sortby_dir dset) as [sorted|] eqn:Es; [|done]. simpl.
  destruct (sortby_freq sorted) as [freq dir values|] eqn:Ef; [|done].
  intros H. injection H as <-.
  eexists sorted, freq, dir, values, _, _.
  split; [reflexivity|]. split; [exact Ef|]. split; [reflexivity|].
  intros i j c d x Hc Hd Hx.
  assert (map (wind_component ext wspd wdir agefac) dir !! j =
          Some (wind_component ext wspd wdir agefac d)) as Hw
    by (by rewrite list_lookup_fmap, Hd).
  pose proof (wam_mask_bin _ _ _ _ _ _ Hc Hw) as Hm.
  split.
  - exact (where_mask_bin _ _ _ _ _ _ Hm Hx).
  - exact (where_mask_bin _ _ _ _ _ _ (negb_bin _ _ _ _ Hm) Hx).
Qed.

(** X7: [ptm4] returns two partitions, sea and swell, of the spectrum sorted
    along its coordinates, and every bin goes to exactly one of them: to the
    sea when the celerity of its frequency is at most the wind component of
    its direction, to the swell otherwise (also when the comparison involves
    a NaN).  The other partition holds +0.0 there, so that the two add up
    to the bin (a NaN density counting as zero). *)
Theorem ptm4_split (ext : collaborators) (dset : DataArray)
  (wspd wdir dpt agefac : f64) (out : PartArray) :
  ptm4 ext dset wspd wdir dpt agefac = Ok out ->
  exists sorted freq dir values sea swell,
    sortby_dir dset = Ok sorted /\
    sortby_freq sorted = Efth freq dir values /\
    out = {| part_freq := freq; part_dir := dir; part_values := [sea; swell] |} /\
    forall i j c d x,
      celerity ext freq dpt !! i = Some c -> dir !! j = Some d ->
      bin values i j = Some x ->
      exists h l,
        bin sea i j = Some h /\ bin swell i j = Some l /\
        (F64.leb c (wind_component ext wspd wdir agefac d) = true ->
           h = fillna0 x /\ l = F64.zero) /\
        (F64.leb c (wind_component ext wspd wdir agefac d) = false ->
           h = F64.zero /\ l = fillna0 x) /\
        bin (np.add sea swell) i j = Some (F64.add h l) /\
        F64.eqb (F64.add h l) (fillna0 x) = true.
Proof.
  intros H.
  destruct (ptm4_bins _ _ _ _ _ _ _ H)
    as (sorted & freq & dir & values & sea & swell & Hs & Hf & -> & Hbins).
  exists sorted, freq, dir, values, sea, swell.
  split; [done|]. split; [done|]. split; [done|].
  intros i j c d x Hc Hd Hx.
  destruct (Hbins i j c d x Hc Hd Hx) as [Hsea Hswell].
  eexists _, _. split; [exact Hsea|]. split; [exact Hswell|].
  split; [|split; [|split; [by apply add_bin|]]].
  - by intros ->.
  - by intros ->.
  - pose proof (fillna0_not_nan x).
    destruct (F64.leb c _); simpl;
      [by apply add_zero_r_eqb|by apply add_zero_l_eqb].
Qed.

Lemma ptm4_split_witness :
  exists out,
    ptm4 example_ext two_frequencies (F64.of_Z 10) F64.zero (F64.of_Z 100)
      (F64.dec 17 10) = Ok out /\
    length (part_values out) = 2%nat.
Proof.
  destruct (ptm4 example_ext two_frequencies (F64.of_Z 10) F64.zero
              (F64.of_Z 100) (F64.dec 17 10)) as [out|] eqn:E;
    [|by vm_compute in E].
  exists out. split; [done|].
  by destruct (ptm4_split _ _ _ _ _ _ _ E)
    as (sorted & freq & dir & values & sea & swell & _ & _ & -> & _).
Defined.

Lemma mul_nan_r (x : f64) : F64.mul x F64.nan = F64.nan.
Proof. by destruct x as [[]|[]| |]. Qed.

Lemma mul_nan_l (x : f64) : F64.mul F64.nan x = F64.nan.
Proof. done. Qed.

Lemma leb_nan_r (x : f64) : F64.leb x F64.nan = false.
Proof. by destruct x as [[]|[]| |[]]. Qed.

Lemma is_nan_eq (x : f64) : F64.is_nan x = true -> x = F64.nan.
Proof. by destruct x. Qed.

(** X8: [ptm4] does not reject a missing wind.  With a NaN wind speed no
    bin passes the wave age test: the sea partition is +0.0 everywhere and
    the swell partition is the whole spectrum. *)
Theorem ptm4_missing_wind (ext : collaborators) (dset : DataArray)
  (wspd wdir dpt agefac : f64) (out : PartArray) :
  F64.is_nan wspd = true ->
  ptm4 ext dset wspd wdir dpt agefac = Ok out ->
  exists sorted freq dir values sea swell,
    sortby_dir dset = Ok sorted /\
    sortby_freq sorted = Efth freq dir values /\
    out = {| part_freq := freq; part_dir := dir; part_values := [sea; swell] |} /\
    forall i j c d x,
      celerity ext freq dpt !! i = Some c -> dir !! j = Some d ->
      bin values i j = Some x ->
      bin sea i j = Some F64.zero /\ bin swell i j = Some (fillna0 x).
Proof.
  intros Hnan H. apply is_nan_eq in Hnan. subst wspd.
  destruct (ptm4_bins _ _ _ _ _ _ _ H)
    as (sorted & freq & dir & values & sea & swell & Hs & Hf & -> & Hbins).
  exists sorted, freq, dir, values, sea, swell.
  split; [done|]. split; [done|]. split; [done|].
  intros i j c d x Hc Hd Hx.
  destruct (Hbins i j c d x Hc Hd Hx) as [Hsea Hswell].
  unfold wind_component in Hsea, Hswell.
  rewrite mul_nan_r, mul_nan_l, leb_nan_r in Hsea, Hswell. done.
Qed.

Lemma ptm4_missing_wind_witness :
  exists out,
    ptm4 example_ext two_frequencies F64.nan F64.zero (F64.of_Z 100)
      (F64.dec 17 10) = Ok out /\
    part_values out =
      [[[F64.zero]; [F64.zero]]; [[F64.of_Z 1]; [F64.of_Z 2]]].
Proof.
  destruct (ptm4 example_ext two_frequencies F64.nan F64.zero (F64.of_Z 100)
              (F64.dec 17 10)) as [out|] eqn:E; [|by vm_compute in E].
  exists out. split; [done|].
  destruct (ptm4_missing_wind example_ext two_frequencies F64.nan F64.zero
              (F64.of_Z 100) (F64.dec 17 10) out eq_refl E)
    as (sorted & freq & dir & values & sea & swell & _ & _ & -> & _).
  vm_compute in E. injection E as _ _ <- <-. reflexivity.
Defined.

(** ** Partition.ptm5: cut-offs off the grid *)

Lemma geb_nan_r (x : f64) : F64.geb x F64.nan = false.
Proof. by destruct x as [[]|[]| |[]]. Qed.

Lemma where_freq_none (cond : f64 -> bool) (freq : list f64) (values : ndarray)
  (i j : nat) (h : f64) :
  (forall f, cond f = false) ->
  bin (map (map fillna0) (where_freq cond freq values)) i j = Some h ->
  h = F64.zero.
Proof.
  unfold bin, where_freq. intros Hcond.
  rewrite list_lookup_fmap, lookup_zip_with.
  destruct (freq !! i) as [f|]; [|done]. simpl.
  destruct (values !! i) as [row|]; [|done]. simpl.
  rewrite !list_lookup_fmap, Hcond.
  destruct (row !! j) as [x|]; [|done]. simpl.
  by intros H; injection H as <-.
Qed.

(** X9: [ptm5] does not reject a NaN cut-off.  Whatever [interpolate] is,
    no frequency compares with it: both partitions that come back are +0.0
    in every bin. *)
Theorem ptm5_nan_cutoff (regrid_spec : DataArray -> list f64 -> DataArray)
  (dset : DataArray) (fcut : f64) (interpolate : bool) (out : PartArray) :
  F64.is_nan fcut = true ->
  ptm5 regrid_spec dset fcut interpolate = Ok out ->
  exists hf lf, part_values out = [hf; lf] /\
    forall i j h, bin hf i j = Some h \/ bin lf i j = Some h -> h = F64.zero.
Proof.
  intros Hnan. apply is_nan_eq in Hnan. subst fcut. unfold ptm5.
  destruct (sortby_dir dset) as [sorted|]; [|done]. simpl.
  match goal with |- match ?d with _ => _ end = _ -> _ => destruct d as [freq dir values|] end;
    [|done].
  intros H. injection H as <-. eexists _, _. split; [reflexivity|].
  intros i j h [H|H]; (apply where_freq_none in H; [done|]); intros f;
    first [apply geb_nan_r|apply leb_nan_r].
Qed.

Lemma ptm5_nan_cutoff_witness :
  exists out, ptm5 no_regrid two_frequencies F64.nan true = Ok out /\
    part_values out = [[[F64.zero]; [F64.zero]]; [[F64.zero]; [F64.zero]]].
Proof.
  destruct (ptm5 no_regrid two_frequencies F64.nan true) as [out|] eqn:E;
    [|by vm_compute in E].
  exists out. split; [done|].
  destruct (ptm5_nan_cutoff no_regrid two_frequencies F64.nan true out eq_refl E)
    as (hf & lf & Hout & _).
  vm_compute in E. by injection E as <-.
Defined.

Lemma take_idx_elem {A} (idx : list nat) (l : list A) (x : A) :
  x ∈ take_idx idx l -> x ∈ l.
Proof.
  unfold take_idx. intros H. apply list_elem_of_omap in H as (i & _ & Hi).
  by eapply list_elem_of_lookup_2.
Qed.

Lemma sortby_freq_elem (dset : DataArray) (f : f64) :
  f ∈ dset_freq (sortby_freq dset) -> f ∈ dset_freq dset.
Proof. destruct dset; simpl; apply take_idx_elem. Qed.

Lemma sortby_dir_freq (dset sorted : DataArray) :
  sortby_dir dset = Ok sorted -> dset_freq sorted = dset_freq dset.
Proof. destruct dset; simpl; [|done]. by intros H; injection H as <-. Qed.

(** X10: with [interpolate=False] and a cut-off that is no frequency of the
    grid (and no NaN on either side), [ptm5] shares the bins out: those
    below the cut-off go to the low-frequency partition, those above to the
    high-frequency one, the other partition holds +0.0 and the two add up
    to the spectrum in every bin. *)
Theorem ptm5_cutoff_between (regrid_spec : DataArray -> list f64 -> DataArray)
  (dset : DataArray) (fcut : f64) (out : PartArray) :
  F64.is_nan fcut = false ->
  (forall f, f ∈ dset_freq dset ->
     F64.is_nan f = false /\ F64.eqb f fcut = false) ->
  ptm5 regrid_spec dset fcut false = Ok out ->
  exists sorted freq dir values hf lf,
    sortby_dir dset = Ok sorted /\
    sortby_freq sorted = Efth freq dir values /\
    out = {| part_freq := freq; part_dir := dir; part_values := [hf; lf] |} /\
    forall i j f x,
      freq !! i = Some f -> bin values i j = Some x ->
      exists h l,
        bin hf i j = Some h /\ bin lf i j = Some l /\
        (F64.ltb f fcut = true /\ h = F64.zero /\ l = fillna0 x \/
         F64.gtb f fcut = true /\ h = fillna0 x /\ l = F64.zero) /\
        bin (np.add hf lf) i j = Some (F64.add h l) /\
        F64.eqb (F64.add h l) (fillna0 x) = true.
Proof.
  intros Hcut Hgrid. unfold ptm5.
  destruct (sortby_dir dset) as [sorted|] eqn:Es; [|done]. simpl.
  destruct (sortby_freq sorted) as [freq dir values|] eqn:Ef; [|done].
  intros H. injection H as <-.
  eexists sorted, freq, dir, values, _, _.
  split; [reflexivity|]. split; [exact Ef|]. split; [reflexivity|].
  intros i j f x Hf Hx.
  pose proof (where_freq_bin (fun f => F64.geb f fcut) _ _ _ _ _ _ Hf Hx) as Hh.
  pose proof (where_freq_bin (fun f => F64.leb f fcut) _ _ _ _ _ _ Hf Hx) as Hl.
  eexists _, _. split; [exact Hh|]. split; [exact Hl|].
  assert (f ∈ dset_freq dset) as Hin.
  { rewrite <- (sortby_dir_freq _ _ Es). apply sortby_freq_elem.
    rewrite Ef. simpl. by eapply list_elem_of_lookup_2. }
  destruct (Hgrid f Hin) as [Hfn Hfe].
  pose proof (fillna0_not_nan x) as Hx0.
  split; [|split; [by apply add_bin|]]; simpl;
    destruct (trichotomy f fcut Hfn Hcut) as [Hc|[Hc|Hc]]; try congruence.
  - left. apply ltb_leb_geb in Hc as Hc'. destruct Hc' as [-> ->]. done.
  - right. split; [done|]. apply gtb_leb_geb in Hc as [-> ->]. done.
  - apply ltb_leb_geb in Hc as [-> ->]. by apply add_zero_l_eqb.
  - apply gtb_leb_geb in Hc as [-> ->]. by apply add_zero_r_eqb.
Qed.

Lemma ptm5_cutoff_between_witness :
  exists out, ptm5 no_regrid two_frequencies (F64.dec 15 100) false = Ok out /\
    part_values out = [[[F64.zero]; [F64.of_Z 2]]; [[F64.of_Z 1]; [F64.zero]]].
Proof.
  destruct (ptm5 no_regrid two_frequencies (F64.dec 15 100) false) as [out|] eqn:E;
    [|by vm_compute in E].
  exists out. split; [done|].
  destruct (ptm5_cutoff_between no_regrid two_frequencies (F64.dec 15 100) out)
    as (sorted & freq & dir & values & hf & lf & _ & _ & -> & _);
    [reflexivity| |exact E|].
  - intros f Hf. simpl in Hf.
    apply elem_of_cons in Hf as [->|Hf]; [by vm_compute|].
    apply elem_of_cons in Hf as [->|Hf]; [by vm_compute|].
    by apply elem_of_nil in Hf.
  - vm_compute in E. injection E as _ _ <- <-. reflexivity.
Defined.

(** ** sortby: the coordinates of the partitioned spectra *)

Lemma np_lt_asym (a b : f64) : np.lt a b = true -> np.lt b a = false.
Proof.
  unfold np.lt. intros H. apply orb_true_iff in H as [H|H].
  - pose proof (proj1 (ltb_key a b) H) as (Ha & Hb & _).
    rewrite Ha, (ltb_asym _ _ H). done.
  - apply andb_true_iff in H as [Hb Ha]. apply is_nan_eq in Hb. subst b.
    destruct (F64.is_nan a); [done|]. by destruct a.
Qed.

Lemma zip_seq_lookup {A} (l : list A) :
  Forall (fun p => l !! p.2 = Some p.1) (zip l (seq 0 (length l))).
Proof.
  apply Forall_lookup. intros i [x k] Hi.
  rewrite lookup_zip_with in Hi.
  destruct (l !! i) as [y|] eqn:Hy; [|done]. simpl in Hi.
  destruct (seq 0 (length l) !! i) as [k'|] eqn:Hk; [|done]. simpl in Hi.
  injection Hi as -> ->. apply lookup_seq in Hk as [-> _]. done.
Qed.

Lemma take_idx_pairs {A} (l : list A) (S : list (A * nat)) :
  Forall (fun p => l !! p.2 = Some p.1) S ->
  take_idx (map snd S) l = map fst S.
Proof.
  unfold take_idx. induction 1 as [|p S Hp _ IH]; simpl; [done|].
  rewrite Hp. simpl. f_equal. exact IH.
Qed.

Lemma take_argsort (keys : list f64) :
  take_idx (argsort keys) keys =
  map fst (sort_by (fun a b : f64 * nat => np.lt a.1 b.1)
             (zip keys (seq 0 (length keys)))).
Proof.
  unfold argsort. apply take_idx_pairs.
  rewrite (sort_by_perm _ (zip keys (seq 0 (length keys)))).
  apply zip_seq_lookup.
Qed.

Lemma take_argsort_perm (keys : list f64) :
  take_idx (argsort keys) keys ≡ₚ keys.
Proof.
  rewrite take_argsort, (sort_by_perm _ (zip keys (seq 0 (length keys)))).
  rewrite fst_zip; [done|]. rewrite length_seq. lia.
Qed.

Lemma take_argsort_ascending (keys : list f64) :
  ascending (take_idx (argsort keys) keys).
Proof.
  rewrite take_argsort. unfold ascending.
  apply (Sorted_map (fun a b : f64 * nat => np.lt b.1 a.1 = false)); [done|].
  apply (sort_by_Sorted (fun a b : f64 * nat => np.lt a.1 b.1)).
  intros a b. apply np_lt_asym.
Qed.

(** X11: [ptm4] raises KeyError on a spectrum without a direction dimension
    and returns on every other one; what it returns has two partitions on
    the coordinates of the input put in ascending order, frequencies and
    directions alike. *)
Theorem ptm4_sorted_coordinates (ext : collaborators) (dset : DataArray)
  (wspd wdir dpt agefac : f64) :
  match dset with
  | Ef _ _ => ptm4 ext dset wspd wdir dpt agefac = Raise KeyError
  | Efth freq dir _ =>
      exists out, ptm4 ext dset wspd wdir dpt agefac = Ok out /\
        part_freq out ≡ₚ freq /\ ascending (part_freq out) /\
        part_dir out ≡ₚ dir /\ ascending (part_dir out) /\
        length (part_values out) = 2%nat
  end.
Proof.
  destruct dset as [freq dir values|freq values]; [|done].
  eexists. split; [reflexivity|]. simpl.
  split; [apply take_argsort_perm|]. split; [apply take_argsort_ascending|].
  split; [apply take_argsort_perm|]. split; [apply take_argsort_ascending|done].
Qed.

(** X12: with [interpolate=False], [ptm5] never regrids: it raises KeyError
    on a spectrum without a direction dimension and otherwise returns two
    partitions on the coordinates of the input put in ascending order,
    whatever the cut-off. *)
Theorem ptm5_sorted_coordinates
  (regrid_spec : DataArray -> list f64 -> DataArray)
  (dset : DataArray) (fcut : f64) :
  match dset with
  | Ef _ _ => ptm5 regrid_spec dset fcut false = Raise KeyError
  | Efth freq dir _ =>
      exists out, ptm5 regrid_spec dset fcut false = Ok out /\
        part_freq out ≡ₚ freq /\ ascending (part_freq out) /\
        part_dir out ≡ₚ dir /\ ascending (part_dir out) /\
        length (part_values out) = 2%nat
  end.
Proof.
  destruct dset as [freq dir values|freq values]; [|done].
  eexists. split; [reflexivity|]. simpl.
  split; [apply take_argsort_perm|]. split; [apply take_argsort_ascending|].
  split; [apply take_argsort_perm|]. split; [apply take_argsort_ascending|done].
Qed.

(** ** SpecArray: the cached widths *)

Lemma dd_fresh (self : SpecArray.t) :
  SpecArray.dd self =
  match SpecArray._dd self with
  | Some d => (d, self)
  | None =>
      let d := (SpecArray.dd (SpecArray.init (SpecArray._obj self))).1 in
      (d, SpecArray.mk (SpecArray._obj self) (SpecArray._df self) (Some d))
  end.
Proof. reflexivity. Qed.

Lemma df_fresh (self : SpecArray.t) :
  SpecArray.df self =
  match SpecArray._df self with
  | Some d => Ok (d, self)
  | None =>
      match SpecArray.df (SpecArray.init (SpecArray._obj self)) with
      | Ok (d, _) =>
          Ok (d, SpecArray.mk (SpecArray._obj self) (Some d) (SpecArray._dd self))
      | Raise e => Raise e
      end
  end.
Proof.
  unfold SpecArray.df, SpecArray.freq. simpl.
  destruct (SpecArray._df self); [done|].
  destruct (1 <? length _)%nat; [done|].
  by destruct (match SpecArray._obj self with Efth f _ _ | Ef f _ => f end).
Qed.

Lemma dd_cache (self : SpecArray.t) :
  cache_ok self ->
  (SpecArray.dd self).1 = (SpecArray.dd (SpecArray.init (SpecArray._obj self))).1 /\
  cache_ok (SpecArray.dd self).2 /\
  SpecArray._obj (SpecArray.dd self).2 = SpecArray._obj self.
Proof.
  intros [Hdf Hdd]. rewrite (dd_fresh self).
  destruct (SpecArray._dd self) as [d|] eqn:E; cbn [fst snd].
  - split; [by rewrite (Hdd d)|]. split; [|done]. split; [done|].
    intros d' Hd'. apply Hdd. congruence.
  - split; [done|]. split; [|done]. split; [done|].
    intros d' H. cbn [SpecArray._dd SpecArray._obj] in *. by injection H as <-.
Qed.

Lemma oned_cache (self : SpecArray.t) (skipna : bool) :
  cache_ok self ->
  (SpecArray.oned self skipna).1 =
    (SpecArray.oned (SpecArray.init (SpecArray._obj self)) skipna).1 /\
  cache_ok (SpecArray.oned self skipna).2 /\
  SpecArray._obj (SpecArray.oned self skipna).2 = SpecArray._obj self.
Proof.
  intros Hok. destruct (dd_cache self Hok) as (Hd & Hok' & Hobj).
  unfold SpecArray.oned. simpl.
  destruct (SpecArray._obj self) as [f d v|f v] eqn:E; [|done].
  destruct (SpecArray.dd self) as [w s]. simpl in *.
  split; [|done]. subst w.
  destruct (SpecArray.dd (SpecArray.init (Efth f d v))) as [w0 s0] eqn:E0.
  done.
Qed.

Lemma df_cache (self : SpecArray.t) :
  cache_ok self ->
  match SpecArray.df self, SpecArray.df (SpecArray.init (SpecArray._obj self)) with
  | Ok (d, s), Ok (d0, _) =>
      d = d0 /\ cache_ok s /\ SpecArray._obj s = SpecArray._obj self
  | Raise e, Raise e0 => e = e0
  | _, _ => False
  end.
Proof.
  intros [Hdf Hdd]. rewrite (df_fresh self).
  destruct (SpecArray._df self) as [d|] eqn:E.
  - destruct (Hdf d eq_refl) as [s ->]. split; [done|]. split; [|done].
    split; [|done]. intros d0 H0. apply Hdf. congruence.
  - destruct (SpecArray.df (SpecArray.init (SpecArray._obj self)))
      as [[d s]|e] eqn:E0; [|done].
    split; [done|]. split; [|done]. split; simpl; [|done].
    intros d' H. injection H as <-. by eexists.
Qed.

Lemma cache_ok_init (obj : DataArray) : cache_ok (SpecArray.init obj).
Proof. by split. Qed.

Lemma freq_obj (s s' : SpecArray.t) :
  SpecArray._obj s = SpecArray._obj s' -> SpecArray.freq s = SpecArray.freq s'.
Proof. unfold SpecArray.freq. by intros ->. Qed.

(** X13: the widths that an accessor has cached never change what [hs]
    returns.  On an accessor whose cache holds what a fresh accessor
    computes, [hs] gives the value (or the error) of a fresh accessor on the
    same array, leaves the array alone and leaves the cache in that state;
    [df], [dd] and [oned], which it calls, do so too. *)
Theorem hs_cache_independent (self : SpecArray.t) (tail : bool) :
  cache_ok self ->
  match SpecArray.hs self tail,
        SpecArray.hs (SpecArray.init (SpecArray._obj self)) tail with
  | Ok (v, s), Ok (v0, _) =>
      v = v0 /\ cache_ok s /\ SpecArray._obj s = SpecArray._obj self
  | Raise e, Raise e0 => e = e0
  | _, _ => False
  end.
Proof.
  intros Hok. unfold SpecArray.hs.
  destruct (oned_cache self false Hok) as (HSf & Hok1 & Hobj1).
  destruct (oned_cache _ false (cache_ok_init (SpecArray._obj self)))
    as (_ & Hok0 & Hobj0).
  destruct (SpecArray.oned self false) as [Sf s1].
  destruct (SpecArray.oned (SpecArray.init (SpecArray._obj self)) false)
    as [Sf0 s0].
  cbn [fst snd] in *. subst Sf0. cbn [SpecArray._obj SpecArray.init] in Hobj0.
  pose proof (df_cache s1 Hok1) as H1. pose proof (df_cache s0 Hok0) as H0.
  rewrite Hobj1 in H1. rewrite Hobj0 in H0.
  destruct (SpecArray.df s1) as [[d s2]|e1];
    destruct (SpecArray.df s0) as [[d0 s3]|e0];
    destruct (SpecArray.df (SpecArray.init (SpecArray._obj self)))
      as [[d' s4]|e']; try done; simpl; [|congruence].
  destruct H1 as (-> & Hok2 & Hobj2). destruct H0 as (-> & Hok3 & Hobj3).
  rewrite (freq_obj s3 s2) by congruence.
  destruct (if tail then _ else _) as [E|e]; simpl; [|done].
  split; [done|]. split; [done|]. congruence.
Qed.

Lemma hs_cache_independent_witness :
  exists v s,
    SpecArray.hs (SpecArray.mk half_hertz (Some [F64.one]) (Some F64.one)) true =
      Ok (v, s) /\
    SpecArray.hs (SpecArray.init half_hertz) true = Ok (v, SpecArray.mk half_hertz (Some [F64.one]) None).
Proof.
  pose proof (hs_cache_independent
                (SpecArray.mk half_hertz (Some [F64.one]) (Some F64.one)) true) as H.
  destruct (SpecArray.hs (SpecArray.mk half_hertz (Some [F64.one]) (Some F64.one))
              true) as [[v s]|] eqn:E; [|by vm_compute in E].
  exists v, s. split; [done|].
  cbn [SpecArray._obj] in H.
  destruct (SpecArray.hs (SpecArray.init half_hertz) true) as [[v0 s0]|] eqn:E0;
    [|by vm_compute in E0].
  destruct H as (-> & _ & _).
  - split; [intros d Hd; injection Hd as <-; by eexists|].
    intros d Hd. by injection Hd as <-.
  - vm_compute in E0. injection E0 as <- <-. reflexivity.
Defined.

(** ** SpecArray.hs on a masked spectrum *)

Lemma add_nan_r (x : f64) : F64.add x F64.nan = F64.nan.
Proof. by destruct x as [[]|[]| |]. Qed.

Lemma foldl_add_nan (l : list f64) : foldl F64.add F64.nan l = F64.nan.
Proof. induction l as [|x l IH]; simpl; [done|]. exact IH. Qed.

Lemma foldl_add_has_nan (a : f64) (l : list f64) :
  (exists x, x ∈ l /\ F64.is_nan x = true) -> foldl F64.add a l = F64.nan.
Proof.
  revert a. induction l as [|y l IH]; intros a (x & Hin & Hx).
  - by apply elem_of_nil in Hin.
  - simpl. apply elem_of_cons in Hin as [<-|Hin].
    + apply is_nan_eq in Hx. subst x. rewrite add_nan_r. apply foldl_add_nan.
    + apply IH. by exists x.
Qed.

Lemma sum1_has_nan (l : list f64) :
  (exists x, x ∈ l /\ F64.is_nan x = true) -> np.sum1 l = F64.nan.
Proof.
  destruct l as [|y l]; intros (x & Hin & Hx); [by apply elem_of_nil in Hin|].
  simpl. apply elem_of_cons in Hin as [<-|Hin].
  - apply is_nan_eq in Hx. subst x. apply foldl_add_nan.
  - apply foldl_add_has_nan. by exists x.
Qed.

Lemma nansum1_all_nan (l : list f64) :
  Forall (fun x => x = F64.nan) l -> np.nansum1 l = F64.zero.
Proof.
  intros H. unfold np.nansum1, np.sum1.
  destruct H as [|x l -> H]; simpl; [done|].
  apply foldl_add_pzeros. apply Forall_fmap.
  eapply Forall_impl; [exact H|]. by intros y ->.
Qed.

Lemma masked_oned (d : f64) (values : ndarray) :
  masked values ->
  Forall (fun x => x = F64.nan)
    (map (fun row => F64.mul d (np.sum1 row)) values).
Proof.
  intros H. apply Forall_fmap. eapply Forall_impl; [exact H|].
  intros row Hrow. simpl. by rewrite (sum1_has_nan row Hrow), mul_nan_r.
Qed.

Lemma zip_mul_nan (l d : list f64) :
  Forall (fun x => x = F64.nan) l ->
  Forall (fun x => x = F64.nan) (zip_with F64.mul l d).
Proof.
  intros H. revert d. induction H as [|x l -> _ IH]; intros [|y d]; simpl;
    constructor; [done|apply IH].
Qed.

(** X14: on a masked spectrum, one with a NaN bin at every frequency, [hs]
    is not NaN as long as the tail is out of play: the integration over the
    frequencies skips the NaN and [hs] is +0.0.  With [tail=True] and a
    last frequency above 0.333 the tail term brings the NaN back. *)
Theorem hs_masked_spectrum (freq dir : list f64) (values : ndarray)
  (tail : bool) (flast : f64) :
  last freq = Some flast -> values <> [] -> masked values ->
  exists s,
    SpecArray.hs (SpecArray.init (Efth freq dir values)) tail =
    Ok (if tail && F64.gtb flast F64.c0_333 then F64.nan else F64.zero, s).
Proof.
  intros Hlast Hv Hm. unfold SpecArray.hs, SpecArray.oned. simpl.
  generalize (match dir with
              | d0 :: d1 :: _ => F64.abs (F64.sub d1 d0)
              | _ => F64.one
              end).
  intros d. pose proof (masked_oned d values Hm) as HSf.
  set (Sf := map (fun row => F64.mul d (np.sum1 row)) values) in *.
  assert (last Sf = Some F64.nan) as HSlast.
  { destruct (last Sf) as [x|] eqn:E.
    - f_equal. apply last_Some_elem_of in E.
      by apply (proj1 (Forall_forall _ _) HSf).
    - apply last_None in E. subst Sf. destruct values; done. }
  assert (exists dl,
    SpecArray.df (SpecArray.mk (Efth freq dir values) None (Some d)) =
    Ok (dl, SpecArray.mk (Efth freq dir values) (Some dl) (Some d))) as [dl ->].
  { unfold SpecArray.df, SpecArray.freq. simpl.
    destruct (1 <? length freq)%nat; [by eexists|].
    destruct freq; [done|by eexists]. }
  simpl. unfold SpecArray.freq. simpl. rewrite Hlast, HSlast.
  rewrite (nansum1_all_nan _ (zip_mul_nan Sf dl HSf)).
  destruct tail; simpl; [|by eexists].
  destruct (F64.gtb flast F64.c0_333); simpl; [|by eexists].
  eexists. reflexivity.
Qed.

Lemma hs_masked_spectrum_witness :
  exists s,
    SpecArray.hs (SpecArray.init (Efth [F64.half] [F64.zero] [[F64.nan]])) true =
    Ok (F64.nan, s).
Proof.
  destruct (hs_masked_spectrum [F64.half] [F64.zero] [[F64.nan]] true F64.half)
    as [s Hs]; [reflexivity|done| |by exists s].
  repeat constructor. exists F64.nan. split; [apply list_elem_of_here|done].
Defined.

(** ** SpecArray.df: the widths, frequency by frequency *)

Lemma diff_length (l : list f64) : length (np.diff l) = (length l - 1)%nat.
Proof.
  unfold np.diff. rewrite length_zip_with. destruct l; cbn [length tail]; lia.
Qed.

Lemma diff_lookup (l : list f64) (i : nat) (a b : f64) :
  l !! i = Some a -> l !! S i = Some b -> np.diff l !! i = Some (F64.sub b a).
Proof.
  intros Ha Hb. unfold np.diff.
  by rewrite lookup_zip_with, lookup_tail, Ha, Hb.
Qed.

Lemma df_trapezoid_length (freq : list f64) :
  (2 <= length freq)%nat -> length (SpecArray.df_trapezoid freq) = length freq.
Proof.
  intros H. unfold SpecArray.df_trapezoid.
  rewrite !length_zip_with. cbn [length app].
  rewrite !length_app, length_replicate, diff_length. cbn [length]. lia.
Qed.

Lemma df_trapezoid_lookup (freq : list f64) (i : nat) (w l r : f64) :
  ([F64.one] ++ replicate (length freq - 2) F64.half ++ [F64.one]) !! i = Some w ->
  (F64.zero :: np.diff freq) !! i = Some l ->
  (np.diff freq ++ [F64.zero]) !! i = Some r ->
  SpecArray.df_trapezoid freq !! i = Some (F64.mul w (F64.add l r)).
Proof.
  intros Hw Hl Hr. unfold SpecArray.df_trapezoid. cbv zeta.
  assert (zip_with F64.add (F64.zero :: np.diff freq)
            (np.diff freq ++ [F64.zero]) !! i = Some (F64.add l r)) as Hlr
    by (by rewrite lookup_zip_with, Hl, Hr).
  by rewrite lookup_zip_with, Hw, Hlr.
Qed.

(** X15: [df] on a fresh accessor.  It raises ValueError on an empty
    frequency coordinate and otherwise returns, and caches, one width per
    frequency.  On two frequencies or more the widths are those of the
    trapezoidal rule: the whole step to the neighbour at both ends, and half
    the sum of the steps to the two neighbours in between. *)
Theorem df_widths (obj : DataArray) :
  let freq := SpecArray.freq (SpecArray.init obj) in
  match freq with
  | [] => SpecArray.df (SpecArray.init obj) = Raise ValueError
  | _ :: _ =>
      exists d,
        SpecArray.df (SpecArray.init obj) =
          Ok (d, SpecArray.mk obj (Some d) None) /\
        length d = length freq /\
        (forall a b, freq !! 0%nat = Some a -> freq !! 1%nat = Some b ->
           d !! 0%nat = Some (F64.mul F64.one (F64.add F64.zero (F64.sub b a)))) /\
        (forall i a b c,
           freq !! i = Some a -> freq !! S i = Some b -> freq !! S (S i) = Some c ->
           d !! S i =
           Some (F64.mul F64.half (F64.add (F64.sub b a) (F64.sub c b)))) /\
        (forall i a b,
           length freq = S (S i) -> freq !! i = Some a -> freq !! S i = Some b ->
           d !! S i = Some (F64.mul F64.one (F64.add (F64.sub b a) F64.zero)))
  end.
Proof.
  intros freq. unfold SpecArray.df. cbn [SpecArray._df SpecArray.init].
  fold freq. destruct freq as [|f0 [|f1 freq']] eqn:Ef; [done| |].
  - simpl. eexists. split; [reflexivity|]. split; [done|].
    split; [|split].
    + by intros a b _ H.
    + by intros i a b c _ H.
    + by intros i a b H.
  - rewrite <- Ef.
    assert (2 <= length freq)%nat as Hlen by (rewrite Ef; simpl; lia).
    replace (1 <? length freq)%nat with true
      by (symmetry; apply Nat.ltb_lt; lia).
    eexists. split; [reflexivity|].
    split; [by apply df_trapezoid_length|].
    pose proof (diff_length freq) as Hd.
    split; [|split].
    + intros a b Ha Hb. apply df_trapezoid_lookup; [done|done|].
      rewrite lookup_app_l by lia. by apply diff_lookup.
    + intros i a b c Ha Hb Hc.
      apply lookup_lt_Some in Hc as Hi.
      apply df_trapezoid_lookup.
      * simpl. rewrite lookup_app_l by (rewrite length_replicate; lia).
        apply lookup_replicate. split; [done|lia].
      * simpl. by apply diff_lookup.
      * rewrite lookup_app_l by lia. by apply diff_lookup.
    + intros i a b Hn Ha Hb.
      apply df_trapezoid_lookup.
      * simpl. rewrite lookup_app_r by (rewrite length_replicate; lia).
        rewrite length_replicate, Hn.
        by replace (i - (S (S i) - 2))%nat with 0%nat by lia.
      * simpl. by apply diff_lookup.
      * rewrite lookup_app_r by lia.
        by replace (S i - length (np.diff freq))%nat with 0%nat by lia.
Qed.

(** ** SpecArray._peak: the index that comes back *)

Lemma sub_self (x : f64) :
  F64.gtb (F64.sub x x) F64.zero = false /\
  F64.ltb (F64.sub x x) F64.zero = false.
Proof.
  destruct x as [[]|[]| |s m e]; try done.
  assert (F64.sub (S754_finite s m e) (S754_finite s m e) = S754_zero false)
    as ->; [|done].
  unfold F64.sub, SFsub. cbv zeta. rewrite Z.min_id.
  unfold shl_align. rewrite Z.sub_diag. cbn [fst].
  replace (cond_Zopp s (Z.pos m) + cond_Zopp (negb s) (Z.pos m)) with 0
    by (destruct s; cbn [cond_Zopp negb]; lia).
  reflexivity.
Qed.

Lemma sub_nan_l (x : f64) : F64.sub F64.nan x = F64.nan.
Proof. done. Qed.

Lemma leb_false_ltb (x y : f64) :
  F64.is_nan x = false -> F64.is_nan y = false ->
  F64.leb x y = false -> F64.ltb y x = true.
Proof.
  intros Hx Hy H. destruct (F64.ltb y x) eqn:E; [done|].
  apply ltb_false_leb in E; [congruence|done..].
Qed.

Lemma ltb_leb (x y : f64) : F64.ltb x y = true -> F64.leb x y = true.
Proof. intros H. by apply ltb_leb_geb in H as [_ ?]. Qed.

Lemma leb_refl (x : f64) : F64.is_nan x = false -> F64.leb x x = true.
Proof. intros H. apply eqb_refl in H. by apply eqb_leb_geb in H as [_ ?]. Qed.

Lemma leb_trans (x y z : f64) :
  F64.leb x y = true -> F64.leb y z = true -> F64.leb x z = true.
Proof.
  rewrite !leb_key. unfold key_lt.
  destruct (order_key x) as [[? ?] ?], (order_key y) as [[? ?] ?],
    (order_key z) as [[? ?] ?]. simpl.
  intros (? & ? & ?) (? & ? & ?). repeat split; try done. lia.
Qed.

Section Argmax.

(** [m] at index [k] is the maximum of [l], and the first one. *)
Let is_max_at (l : list f64) (k : nat) (m : f64) : Prop :=
  l !! k = Some m /\
  forall j x, l !! j = Some x ->
    F64.leb x m = true /\ ((j < k)%nat -> F64.ltb x m = true).

Lemma argmax_loop_max (l pre : list f64) (mp : f64) (idx : nat) :
  Forall (fun x => F64.is_nan x = false) l -> F64.is_nan mp = false ->
  is_max_at pre idx mp ->
  exists m,
    is_max_at (pre ++ l) (np.argmax_loop mp idx (length pre) l) m.
Proof.
  intros Hl. revert pre mp idx.
  induction Hl as [|x l Hx Hl IH]; intros pre mp idx Hmp [Hidx Hmax].
  - exists mp. rewrite app_nil_r. by split.
  - simpl. apply lookup_lt_Some in Hidx as Hlt.
    replace (pre ++ x :: l) with ((pre ++ [x]) ++ l)
      by (by rewrite <- app_assoc).
    replace (S (length pre)) with (length (pre ++ [x]))
      by (rewrite length_app; simpl; lia).
    destruct (F64.leb x mp) eqn:E; simpl.
    + apply IH; [done|]. split; [by rewrite lookup_app_l|].
      intros j y Hy. destruct (decide (j < length pre)%nat) as [Hj|Hj].
      * rewrite lookup_app_l in Hy by done. by apply Hmax.
      * rewrite lookup_app_r in Hy by lia.
        destruct (j - length pre)%nat eqn:Ej; [|by destruct n].
        injection Hy as <-. split; [done|lia].
    + rewrite Hx.
      replace (length pre) with (length (pre ++ [x]) - 1)%nat at 1
        by (rewrite length_app; simpl; lia).
      replace (length (pre ++ [x]) - 1)%nat with (length pre)
        by (rewrite length_app; simpl; lia).
      apply IH; [done|].
      pose proof (leb_false_ltb x mp Hx Hmp E) as Hlt'.
      split; [by rewrite lookup_app_r, Nat.sub_diag by lia|].
      intros j y Hy. destruct (decide (j < length pre)%nat) as [Hj|Hj].
      * rewrite lookup_app_l in Hy by done.
        destruct (Hmax j y Hy) as [Hle _].
        pose proof (leb_ltb_trans _ _ _ Hle Hlt') as Hyx.
        split; [by apply ltb_leb|done].
      * rewrite lookup_app_r in Hy by lia.
        destruct (j - length pre)%nat eqn:Ej; [|by destruct n].
        injection Hy as <-. split; [by apply leb_refl|lia].
Qed.

Lemma nanargmax_max (l : list f64) :
  l <> [] -> Forall (fun x => F64.is_nan x = false) l ->
  exists k m, np.nanargmax l = Ok k /\ is_max_at l k m.
Proof.
  intros Hne Hl. destruct l as [|x l]; [done|].
  inversion Hl as [|? ? Hx Hl']; subst.
  unfold np.nanargmax. cbn [forallb]. rewrite Hx. cbn [andb].
  assert (map (fun x => if F64.is_nan x then S754_infinity true else x) (x :: l)
          = x :: l) as ->.
  { clear Hne. induction Hl as [|y l' Hy _ IH]; simpl; [done|].
    by rewrite Hy, IH. }
  unfold np.argmax. rewrite Hx.
  destruct (argmax_loop_max l [x] x 0 Hl' Hx) as [m Hm].
  - split; [done|]. intros [|j] y Hy; [|done].
    injection Hy as <-. split; [by apply leb_refl|lia].
  - eexists _, m. split; [reflexivity|]. exact Hm.
Qed.
End Argmax.

Lemma is_peak_not_nan (arr : list f64) (k : nat) (x : f64) :
  is_peak arr k = true -> arr !! k = Some x -> F64.is_nan x = false.
Proof.
  destruct k as [|j]; [done|]. unfold is_peak. intros H Hx. rewrite Hx in H.
  destruct (arr !! j) as [a|]; [|done].
  destruct (arr !! S (S j)) as [c|]; [|done].
  apply andb_true_iff in H as [H _].
  destruct (F64.is_nan x) eqn:E; [|done].
  apply is_nan_eq in E. subst x. by rewrite sub_nan_l in H.
Qed.

(** What [_peak] hands to the [argmax]: the value at a peak, 0 elsewhere. *)
Lemma peak_where (arr : list f64) (first last_ : f64) (j : nat) (x : f64) :
  arr !! 0%nat = Some first -> last arr = Some last_ -> arr !! j = Some x ->
  zip_with (fun (p : bool) x => if p then x else F64.zero)
    (zip_with andb
       (map (fun d => F64.gtb d F64.zero) (np.diff (first :: arr)))
       (map (fun d => F64.ltb d F64.zero) (np.diff (arr ++ [last_]))))
    arr !! j =
  Some (if is_peak arr j then x else F64.zero).
Proof.
  intros Hfirst Hlast Hx. apply lookup_lt_Some in Hx as Hj.
  assert (exists prev, (first :: arr) !! j = Some prev /\
            np.diff (first :: arr) !! j = Some (F64.sub x prev)) as (prev & Hprev & Hfwd).
  { destruct (lookup_lt_is_Some_2 (first :: arr) j) as [prev Hprev];
      [simpl; lia|].
    exists prev. split; [done|]. by apply diff_lookup. }
  assert (exists next, (arr ++ [last_]) !! S j = Some next /\
            np.diff (arr ++ [last_]) !! j = Some (F64.sub next x)) as (next & Hnext & Hbwd).
  { destruct (lookup_lt_is_Some_2 (arr ++ [last_]) (S j)) as [next Hnext];
      [rewrite length_app; simpl; lia|].
    exists next. split; [done|]. apply diff_lookup; [|done].
    by rewrite lookup_app_l. }
  rewrite lookup_zip_with, lookup_zip_with, !list_lookup_fmap, Hfwd, Hbwd, Hx.
  simpl. f_equal.
  assert (is_peak arr j =
          F64.gtb (F64.sub x prev) F64.zero && F64.ltb (F64.sub next x) F64.zero)
    as ->; [|done].
  destruct j as [|i].
  - simpl in Hprev. injection Hprev as <-.
    rewrite Hfirst in Hx. injection Hx as <-.
    by rewrite (proj1 (sub_self first)).
  - simpl in Hprev. unfold is_peak. rewrite Hprev, Hx.
    destruct (decide (S (S i) < length arr)%nat) as [Hlt|Hge].
    + rewrite lookup_app_l in Hnext by done. by rewrite Hnext.
    + rewrite (lookup_ge_None_2 arr (S (S i))) by lia.
      rewrite lookup_app_r in Hnext by lia.
      replace (S (S i) - length arr)%nat with 0%nat in Hnext by lia.
      injection Hnext as <-.
      rewrite last_lookup in Hlast.
      replace (pred (length arr)) with (S i) in Hlast by lia.
      rewrite Hx in Hlast. injection Hlast as <-.
      by rewrite (proj2 (sub_self x)), andb_false_r.
Qed.

(** X16: [_peak] returns an index of the spectrum whenever this has a
    frequency at all.  An index other than 0 is that of a peak in the sense
    of the steps on both sides, its density is positive and no other peak
    has a larger one, nor an equal one at a lower frequency.  Index 0, which
    is never a peak, comes back when no peak has a positive density. *)
Theorem peak_index (arr : list f64) :
  arr <> [] ->
  exists k, SpecArray._peak arr = Ok k /\ (k < length arr)%nat /\
    (k <> 0%nat ->
       is_peak arr k = true /\
       exists b, arr !! k = Some b /\ F64.gtb b F64.zero = true /\
         forall j x, is_peak arr j = true -> arr !! j = Some x ->
           F64.leb x b = true /\ ((j < k)%nat -> F64.ltb x b = true)) /\
    (k = 0%nat ->
       forall j x, is_peak arr j = true -> arr !! j = Some x ->
         F64.leb x F64.zero = true).
Proof.
  intros Hne. unfold SpecArray._peak.
  destruct arr as [|first arr'] eqn:Earr; [done|]. rewrite <- Earr.
  destruct (last arr) as [last_|] eqn:Hlast;
    [|apply last_None in Hlast; congruence].
  assert (arr !! 0%nat = Some first) as Hfirst by (by rewrite Earr).
  set (w := zip_with _ _ arr).
  assert (forall j x, arr !! j = Some x ->
            w !! j = Some (if is_peak arr j then x else F64.zero)) as Hw
    by (intros j x; by apply peak_where).
  assert (length w = length arr) as Hlen.
  { unfold w. rewrite !length_zip_with, !length_map, !diff_length.
    rewrite length_app. simpl. lia. }
  assert (Forall (fun x => F64.is_nan x = false) w) as Hnan.
  { apply Forall_lookup. intros j y Hy.
    destruct (lookup_lt_is_Some_2 arr j) as [x Hx];
      [rewrite <- Hlen; by eapply lookup_lt_Some|].
    rewrite (Hw j x Hx) in Hy. injection Hy as <-.
    destruct (is_peak arr j) eqn:Ep; [by eapply is_peak_not_nan|done]. }
  destruct (nanargmax_max w) as (k & m & -> & Hk & Hmax); [|done|].
  { intros Hnil. rewrite Hnil, Earr in Hlen. done. }
  exists k. split; [done|].
  apply lookup_lt_Some in Hk as Hklt. rewrite Hlen in Hklt. split; [done|].
  destruct (lookup_lt_is_Some_2 arr k Hklt) as [b Hb].
  rewrite (Hw k b Hb) in Hk. injection Hk as Hm.
  pose proof (Hw 0%nat first Hfirst) as Hw0. simpl in Hw0.
  split.
  - intros Hk0. destruct (Hmax 0%nat F64.zero Hw0) as [_ Hpos].
    specialize (Hpos ltac:(lia)).
    destruct (is_peak arr k) eqn:Ep; [|by subst m].
    subst m. split; [done|]. exists b. split; [done|]. split; [exact Hpos|].
    intros j x Hj Hx. pose proof (Hw j x Hx) as Hwj. rewrite Hj in Hwj.
    by apply Hmax.
  - intros ->. rewrite Hfirst in Hb. injection Hb as <-. simpl in Hm. subst m.
    intros j x Hj Hx. pose proof (Hw j x Hx) as Hwj. rewrite Hj in Hwj.
    by apply (Hmax j x Hwj).
Qed.

Lemma peak_index_witness :
  exists k, SpecArray._peak (concat three_systems) = Ok k /\ k <> 0%nat /\
    is_peak (concat three_systems) k = true.
Proof.
  destruct (peak_index (concat three_systems)) as (k & Hk & _ & Hpeak & _);
    [done|].
  exists k. split; [done|].
  assert (k <> 0%nat) as Hk0
    by (vm_compute in Hk; injection Hk as <-; done).
  split; [done|]. by destruct (Hpeak Hk0).
Defined.

(** ** SpecArray.momf keeps the NaN that hs skips *)

Lemma df_init_length (obj : DataArray) :
  SpecArray.freq (SpecArray.init obj) <> [] ->
  exists d, SpecArray.df (SpecArray.init obj) =
              Ok (d, SpecArray.mk obj (Some d) None) /\
    length d = length (SpecArray.freq (SpecArray.init obj)).
Proof.
  intros Hne. unfold SpecArray.df. cbn [SpecArray._df SpecArray.init].
  destruct (1 <? length _)%nat eqn:E.
  - eexists. split; [reflexivity|]. apply df_trapezoid_length.
    apply Nat.ltb_lt in E. lia.
  - apply Nat.ltb_ge in E.
    destruct (SpecArray.freq (SpecArray.init obj)) as [|f [|f' l]] eqn:Ef;
      [done| |simpl in E; lia].
    by eexists.
Qed.

Lemma foldl_add_rows_nan (rows : ndarray) (acc : list f64) (j : nat) :
  (j < length acc)%nat ->
  Forall (fun row => (j < length row)%nat) rows ->
  acc !! j = Some F64.nan \/ (exists row, row ∈ rows /\ row !! j = Some F64.nan) ->
  foldl (zip_with F64.add) acc rows !! j = Some F64.nan.
Proof.
  intros Hacc Hrows. revert acc Hacc.
  induction Hrows as [|row rows Hrow _ IH]; intros acc Hacc H; simpl.
  - destruct H as [H|(row & Hin & _)]; [done|by apply elem_of_nil in Hin].
  - destruct (lookup_lt_is_Some_2 acc j Hacc) as [a Ha].
    destruct (lookup_lt_is_Some_2 row j Hrow) as [x Hx].
    assert (zip_with F64.add acc row !! j = Some (F64.add a x)) as Hz
      by (by rewrite lookup_zip_with, Ha, Hx).
    apply IH; [rewrite length_zip_with; lia|].
    destruct H as [H|(row' & Hin & Hnan)].
    + left. rewrite Hz. rewrite Ha in H. by injection H as ->.
    + apply elem_of_cons in Hin as [->|Hin].
      * left. rewrite Hz. rewrite Hx in Hnan. injection Hnan as ->.
        by rewrite add_nan_r.
      * right. by exists row'.
Qed.

(** X17: [momf] sums over the frequencies without skipping NaN.  One NaN
    bin of a spectrum with directions makes the moment of its direction NaN,
    whatever the order of the moment; [hs] skips the same NaN. *)
Theorem momf_nan_bin (np_power : f64 -> Z -> f64) (freq dir : list f64)
  (values : ndarray) (mom : Z) (i j : nat) :
  (i < length freq)%nat ->
  Forall (fun row => length row = length dir) values ->
  bin values i j = Some F64.nan ->
  exists m s,
    SpecArray.momf np_power (SpecArray.init (Efth freq dir values)) mom =
      Ok (m, s) /\
    m !! j = Some F64.nan.
Proof.
  intros Hi Hrows Hbin. unfold SpecArray.momf.
  destruct (df_init_length (Efth freq dir values)) as (d & Hdf & Hd).
  { simpl. destruct freq; [simpl in Hi; lia|done]. }
  rewrite Hdf. change (length d = length freq) in Hd. simpl.
  change (SpecArray.freq (SpecArray.init (Efth freq dir values))) with freq.
  eexists _, _. split; [reflexivity|].
  unfold bin in Hbin. destruct (values !! i) as [row|] eqn:Hrow; [|done].
  simpl in Hbin. apply lookup_lt_Some in Hbin as Hj.
  assert (length row = length dir) as Hlen
    by (eapply (proj1 (Forall_lookup _ _) Hrows); done).
  set (w := zip_with F64.mul d (map (fun f => np_power f mom) freq)).
  assert (length w = length freq) as Hw
    by (unfold w; rewrite length_zip_with, length_map; lia).
  destruct (lookup_lt_is_Some_2 w i) as [wi Hwi]; [lia|].
  set (rows := zip_with (fun wi row => map (F64.mul wi) row) w values).
  assert (rows !! i = Some (map (F64.mul wi) row)) as Hri
    by (unfold rows; by rewrite lookup_zip_with, Hwi, Hrow).
  assert (Forall (fun r => (j < length r)%nat) rows) as Hall.
  { apply Forall_lookup. intros k r Hr. unfold rows in Hr.
    rewrite lookup_zip_with in Hr.
    destruct (w !! k) as [wk|]; [|done]. simpl in Hr.
    destruct (values !! k) as [rk|] eqn:Hrk; [|done]. injection Hr as <-.
    rewrite length_map.
    rewrite (proj1 (Forall_lookup _ _) Hrows k rk Hrk). lia. }
  assert ((map (F64.mul wi) row) !! j = Some F64.nan) as Hnan
    by (by rewrite list_lookup_fmap, Hbin; simpl; rewrite mul_nan_r).
  unfold SpecArray.sum_freq.
  destruct rows as [|r rows'] eqn:Er; [done|].
  inversion Hall as [|? ? Hr Hall']; subst.
  apply foldl_add_rows_nan; [done|done|].
  destruct i as [|i']; simpl in Hri.
  - left. injection Hri as ->. done.
  - right. eexists. split; [by eapply list_elem_of_lookup_2|done].
Qed.

Lemma momf_nan_bin_witness :
  exists m s,
    SpecArray.momf (fun f _ => f)
      (SpecArray.init (Efth [F64.half; F64.one] [F64.zero]
                         [[F64.one]; [F64.nan]])) 0 = Ok (m, s) /\
    m = [F64.nan].
Proof.
  destruct (momf_nan_bin (fun f _ => f) [F64.half; F64.one] [F64.zero]
              [[F64.one]; [F64.nan]] 0 1 0) as (m & s & Hm & Hj).
  - simpl. lia.
  - by repeat constructor.
  - reflexivity.
  - exists m, s. split; [done|].
    vm_compute in Hm. by injection Hm as <- _.
Defined.

(** ** np_ptm1 without a wind *)

Lemma div_zero_l (s : f64) :
  F64.div F64.zero s = F64.nan \/ F64.is_zero (F64.div F64.zero s) = true.
Proof. destruct s as [[]|[]| |[] m e]; auto. Qed.

Lemma gtb_zero_cut (z wscut : f64) :
  F64.is_zero z = true -> F64.leb F64.zero wscut = true ->
  F64.gtb z wscut = false.
Proof.
  intros Hz Hcut. apply leb_not_gtb.
  destruct z as [[]| | |]; try done; by destruct wscut as [[]|[]| |[]].
Qed.

Lemma bool_index_none (part : ndarray) (mask : list (list bool)) :
  Forall (Forall (fun b => b = false)) mask -> np.bool_index part mask = [].
Proof.
  intros H. unfold np.bool_index.
  assert (Forall (fun b => b = false) (concat mask)) as Hc
    by (by apply Forall_concat).
  generalize (concat part) as l. induction Hc as [|b bs -> _ IH]; intros [|x l];
    simpl; done.
Qed.

Lemma windseamask_missing_wind (ext : collaborators) (freq dir : list f64)
  (wdir dpt agefac : f64) :
  Forall (Forall (fun b => b = false))
    (windseamask ext freq dir F64.nan wdir dpt agefac).
Proof.
  rewrite windseamask_bins.
  generalize (celerity ext freq dpt) as cel.
  induction freq as [|f freq IH]; intros [|c cel]; simpl; try constructor.
  - apply Forall_fmap, Forall_forall. intros d _. simpl.
    unfold wind_component. by rewrite mul_nan_r, mul_nan_l, gtb_nan_l.
  - apply IH.
Qed.

(** X18: [np_ptm1] does not reject a missing wind.  With a NaN wind speed
    and a cut-off that is not negative, no region passes the wind sea test:
    the first partition that comes back is +0.0 everywhere and every region
    is handed to the swells. *)
Theorem ptm1_missing_wind (ext : collaborators)
  (spectrum spectrum_smooth : ndarray) (freq dir : list f64)
  (wspd wdir dpt agefac wscut : f64) (swells : option Z) (combine : bool)
  (out : list ndarray) :
  F64.is_nan wspd = true -> F64.leb F64.zero wscut = true ->
  np_ptm1 ext spectrum spectrum_smooth freq dir wspd wdir dpt agefac wscut
    swells combine = Ok out ->
  exists nparts,
    np.max (partition ext spectrum_smooth) = Ok nparts /\
    head out = Some (np.zeros_like spectrum) /\
    (ptm1_loop ext spectrum spectrum_smooth freq dir wspd wdir dpt agefac wscut
       nparts).2 =
    map (fun ipart =>
           np.add (np.zeros_like spectrum)
             (region_part (partition ext spectrum_smooth) spectrum ipart))
      (seq 0 (Z.to_nat nparts)).
Proof.
  intros Hnan Hcut. apply is_nan_eq in Hnan. subst wspd.
  rewrite np_ptm1_unfold.
  destruct (np.max (partition ext spectrum_smooth)) as [nparts|]; [|done].
  simpl. intros H. injection H as <-. exists nparts. split; [done|].
  unfold ptm1_loop. rewrite assign_loop_closed.
  set (wm := partition ext spectrum_smooth).
  set (mask := windseamask ext freq dir F64.nan wdir dpt agefac).
  assert (forall ipart, is_windsea wm spectrum mask wscut ipart = false) as Hws.
  { intros ipart. unfold is_windsea, wsfrac.
    rewrite (bool_index_none _ mask)
      by apply windseamask_missing_wind.
    simpl. destruct (div_zero_l (np.sum (region_part wm spectrum ipart)))
      as [->|Hz]; [apply gtb_nan_l|by apply gtb_zero_cut]. }
  simpl. split.
  - f_equal.
    assert (List.filter (is_windsea wm spectrum mask wscut)
              (seq 0 (Z.to_nat nparts)) = []) as ->; [|done].
    induction (seq 0 (Z.to_nat nparts)) as [|k l IH]; simpl; [done|].
    by rewrite Hws.
  - apply map_ext. intros ipart. unfold swell_slot. by rewrite Hws.
Qed.

Lemma ptm1_missing_wind_witness :
  exists out,
    np_ptm1 example_ext three_systems three_systems example_freq example_dir
      F64.nan F64.zero (F64.of_Z 100) (F64.dec 17 10) (F64.dec 3333 10000)
      (Some 3) false = Ok out /\
    head out = Some (np.zeros_like three_systems).
Proof.
  destruct (np_ptm1 example_ext three_systems three_systems example_freq
              example_dir F64.nan F64.zero (F64.of_Z 100) (F64.dec 17 10)
              (F64.dec 3333 10000) (Some 3) false) as [out|] eqn:E;
    [|by vm_compute in E].
  exists out. split; [done|].
  destruct (ptm1_missing_wind example_ext three_systems three_systems
              example_freq example_dir F64.nan F64.zero (F64.of_Z 100)
              (F64.dec 17 10) (F64.dec 3333 10000) (Some 3) false out)
    as (nparts & _ & Hhead & _); [reflexivity|reflexivity|exact E|exact Hhead].
Defined.

(** ** Partition.ptm5: when the cut-off is interpolated *)

Lemma fold_set_length (s l : list f64) :
  (length (foldl (fun s x => set_add x s) s l) <= length s + length l)%nat.
Proof.
  revert s. induction l as [|x l IH]; intros s; simpl; [lia|].
  specialize (IH (set_add x s)). pose proof (set_add_length x s). lia.
Qed.

Lemma existsb_eqb_false (x : f64) (s : list f64) (y : f64) :
  existsb (F64.eqb x) s = false -> y ∈ s -> F64.eqb x y = false.
Proof.
  intros H Hy. destruct (F64.eqb x y) eqn:E; [|done].
  assert (existsb (F64.eqb x) s = true); [|congruence].
  apply existsb_exists. exists y. split; [by apply list_elem_of_In|done].
Qed.

Lemma eqb_sym_false (x y : f64) : F64.eqb x y = false -> F64.eqb y x = false.
Proof.
  intros H. destruct (F64.eqb y x) eqn:E; [|done].
  apply eqb_sym in E. congruence.
Qed.

Lemma fold_set_tie (s l : list f64) :
  has_tie l \/ (exists x y, x ∈ l /\ y ∈ s /\ F64.eqb x y = true) ->
  (length (foldl (fun s x => set_add x s) s l) < length s + length l)%nat.
Proof.
  revert s. induction l as [|x l IH]; intros s H.
  - destruct H as [[]|(x & y & Hx & _)]. by apply elem_of_nil in Hx.
  - simpl. unfold set_add at 2. destruct (existsb (F64.eqb x) s) eqn:E.
    + pose proof (fold_set_length s l). lia.
    + assert (length (foldl (fun s x => set_add x s) (s ++ [x]) l)
              < length (s ++ [x]) + length l)%nat as Hlt.
      { apply IH. destruct H as [[(k & Hk & Hxk)|H]|(x0 & y & Hx0 & Hy & Hxy)].
        - right. exists k, x. split; [done|].
          split; [apply elem_of_app; right; apply list_elem_of_here|].
          by apply eqb_sym.
        - by left.
        - apply elem_of_cons in Hx0 as [->|Hx0].
          + by rewrite (existsb_eqb_false _ _ _ E Hy) in Hxy.
          + right. exists x0, y. split; [done|].
            split; [apply elem_of_app; by left|done]. }
      rewrite length_app in Hlt. simpl in Hlt. lia.
Qed.

Lemma fold_set_distinct (s l : list f64) :
  ~ has_tie l -> (forall x y, x ∈ l -> y ∈ s -> F64.eqb x y = false) ->
  foldl (fun s x => set_add x s) s l = s ++ l.
Proof.
  revert s. induction l as [|x l IH]; intros s Htie Hs; simpl.
  - by rewrite app_nil_r.
  - assert (existsb (F64.eqb x) s = false) as E.
    { destruct (existsb (F64.eqb x) s) eqn:E; [|done].
      apply existsb_exists in E as (y & Hy & Hxy).
      apply list_elem_of_In in Hy.
      rewrite (Hs x y) in Hxy; [done|apply list_elem_of_here|done]. }
    unfold set_add at 2. rewrite E. rewrite IH.
    + by rewrite <- app_assoc.
    + intros H. apply Htie. by right.
    + intros x' y Hx' Hy. apply elem_of_app in Hy as [Hy|Hy].
      * apply Hs; [by apply list_elem_of_further|done].
      * apply list_elem_of_singleton in Hy. subst y.
        apply eqb_sym_false. destruct (F64.eqb x x') eqn:Exx; [|done].
        exfalso. apply Htie. left. by exists x'.
Qed.

(** X19: [interpolate=True] does not always put the cut-off on the grid.
    When the cut-off equals one of the frequencies, or when two of the
    frequencies are equal, the set of the frequencies with the cut-off is no
    larger than the coordinate: [ptm5] does not regrid and returns what it
    returns with [interpolate=False]. *)
Theorem ptm5_interpolation_skipped
  (regrid_spec : DataArray -> list f64 -> DataArray)
  (dset : DataArray) (fcut : f64) :
  has_tie (dset_freq dset) \/
    (exists f, f ∈ dset_freq dset /\ F64.eqb f fcut = true) ->
  ptm5 regrid_spec dset fcut true = ptm5 regrid_spec dset fcut false.
Proof.
  intros H. unfold ptm5.
  destruct (sortby_dir dset) as [sorted|]; [|done]. simpl.
  assert ((length (dset_freq dset) <?
           length (sort_by F64.ltb (set_add fcut (py_set (dset_freq dset)))))%nat
          = false) as ->; [|done].
  destruct H as [Htie|Hin]; [|by apply no_interpolation].
  apply Nat.ltb_ge. rewrite (Permutation_length (sort_by_perm _ _)).
  pose proof (set_add_length fcut (py_set (dset_freq dset))).
  pose proof (fold_set_tie [] (dset_freq dset) (or_introl Htie)) as Hlt.
  fold (py_set (dset_freq dset)) in Hlt. simpl in Hlt. lia.
Qed.

Lemma ptm5_interpolation_skipped_witness :
  ptm5 no_regrid (Efth [F64.half; F64.half] [F64.zero] [[F64.one]; [F64.one]])
    (F64.dec 1 4) true =
  ptm5 no_regrid (Efth [F64.half; F64.half] [F64.zero] [[F64.one]; [F64.one]])
    (F64.dec 1 4) false.
Proof.
  apply (ptm5_interpolation_skipped no_regrid
           (Efth [F64.half; F64.half] [F64.zero] [[F64.one]; [F64.one]])
           (F64.dec 1 4)).
  left. left. exists F64.half. split; [apply list_elem_of_here|reflexivity].
Defined.

(** X20: with [interpolate=True], frequencies that are pairwise different
    and a cut-off that is none of them, [ptm5] regrids: what it splits is
    [regrid_spec] of the spectrum as it was passed, not of the sorted copy,
    on the frequencies and the cut-off in ascending order. *)
Theorem ptm5_interpolation_regrids
  (regrid_spec : DataArray -> list f64 -> DataArray)
  (freq dir : list f64) (values : ndarray) (fcut : f64) :
  ~ has_tie freq -> (forall f, f ∈ freq -> F64.eqb f fcut = false) ->
  let dset := Efth freq dir values in
  let freqs := sort_by F64.ltb (freq ++ [fcut]) in
  freqs ≡ₚ fcut :: freq /\
  ptm5 regrid_spec dset fcut true =
  match regrid_spec dset freqs with
  | Efth freq' dir' values' =>
      Ok {| part_freq := freq'; part_dir := dir';
            part_values :=
              map (map (map fillna0))
                [where_freq (fun f => F64.geb f fcut) freq' values';
                 where_freq (fun f => F64.leb f fcut) freq' values'] |}
  | Ef _ _ => Raise KeyError
  end.
Proof.
  intros Htie Hcut dset freqs. split.
  { unfold freqs. rewrite (sort_by_perm _ (freq ++ [fcut])).
    by rewrite Permutation_app_comm. }
  unfold ptm5. simpl.
  assert (py_set freq = freq) as ->.
  { unfold py_set. rewrite fold_set_distinct; [done|done|].
    intros x y _ Hy. by apply elem_of_nil in Hy. }
  assert (existsb (F64.eqb fcut) freq = false) as E.
  { destruct (existsb (F64.eqb fcut) freq) eqn:E; [|done].
    apply existsb_exists in E as (y & Hy & Hxy).
    apply list_elem_of_In in Hy. apply eqb_sym in Hxy.
    by rewrite (Hcut y Hy) in Hxy. }
  unfold set_add. rewrite E. fold freqs.
  assert ((length freq <? length freqs)%nat = true) as ->; [|done].
  apply Nat.ltb_lt. unfold freqs.
  rewrite (Permutation_length (sort_by_perm _ _)), length_app. simpl. lia.
Qed.

Lemma ptm5_interpolation_regrids_witness :
  ptm5 no_regrid two_frequencies (F64.dec 15 100) true =
  Ok {| part_freq := [F64.dec 1 10; F64.dec 2 10]; part_dir := [F64.zero];
        part_values := [[[F64.zero]; [F64.of_Z 2]]; [[F64.of_Z 1]; [F64.zero]]] |}.
Proof.
  destruct (ptm5_interpolation_regrids no_regrid [F64.dec 1 10; F64.dec 2 10]
              [F64.zero] [[F64.of_Z 1]; [F64.of_Z 2]] (F64.dec 15 100))
    as [_ H].
  - intros [(k & Hk & Hxk)|[(k & Hk & _)|[]]].
    + apply list_elem_of_singleton in Hk. subst k. by vm_compute in Hxk.
    + by apply elem_of_nil in Hk.
  - intros f Hf.
    apply elem_of_cons in Hf as [->|Hf]; [by vm_compute|].
    apply list_elem_of_singleton in Hf. subst f. by vm_compute.
  - unfold two_frequencies. rewrite H. reflexivity.
Defined.
